(** * LEXIS frontend: the streaming chat consumer, the HTTP client wrapper,
      the session state, the application store and the upload validation

    A shallow embedding of the logic of
    - [lib/api.ts]            ([chatWithCase], [streamChatWithDocuments]),
    - [components/AuthProvider.tsx] ([apiRequest], [login], [logout]),
    - [store/useAppStore.ts]  ([setCurrentCase], [removeCase]) and
    - [components/FileUpload.tsx] ([validateFile]),
    together with the part of the JavaScript platform these functions call
    ([TextDecoder], [String.prototype] methods, [JSON.parse], truthiness). *)

From Stdlib Require Import List NArith ZArith Bool Lia.
From Stdlib Require Import Strings.String Strings.Ascii Strings.Byte.
Import ListNotations.

Set Implicit Arguments.

(** ** The JavaScript platform *)

Module JS.

Local Open Scope N_scope.

(** A JavaScript string is a sequence of UTF-16 code units. *)
Definition jsstring := list N.

(** The code units of an ASCII literal of the source. *)
Fixpoint lit (s : string) : jsstring :=
  match s with
  | EmptyString => []
  | String a r => N_of_ascii a :: lit r
  end.

(** An ASCII literal in which the apostrophe stands for the quotation mark
    and the vertical bar for the line feed, as JSON texts and event streams
    are full of both. *)
Definition text (s : string) : jsstring :=
  map (fun c => if c =? 39 then 34 else if c =? 124 then 10 else c) (lit s).

Fixpoint str_eqb (a b : jsstring) : bool :=
  match a, b with
  | [], [] => true
  | x :: a', y :: b' => (x =? y) && str_eqb a' b'
  | _, _ => false
  end.

(** [s.startsWith(p)] *)
Fixpoint startsWith (s p : jsstring) : bool :=
  match p, s with
  | [], _ => true
  | x :: p', y :: s' => (x =? y) && startsWith s' p'
  | _ :: _, [] => false
  end.

(** [s.includes(p)] *)
Fixpoint includes (s p : jsstring) : bool :=
  startsWith s p ||
  match s with
  | [] => false
  | _ :: s' => includes s' p
  end.

(** [s.slice(n)] for a non-negative [n]. *)
Definition slice (n : nat) (s : jsstring) : jsstring := skipn n s.

(** [s.split(sep)] for a separator of one code unit: never empty, and an
    empty piece follows a trailing separator. *)
Fixpoint split (sep : N) (s : jsstring) : list jsstring :=
  match s with
  | [] => [[]]
  | c :: r =>
      if c =? sep then [] :: split sep r
      else match split sep r with
           | h :: t => (c :: h) :: t
           | [] => [[c]]
           end
  end.

(** White space and line terminators, as [String.prototype.trim] sees them. *)
Definition is_js_space (c : N) : bool :=
  ((9 <=? c) && (c <=? 13)) || (c =? 32) || (c =? 160) || (c =? 5760)
  || ((8192 <=? c) && (c <=? 8202)) || (c =? 8232) || (c =? 8233)
  || (c =? 8239) || (c =? 8287) || (c =? 12288) || (c =? 65279).

Fixpoint trimStart (s : jsstring) : jsstring :=
  match s with
  | c :: r => if is_js_space c then trimStart r else s
  | [] => []
  end.

Definition trimEnd (s : jsstring) : jsstring := rev (trimStart (rev s)).

(** [s.trim()] *)
Definition trim (s : jsstring) : jsstring := trimEnd (trimStart s).

(** *** [new TextDecoder().decode(bytes)]

    The UTF-8 decoder of the Encoding standard in replacement mode: a
    malformed sequence yields U+FFFD and the offending byte is read again;
    a leading byte-order mark is dropped.  The call has no [stream] option,
    so every call starts from the initial state and flushes at its end. *)

Record utf8_state := {
  code_point : N;
  bytes_seen : N;
  bytes_needed : N;
  lower : N;
  upper : N
}.

Definition utf8_init : utf8_state :=
  {| code_point := 0; bytes_seen := 0; bytes_needed := 0;
     lower := 128; upper := 191 |}.

(** A byte read when no sequence is open: the code point it emits, if any,
    and the next state. *)
Definition utf8_lead (b : N) : option N * utf8_state :=
  if b <=? 127 then (Some b, utf8_init)
  else if (194 <=? b) && (b <=? 223) then
    (None, {| code_point := N.land b 31; bytes_seen := 0; bytes_needed := 1;
              lower := 128; upper := 191 |})
  else if (224 <=? b) && (b <=? 239) then
    (None, {| code_point := N.land b 15; bytes_seen := 0; bytes_needed := 2;
              lower := if b =? 224 then 160 else 128;
              upper := if b =? 237 then 159 else 191 |})
  else if (240 <=? b) && (b <=? 244) then
    (None, {| code_point := N.land b 7; bytes_seen := 0; bytes_needed := 3;
              lower := if b =? 240 then 144 else 128;
              upper := if b =? 244 then 143 else 191 |})
  else (Some 65533, utf8_init).

(** One byte: the code points emitted and the next state. *)
Definition utf8_step (st : utf8_state) (b : N) : list N * utf8_state :=
  if bytes_needed st =? 0 then
    let '(o, st') := utf8_lead b in
    (match o with Some c => [c] | None => [] end, st')
  else if negb ((lower st <=? b) && (b <=? upper st)) then
    let '(o, st') := utf8_lead b in
    (65533 :: match o with Some c => [c] | None => [] end, st')
  else
    let cp := N.lor (N.shiftl (code_point st) 6) (N.land b 63) in
    if bytes_seen st + 1 =? bytes_needed st then ([cp], utf8_init)
    else ([], {| code_point := cp; bytes_seen := bytes_seen st + 1;
                 bytes_needed := bytes_needed st;
                 lower := 128; upper := 191 |}).

Fixpoint utf8_run (st : utf8_state) (bs : list byte) : list N :=
  match bs with
  | [] => if bytes_needed st =? 0 then [] else [65533]
  | b :: r =>
      let '(out, st') := utf8_step st (Byte.to_N b) in
      out ++ utf8_run st' r
  end.

Definition strip_bom (cps : list N) : list N :=
  match cps with
  | c :: r => if c =? 65279 then r else cps
  | [] => []
  end.

(** A code point as UTF-16 code units. *)
Definition utf16_units (cp : N) : jsstring :=
  if cp <? 65536 then [cp]
  else let v := cp - 65536 in
       [55296 + N.shiftr v 10; 56320 + N.land v 1023].

Definition decode (bs : list byte) : jsstring :=
  flat_map utf16_units (strip_bom (utf8_run utf8_init bs)).

(** The bytes of a string of ASCII characters. *)
Definition bytes (s : jsstring) : list byte :=
  map (fun c => match Byte.of_N c with Some b => b | None => x3f end) s.

(** The decimal digits of a non-negative integer, as a template literal
    renders it. *)
Fixpoint uint_digits (u : Decimal.uint) : jsstring :=
  match u with
  | Decimal.Nil => []
  | Decimal.D0 r => 48 :: uint_digits r
  | Decimal.D1 r => 49 :: uint_digits r
  | Decimal.D2 r => 50 :: uint_digits r
  | Decimal.D3 r => 51 :: uint_digits r
  | Decimal.D4 r => 52 :: uint_digits r
  | Decimal.D5 r => 53 :: uint_digits r
  | Decimal.D6 r => 54 :: uint_digits r
  | Decimal.D7 r => 55 :: uint_digits r
  | Decimal.D8 r => 56 :: uint_digits r
  | Decimal.D9 r => 57 :: uint_digits r
  end.

Definition show_N (n : N) : jsstring := uint_digits (N.to_uint n).

(** *** Values

    The values the modelled code handles: those [JSON.parse] builds, and
    [undefined], the result of reading a property that is not there.  A
    number keeps the decimal written in the text, [(-1)^neg * mant * 10^exp10];
    an object keeps its properties in insertion order. *)

Record decimal := { neg : bool; mant : N; exp10 : Z }.

#[warnings="-register-all"]
Inductive value :=
| Undefined
| Null
| Bool (b : bool)
| Number (d : decimal)
| Str (s : jsstring)
| Arr (elements : list value)
| Obj (props : list (jsstring * value)).

(** The binary64 nearest to a positive decimal is zero when the decimal is
    at most half the least subnormal, [2^-1075]. *)
Definition rounds_to_zero (d : decimal) : bool :=
  (mant d =? 0) ||
  ((exp10 d <? 0)%Z &&
   (Z.of_N (mant d) * 2 ^ 1075 <=? 10 ^ (- exp10 d))%Z).

(** [ToBoolean] *)
Definition truthy (v : value) : bool :=
  match v with
  | Undefined | Null => false
  | Bool b => b
  | Number d => negb (rounds_to_zero d)
  | Str s => match s with [] => false | _ => true end
  | Arr _ | Obj _ => true
  end.

(** [a || b] *)
Definition or_else (a b : value) : value := if truthy a then a else b.

Fixpoint lookup (k : jsstring) (props : list (jsstring * value)) : option value :=
  match props with
  | [] => None
  | (k', v) :: r => if str_eqb k k' then Some v else lookup k r
  end.

(** Defining a property: an existing key keeps its place and takes the new
    value, a new key goes last. *)
Fixpoint set_prop (A : Type) (k : jsstring) (v : A) (props : list (jsstring * A))
  : list (jsstring * A) :=
  match props with
  | [] => [(k, v)]
  | (k', v') :: r =>
      if str_eqb k k' then (k', v) :: r else (k', v') :: set_prop k v r
  end.

(** [delete o[k]] *)
Definition delete_prop (A : Type) (k : jsstring) (props : list (jsstring * A))
  : list (jsstring * A) :=
  filter (fun p => negb (str_eqb k (fst p))) props.

(** [v.k] for a property name [k] that no built-in prototype defines (as
    [type], [chunk_id], [access_token], ... are): [None] is the [TypeError]
    of reading a property of [null] or [undefined]. *)
Definition get (v : value) (k : jsstring) : option value :=
  match v with
  | Undefined | Null => None
  | Obj props => Some (match lookup k props with Some x => x | None => Undefined end)
  | _ => Some Undefined
  end.

(** [a === b] where [b] is a string literal. *)
Definition is_string (a : value) (b : jsstring) : bool :=
  match a with
  | Str s => str_eqb s b
  | _ => false
  end.

(** *** [JSON.parse] *)

Inductive parse_result (A : Type) :=
| Parsed (a : A) (rest : jsstring)
| SyntaxError
| OutOfFuel.
Arguments SyntaxError {A}.
Arguments OutOfFuel {A}.

Definition is_json_space (c : N) : bool :=
  (c =? 32) || (c =? 9) || (c =? 10) || (c =? 13).

Fixpoint skip_space (s : jsstring) : jsstring :=
  match s with
  | c :: r => if is_json_space c then skip_space r else s
  | [] => []
  end.

Definition is_digit (c : N) : bool := (48 <=? c) && (c <=? 57).

Definition hex_digit (c : N) : option N :=
  if is_digit c then Some (c - 48)
  else if (97 <=? c) && (c <=? 102) then Some (c - 87)
  else if (65 <=? c) && (c <=? 70) then Some (c - 55)
  else None.

Definition hex4 (a b c d : N) : option N :=
  match hex_digit a, hex_digit b, hex_digit c, hex_digit d with
  | Some a, Some b, Some c, Some d => Some (((a * 16 + b) * 16 + c) * 16 + d)
  | _, _, _, _ => None
  end.

(** The character a one-letter escape stands for. *)
Definition unescape (c : N) : option N :=
  if c =? 34 then Some 34          (* quotation mark *)
  else if c =? 92 then Some 92     (* reverse solidus *)
  else if c =? 47 then Some 47     (* solidus *)
  else if c =? 98 then Some 8      (* b: backspace *)
  else if c =? 102 then Some 12    (* f: form feed *)
  else if c =? 110 then Some 10    (* n: line feed *)
  else if c =? 114 then Some 13    (* r: carriage return *)
  else if c =? 116 then Some 9     (* t: tab *)
  else None.

(** The characters of a string after its opening quote, up to and including
    the closing one. *)
Fixpoint parse_chars (s : jsstring) (acc : jsstring) : parse_result jsstring :=
  match s with
  | [] => SyntaxError
  | c :: r =>
      if c =? 34 then Parsed (rev acc) r
      else if c =? 92 then
        match r with
        | [] => SyntaxError
        | e :: r' =>
            if e =? 117 then
              match r' with
              | h1 :: h2 :: h3 :: h4 :: r'' =>
                  match hex4 h1 h2 h3 h4 with
                  | Some u => parse_chars r'' (u :: acc)
                  | None => SyntaxError
                  end
              | _ => SyntaxError
              end
            else
              match unescape e with
              | Some u => parse_chars r' (u :: acc)
              | None => SyntaxError
              end
        end
      else if c <? 32 then SyntaxError
      else parse_chars r (c :: acc)
  end.

(** A run of digits: its value continuing [acc], its length, and the rest. *)
Fixpoint digits (s : jsstring) (acc : N) (count : nat) : N * nat * jsstring :=
  match s with
  | c :: r => if is_digit c then digits r (acc * 10 + (c - 48)) (S count)
              else (acc, count, s)
  | [] => (acc, count, [])
  end.

Definition parse_exponent (s : jsstring) : parse_result Z :=
  match s with
  | c :: r =>
      if (c =? 101) || (c =? 69) then
        let '(sign, r1) :=
          match r with
          | x :: r' => if x =? 43 then (1%Z, r')
                       else if x =? 45 then ((-1)%Z, r') else (1%Z, r)
          | [] => (1%Z, r)
          end in
        match digits r1 0 0 with
        | (_, O, _) => SyntaxError
        | (e, _, r2) => Parsed (sign * Z.of_N e)%Z r2
        end
      else Parsed 0%Z s
  | [] => Parsed 0%Z s
  end.

Definition parse_fraction (s : jsstring) (int : N) : parse_result (N * nat) :=
  match s with
  | c :: r =>
      if c =? 46 then
        match digits r int 0 with
        | (_, O, _) => SyntaxError
        | (m, n, r1) => Parsed (m, n) r1
        end
      else Parsed (int, O) s
  | [] => Parsed (int, O) s
  end.

Definition parse_number (s : jsstring) : parse_result decimal :=
  let '(sg, s1) :=
    match s with
    | c :: r => if c =? 45 then (true, r) else (false, s)
    | [] => (false, s)
    end in
  let int :=
    match s1 with
    | c :: r =>
        if c =? 48 then Parsed 0 r
        else if is_digit c then
          let '(m, _, r1) := digits s1 0 0 in Parsed m r1
        else SyntaxError
    | [] => SyntaxError
    end in
  match int with
  | Parsed i s2 =>
      match parse_fraction s2 i with
      | Parsed (m, n) s3 =>
          match parse_exponent s3 with
          | Parsed e s4 =>
              Parsed {| neg := sg; mant := m; exp10 := (e - Z.of_nat n)%Z |} s4
          | SyntaxError => SyntaxError
          | OutOfFuel => OutOfFuel
          end
      | SyntaxError => SyntaxError
      | OutOfFuel => OutOfFuel
      end
  | SyntaxError => SyntaxError
  | OutOfFuel => OutOfFuel
  end.

Definition parse_keyword (kw : jsstring) (v : value) (s : jsstring)
  : parse_result value :=
  if startsWith s kw then Parsed v (skipn (List.length kw) s) else SyntaxError.

Fixpoint parse_value (fuel : nat) (s : jsstring) : parse_result value :=
  match fuel with
  | O => OutOfFuel
  | S fuel' =>
      match skip_space s with
      | [] => SyntaxError
      | c :: r =>
          if c =? 123 then                                   (* { *)
            match skip_space r with
            | c' :: r' =>
                if c' =? 125 then Parsed (Obj []) r'         (* } *)
                else parse_members fuel' r []
            | [] => parse_members fuel' r []
            end
          else if c =? 91 then                               (* [ *)
            match skip_space r with
            | c' :: r' =>
                if c' =? 93 then Parsed (Arr []) r'          (* ] *)
                else parse_elements fuel' r []
            | [] => parse_elements fuel' r []
            end
          else if c =? 34 then
            match parse_chars r [] with
            | Parsed str r' => Parsed (Str str) r'
            | SyntaxError => SyntaxError
            | OutOfFuel => OutOfFuel
            end
          else if c =? 116 then parse_keyword (lit "true") (Bool true) (c :: r)
          else if c =? 102 then parse_keyword (lit "false") (Bool false) (c :: r)
          else if c =? 110 then parse_keyword (lit "null") Null (c :: r)
          else
            match parse_number (c :: r) with
            | Parsed d r' => Parsed (Number d) r'
            | SyntaxError => SyntaxError
            | OutOfFuel => OutOfFuel
            end
      end
  end

with parse_elements (fuel : nat) (s : jsstring) (acc : list value)
  : parse_result value :=
  match fuel with
  | O => OutOfFuel
  | S fuel' =>
      match parse_value fuel' s with
      | Parsed v r =>
          match skip_space r with
          | c :: r' =>
              if c =? 44 then parse_elements fuel' r' (v :: acc)
              else if c =? 93 then Parsed (Arr (rev (v :: acc))) r'
              else SyntaxError
          | [] => SyntaxError
          end
      | SyntaxError => SyntaxError
      | OutOfFuel => OutOfFuel
      end
  end

with parse_members (fuel : nat) (s : jsstring) (acc : list (jsstring * value))
  : parse_result value :=
  match fuel with
  | O => OutOfFuel
  | S fuel' =>
      match skip_space s with
      | c :: r =>
          if c =? 34 then
            match parse_chars r [] with
            | Parsed k r1 =>
                match skip_space r1 with
                | c1 :: r2 =>
                    if c1 =? 58 then
                      match parse_value fuel' r2 with
                      | Parsed v r3 =>
                          match skip_space r3 with
                          | c3 :: r4 =>
                              if c3 =? 44 then
                                parse_members fuel' r4 (set_prop k v acc)
                              else if c3 =? 125 then
                                Parsed (Obj (set_prop k v acc)) r4
                              else SyntaxError
                          | [] => SyntaxError
                          end
                      | SyntaxError => SyntaxError
                      | OutOfFuel => OutOfFuel
                      end
                    else SyntaxError
                | [] => SyntaxError
                end
            | SyntaxError => SyntaxError
            | OutOfFuel => OutOfFuel
            end
          else SyntaxError
      | [] => SyntaxError
      end
  end.

(** [JSON.parse(text)]: one value, with nothing but white space after it;
    [None] is the [SyntaxError] it throws. *)
Definition JSON_parse (text : jsstring) : option value :=
  match parse_value (2 * List.length text + 2) text with
  | Parsed v rest =>
      match skip_space rest with
      | [] => Some v
      | _ :: _ => None
      end
  | _ => None
  end.

End JS.

(** ** Requests, responses and body readers *)

Module Http.
Import JS.

(** A thrown value: an [Error] with its message, or anything else. *)
Inductive exn :=
| Error (message : jsstring)
| NotAnError.

(** [error instanceof Error ? error.message : 'Unknown error occurred'] *)
Definition error_message (e : exn) : jsstring :=
  match e with
  | Error m => m
  | NotAnError => lit "Unknown error occurred"
  end.

(** The [TypeError] and [SyntaxError] of the engine; their wording, which
    differs between engines, is not modelled. *)
Definition type_error : exn := Error (lit "TypeError").
Definition syntax_error : exn := Error (lit "SyntaxError").

(** How a call ends. *)
Inductive completion (A : Type) :=
| Returns (a : A)
| Throws (e : exn).
Arguments Throws {A}.

(** The reader of a response body, as the script of its successive
    [read()] calls: [{done: false, value}] and then the rest,
    [{done: true}], or a rejection. *)
Inductive reader :=
| EndOfStream
| Fragment (value : list byte) (next : reader)
| ReadFails (e : exn).

Record Response := {
  status : N;
  body : option reader
}.

(** [response.ok] *)
Definition ok (r : Response) : bool := (200 <=? status r)%N && (status r <=? 299)%N.

Inductive BodyInit :=
| NoBody
| JsonOf (v : value)        (* JSON.stringify(v) *)
| FormData.

Record RequestInit := {
  method : option jsstring;
  headers : list (jsstring * jsstring);
  payload : BodyInit
}.

(** The default [options = {}]. *)
Definition no_options : RequestInit :=
  {| method := None; headers := []; payload := NoBody |}.

(** Reading a body to its end. *)
Fixpoint read_all (r : reader) : completion (list byte) :=
  match r with
  | EndOfStream => Returns []
  | Fragment value next =>
      match read_all next with
      | Returns rest => Returns (value ++ rest)
      | Throws e => Throws e
      end
  | ReadFails e => Throws e
  end.

(** [response.json()]: the whole body, decoded and parsed. *)
Definition json (r : Response) : completion value :=
  match read_all (match body r with Some rd => rd | None => EndOfStream end) with
  | Returns bs =>
      match JSON_parse (decode bs) with
      | Some v => Returns v
      | None => Throws syntax_error
      end
  | Throws e => Throws e
  end.

End Http.

(** ** [lib/api.ts] *)

Module Api.
Import JS Http.
Local Open Scope string_scope.
Local Open Scope list_scope.

(** What the consumer does to the outside, in order: a [reader.read()], a
    call of one of the three callbacks, a [console.warn]. *)
Inductive event :=
| Read
| OnChunk (chunk : value)
| OnComplete
| OnError (error : jsstring)
| Warn (data : jsstring).

Definition trace := list event.

(** The callbacks are the caller's code.  The consumer sees of a call
    whether it returns or throws: [cb tr] tells it for the call that ends
    the trace [tr], [None] for a normal return.  And [onChunk] is handed
    the parsed object itself, whose [type] the consumer reads only after
    the call: [leaves cb tr v] is what the [onChunk] call that ends [tr]
    leaves of the object [v] it is given. *)
Record callbacks := {
  raises :> trace -> option exn;
  leaves : trace -> value -> value
}.

(** [parsedData] when [onChunk(parsedData)] has returned.  An object or an
    array is shared with the callee and comes back as the callee leaves
    it; a string, a number, a boolean or [null] cannot be changed. *)
Definition handed_back (cb : callbacks) (tr : trace) (v : value) : value :=
  match v with
  | Obj _ | Arr _ => leaves cb tr v
  | _ => v
  end.

(** Callbacks that leave the events they are given as they are. *)
Definition unchanged (cb : callbacks) : Prop :=
  forall tr v, leaves cb tr v = v.

(** Callbacks that return normally, whatever they are given, and change
    nothing. *)
Definition well_behaved : callbacks :=
  {| raises := fun _ => None; leaves := fun _ v => v |}.

(** The body of the [for] loop ends by going on to the next line, or by
    the [return] that leaves the function. *)
Inductive line_result :=
| Continue (tr : trace)
| Return (tr : trace).

Definition process_line (cb : callbacks) (tr : trace) (line : jsstring)
  : line_result :=
  if startsWith line (lit "data: ") then
    let data := slice 6 line in
    if str_eqb (trim data) [] then Continue tr
    else
      match JSON_parse data with
      | None => Continue (tr ++ [Warn data])
      | Some parsedData =>
          let tr1 := tr ++ [OnChunk parsedData] in
          match cb tr1 with
          | Some _ => Continue (tr1 ++ [Warn data])
          | None =>
              match get (handed_back cb tr1 parsedData) (lit "type") with
              | None => Continue (tr1 ++ [Warn data])
              | Some type =>
                  if is_string type (lit "done") || is_string type (lit "error")
                  then
                    let tr2 := tr1 ++ [OnComplete] in
                    match cb tr2 with
                    | Some _ => Continue (tr2 ++ [Warn data])
                    | None => Return tr2
                    end
                  else Continue tr1
              end
          end
      end
  else Continue tr.

Fixpoint process_lines (cb : callbacks) (tr : trace) (lines : list jsstring)
  : line_result :=
  match lines with
  | [] => Continue tr
  | line :: rest =>
      match process_line cb tr line with
      | Continue tr' => process_lines cb tr' rest
      | Return tr' => Return tr'
      end
  end.

(** The [while (true)] loop: the trace, and how the [try] block ends. *)
Fixpoint read_loop (cb : callbacks) (rd : reader) (tr : trace)
  : trace * completion unit :=
  let tr := tr ++ [Read] in
  match rd with
  | ReadFails e => (tr, Throws e)
  | EndOfStream =>
      let tr1 := tr ++ [OnComplete] in
      match cb tr1 with
      | Some e => (tr1, Throws e)
      | None => (tr1, Returns tt)
      end
  | Fragment value next =>
      let chunk := decode value in
      let lines := split 10 chunk in
      match process_lines cb tr lines with
      | Return tr' => (tr', Returns tt)
      | Continue tr' => read_loop cb next tr'
      end
  end.

Definition SecureApiRequest := jsstring -> RequestInit -> completion Response.

Definition chat_options (request : value) : RequestInit :=
  {| method := Some (lit "POST");
     headers := [(lit "Accept", lit "text/event-stream")];
     payload := JsonOf request |}.

Definition streamChatWithDocuments
    (secureApiRequest : option SecureApiRequest) (request : value)
    (cb : callbacks) : trace * completion unit :=
  match secureApiRequest with
  | None => ([], Throws (Error (lit "API service not initialized")))
  | Some api =>
      let try_block :=
        match api (lit "/api/chat/chat") (chat_options request) with
        | Throws e => ([], Throws e)
        | Returns response =>
            if negb (ok response) then
              ([], Throws (Error (lit "HTTP error! status: "
                                    ++ show_N (status response))))
            else
              match body response with
              | None => ([], Throws (Error (lit "No reader available")))
              | Some rd => read_loop cb rd []
              end
        end in
      match try_block with
      | (tr, Returns _) => (tr, Returns tt)
      | (tr, Throws error) =>
          let tr1 := tr ++ [OnError (error_message error)] in
          match cb tr1 with
          | Some e => (tr1, Throws e)
          | None => (tr1, Returns tt)
          end
      end
  end.

(** An event that ends the stream: its [type] is ['done'] or ['error']. *)
Definition terminal (chunk : value) : bool :=
  match get chunk (lit "type") with
  | Some type => is_string type (lit "done") || is_string type (lit "error")
  | None => false
  end.

(** The arguments of the [onChunk] calls of a trace, in order. *)
Fixpoint chunk_calls (tr : trace) : list value :=
  match tr with
  | [] => []
  | OnChunk v :: r => v :: chunk_calls r
  | _ :: r => chunk_calls r
  end.

(** An event that neither ends the stream nor reports its end or failure. *)
Definition quiet_event (e : event) : Prop :=
  match e with
  | OnComplete | OnError _ => False
  | OnChunk v => terminal v = false
  | Read | Warn _ => True
  end.

Definition quiet (tr : trace) : Prop := Forall quiet_event tr.

(** How a run of the loop ends after the trace [pre]: at the end of the
    stream, by a failed read, or at an event that is terminal when
    [onChunk] has returned. *)
Inductive ending (cb : callbacks) (pre : trace)
  : trace -> completion unit -> Prop :=
| ending_end_of_stream : ending cb pre [OnComplete] (Returns tt)
| ending_read_fails e : ending cb pre [] (Throws e)
| ending_terminal v :
    terminal (handed_back cb (pre ++ [OnChunk v]) v) = true ->
    ending cb pre [OnChunk v; OnComplete] (Returns tt).

(** Callbacks of which [onChunk] throws, whatever it is given. *)
Definition onChunk_throws : callbacks :=
  {| raises := fun tr =>
       match last tr Read with
       | OnChunk _ => Some (Error (lit "boom"))
       | _ => None
       end;
     leaves := fun _ v => v |}.


(** Callbacks that return normally, of which [onChunk] marks the event it
    has handled: it sets the [type] of the object to ['seen']. *)
Definition onChunk_marks : callbacks :=
  {| raises := fun _ => None;
     leaves := fun _ v =>
       match v with
       | Obj props =>
           Obj ((lit "type", Str (lit "seen"))
                  :: filter (fun kv => negb (str_eqb (fst kv) (lit "type")))
                            props)
       | _ => v
       end |}.

(** A backend that answers 200 with the given body. *)
Definition serving (rd : reader) : option SecureApiRequest :=
  Some (fun _ _ => Returns {| status := 200; body := Some rd |}).

(** The body delivered as the given byte fragments, then its end. *)
Fixpoint fragments (fs : list (list byte)) : reader :=
  match fs with
  | [] => EndOfStream
  | f :: r => Fragment f (fragments r)
  end.

(** The events and fragments of the examples. *)
Definition content_hi : value :=
  Obj [(lit "type", Str (lit "content")); (lit "content", Str (lit "hi"))].

Definition done_event : value := Obj [(lit "type", Str (lit "done"))].

Definition fragment_content_hi : list byte :=
  bytes (text "data: {'type':'content','content':'hi'}|").

Definition fragment_done : list byte :=
  bytes (text "data: {'type':'done'}|").

Definition fragment_not_json : list byte := bytes (text "data: {not json}|").


(** *** [chatWithCase] *)

(** The [Citation] of [types/index.ts]; the backend's data is untyped, so
    every field holds whatever value the mapping produced. *)
Record Citation := {
  chunk_id : value;
  content : value;
  full_content : value;
  page_number : value;
  chunk_number : value;
  document_id : value;
  document_name : value;
  case_id : value;
  score : value;
  id : value;
  documentId : value;
  documentTitle : value;
  relevantSourceText : value;
  page : value
}.

Record ChatResult := {
  response : value;
  citations : list Citation;
  search_results_count : value;
  message_id : value
}.

(** A property of a value that is neither [null] nor [undefined]. *)
Definition field (v : value) (k : string) : value :=
  match get v (lit k) with
  | Some x => x
  | None => Undefined
  end.

Definition num (n : N) : value := Number {| neg := false; mant := n; exp10 := 0 |}.

(** The arrow function given to [map]. *)
Definition map_citation (caseId : jsstring) (citation : value)
  : completion Citation :=
  match citation with
  | Undefined | Null => Throws type_error
  | _ =>
      let c := field citation in
      Returns
        {| chunk_id := or_else (or_else (c "chunk_id") (c "id")) (Str []);
           content := or_else (c "content") (Str []);
           full_content := or_else (c "content") (Str []);
           page_number := or_else (c "page_number") (num 1);
           chunk_number := or_else (c "chunk_number") (num 0);
           document_id := or_else (c "document_id") (Str []);
           document_name :=
             or_else (or_else (c "document_name") (c "document_id"))
                     (Str (lit "Unknown Document"));
           case_id := Str caseId;
           score := or_else (c "score") (num 0);
           id := or_else (or_else (c "chunk_id") (c "id")) (Str []);
           documentId := or_else (c "document_id") (Str []);
           documentTitle :=
             or_else (or_else (c "document_name") (c "document_id"))
                     (Str (lit "Unknown Document"));
           relevantSourceText := or_else (c "content") (Str []);
           page := or_else (c "page_number") (num 1) |}
  end.

(** [Array.prototype.map] with a callback that may throw. *)
Fixpoint map_all (A B : Type) (f : A -> completion B) (l : list A)
  : completion (list B) :=
  match l with
  | [] => Returns []
  | x :: r =>
      match f x with
      | Throws e => Throws e
      | Returns y =>
          match map_all f r with
          | Throws e => Throws e
          | Returns ys => Returns (y :: ys)
          end
      end
  end.

Section Requests.

(** [String(v)] for a value that is not a string. *)
Variable String_of : value -> jsstring.

Definition ToString (v : value) : jsstring :=
  match v with
  | Str s => s
  | _ => String_of v
  end.

(** [this.request]: the call goes to the function [AuthProvider] installed. *)
Definition request (secureApiRequest : option SecureApiRequest)
    (url : jsstring) (options : RequestInit) : completion Response :=
  match secureApiRequest with
  | None =>
      Throws (Error (lit
        "API service not initialized. Please ensure AuthProvider is loaded."))
  | Some api => api url options
  end.

Definition handleJsonResponse (response : Response) : completion value :=
  if negb (ok response) then
    let errorData :=
      match json response with
      | Returns v => v
      | Throws _ => Obj [(lit "error", Str (lit "Unknown error"))]
      end in
    match get errorData (lit "error") with
    | None => Throws type_error
    | Some e =>
        Throws (Error (ToString
          (or_else e (Str (lit "HTTP error! status: "
                             ++ show_N (status response))))))
    end
  else json response.

Definition chatWithCase (secureApiRequest : option SecureApiRequest)
    (caseId query userId : jsstring) : completion ChatResult :=
  let options :=
    {| method := Some (lit "POST");
       headers := [];
       payload := JsonOf (Obj [(lit "case_id", Str caseId);
                               (lit "query", Str query);
                               (lit "user_id", Str userId)]) |} in
  match request secureApiRequest (lit "/api/chat/chat") options with
  | Throws e => Throws e
  | Returns response =>
      match handleJsonResponse response with
      | Throws e => Throws e
      | Returns result =>
          match get result (lit "citations") with
          | None => Throws type_error
          | Some cs =>
              match or_else cs (Arr []) with
              | Arr l =>
                  match map_all (map_citation caseId) l with
                  | Throws e => Throws e
                  | Returns mappedCitations =>
                      Returns
                        {| response := field result "response";
                           citations := mappedCitations;
                           search_results_count :=
                             field result "search_results_count";
                           message_id := field result "message_id" |}
                  end
              | _ => Throws type_error       (* no [map] to call *)
              end
          end
      end
  end.

End Requests.

(** A backend answer with one citation, and the citation made of it. *)
Definition sample_citations : reader :=
  Fragment (bytes (text "{'response':'r','citations':[{'id':'c1','score':0.5}]}"))
           EndOfStream.

Definition sample_entry : value :=
  Obj [(lit "id", Str (lit "c1"));
       (lit "score", Number {| neg := false; mant := 5; exp10 := -1 |})].

Definition sample_citation : Citation :=
  {| chunk_id := Str (lit "c1"); content := Str []; full_content := Str [];
     page_number := num 1; chunk_number := num 0; document_id := Str [];
     document_name := Str (lit "Unknown Document"); case_id := Str (lit "k");
     score := Number {| neg := false; mant := 5; exp10 := -1 |};
     id := Str (lit "c1"); documentId := Str [];
     documentTitle := Str (lit "Unknown Document");
     relevantSourceText := Str []; page := num 1 |}.

(** *** More about the consumer's runs *)

(** The trace without its reads: the calls and the warnings. *)
Definition calls (tr : trace) : trace :=
  filter (fun e => match e with Read => false | _ => true end) tr.

(** The number of reads of a trace. *)
Definition reads (tr : trace) : nat :=
  List.length (filter (fun e => match e with Read => true | _ => false end) tr).

(** Callbacks that see the calls made to them and not the reads of the
    consumer: what [onChunk] does to an event depends on the trace only
    through its calls and warnings. *)
Definition sees_calls_only (cb : callbacks) : Prop :=
  forall tr tr' v, calls tr = calls tr' -> leaves cb tr v = leaves cb tr' v.

(** The events [ext] that follow [tr] in a run that goes on: no
    [onComplete] and no [onError] call is among them, and none of the
    events handed to [onChunk] is a terminal one when the call has
    returned. *)
Fixpoint goes_on (cb : callbacks) (tr ext : trace) : Prop :=
  match ext with
  | [] => True
  | e :: rest =>
      match e with
      | OnComplete | OnError _ => False
      | OnChunk v => terminal (handed_back cb (tr ++ [OnChunk v]) v) = false
      | Read | Warn _ => True
      end
      /\ goes_on cb (tr ++ [e]) rest
  end.

(** The event a line of the stream carries: the parsed payload of a
    [data: ] line whose payload is not blank and parses. *)
Definition event_of (line : jsstring) : option value :=
  if startsWith line (lit "data: ") then
    if str_eqb (trim (slice 6 line)) [] then None
    else JSON_parse (slice 6 line)
  else None.

(** The events of some lines, in order. *)
Definition events_of (lines : list jsstring) : list value :=
  flat_map (fun line => match event_of line with
                        | Some v => [v]
                        | None => []
                        end) lines.

(** A line that carries a terminal event. *)
Definition terminal_line (line : jsstring) : bool :=
  match event_of line with
  | Some v => terminal v
  | None => false
  end.

(** The body that delivers the given fragments and then goes on as
    [next]. *)
Fixpoint delivering (fs : list (list byte)) (next : reader) : reader :=
  match fs with
  | [] => next
  | f :: r => Fragment f (delivering r next)
  end.

(** The fragments a reader delivers before it ends or fails. *)
Fixpoint reader_fragments (rd : reader) : list (list byte) :=
  match rd with
  | Fragment value next => value :: reader_fragments next
  | EndOfStream | ReadFails _ => []
  end.

(** The body delivered as the given fragments, then a read that fails. *)
Fixpoint failing_after (fs : list (list byte)) (e : exn) : reader :=
  match fs with
  | [] => ReadFails e
  | f :: r => Fragment f (failing_after r e)
  end.

(** Bytes that are all ASCII. *)
Definition ascii_bytes (bs : list byte) : bool :=
  forallb (fun b => (Byte.to_N b <? 128)%N) bs.

(** A fragment that ends with a line feed. *)
Definition ends_line (bs : list byte) : bool :=
  match rev bs with
  | b :: _ => (Byte.to_N b =? 10)%N
  | [] => false
  end.


(** Two results that agree but for the reads of their traces. *)
Definition same_calls (r1 r2 : line_result) : Prop :=
  match r1, r2 with
  | Continue a, Continue b | Return a, Return b => calls a = calls b
  | _, _ => False
  end.


(** Callbacks of which [onComplete] throws. *)
Definition onComplete_throws : callbacks :=
  {| raises := fun tr =>
       match last tr Read with
       | OnComplete => Some (Error (lit "boom"))
       | _ => None
       end;
     leaves := fun _ v => v |}.


(** *** [uploadDocuments] *)

Record UploadResponse := {
  upload_success : value;
  upload_message : value;
  successful_documents : value;
  failed_documents : value;
  total_chunks : value;
  total_tokens : value;
  successful_count : value;
  failed_count : value
}.



(** What a call of [uploadDocuments] does: the timers it sets, the
    progress it reports itself, in order, and how it ends. *)
Record Upload := {
  timers_set : list (N * N);
  own_reports : list N;
  upload_result : completion UploadResponse
}.


Section Uploads.

Variable String_of : value -> jsstring.


End Uploads.

(** [null] or [undefined]. *)
Definition nullish (v : value) : bool :=
  match v with
  | Undefined | Null => true
  | _ => false
  end.

End Api.

(** ** [components/AuthProvider.tsx] *)

Module Auth.
Import JS Http.
Local Open Scope string_scope.
Local Open Scope list_scope.

Record Request := {
  url : jsstring;
  init : RequestInit
}.

(** The provider's React state, and what it touches of the browser: the
    [access_token] item of [sessionStorage] (there is one only where
    [window] is defined), the routes pushed, the timers set, and the
    requests sent so far. *)
Record state := {
  user : value;
  isLoading : bool;
  isAuthenticated : bool;
  accessToken : value;
  window_defined : bool;
  sessionStorage : option jsstring;
  pushed : list jsstring;
  timers : list (N * jsstring);
  requests : list Request
}.

Definition set_user (v : value) (st : state) : state :=
  {| user := v; isLoading := isLoading st;
     isAuthenticated := isAuthenticated st; accessToken := accessToken st;
     window_defined := window_defined st; sessionStorage := sessionStorage st;
     pushed := pushed st; timers := timers st; requests := requests st |}.

Definition set_isLoading (b : bool) (st : state) : state :=
  {| user := user st; isLoading := b;
     isAuthenticated := isAuthenticated st; accessToken := accessToken st;
     window_defined := window_defined st; sessionStorage := sessionStorage st;
     pushed := pushed st; timers := timers st; requests := requests st |}.

Definition set_isAuthenticated (b : bool) (st : state) : state :=
  {| user := user st; isLoading := isLoading st;
     isAuthenticated := b; accessToken := accessToken st;
     window_defined := window_defined st; sessionStorage := sessionStorage st;
     pushed := pushed st; timers := timers st; requests := requests st |}.

Definition set_accessToken (v : value) (st : state) : state :=
  {| user := user st; isLoading := isLoading st;
     isAuthenticated := isAuthenticated st; accessToken := v;
     window_defined := window_defined st; sessionStorage := sessionStorage st;
     pushed := pushed st; timers := timers st; requests := requests st |}.

Definition set_sessionStorage (item : option jsstring) (st : state) : state :=
  {| user := user st; isLoading := isLoading st;
     isAuthenticated := isAuthenticated st; accessToken := accessToken st;
     window_defined := window_defined st; sessionStorage := item;
     pushed := pushed st; timers := timers st; requests := requests st |}.

(** [router.push(route)] *)
Definition router_push (route : jsstring) (st : state) : state :=
  {| user := user st; isLoading := isLoading st;
     isAuthenticated := isAuthenticated st; accessToken := accessToken st;
     window_defined := window_defined st; sessionStorage := sessionStorage st;
     pushed := pushed st ++ [route]; timers := timers st;
     requests := requests st |}.

(** [setTimeout(() => router.push(route), delay)] *)
Definition setTimeout_push (route : jsstring) (delay : N) (st : state) : state :=
  {| user := user st; isLoading := isLoading st;
     isAuthenticated := isAuthenticated st; accessToken := accessToken st;
     window_defined := window_defined st; sessionStorage := sessionStorage st;
     pushed := pushed st; timers := timers st ++ [(delay, route)];
     requests := requests st |}.

Definition log_request (r : Request) (st : state) : state :=
  {| user := user st; isLoading := isLoading st;
     isAuthenticated := isAuthenticated st; accessToken := accessToken st;
     window_defined := window_defined st; sessionStorage := sessionStorage st;
     pushed := pushed st; timers := timers st;
     requests := requests st ++ [r] |}.

(** The provider as first rendered, in a browser tab with nothing stored. *)
Definition initial : state :=
  {| user := Null; isLoading := true; isAuthenticated := false;
     accessToken := Null; window_defined := true; sessionStorage := None;
     pushed := []; timers := []; requests := [] |}.

Section Provider.

(** [String(v)] for a value that is not a string. *)
Variable String_of : value -> jsstring.

(** [process.env.NEXT_PUBLIC_API_URL] *)
Variable NEXT_PUBLIC_API_URL : option jsstring.

(** The network: how [fetch] ends for the last of the requests sent so
    far. *)
Variable network : list Request -> completion Response.

Definition apiUrl : jsstring :=
  match NEXT_PUBLIC_API_URL with
  | Some (c :: u) => c :: u
  | _ => lit "http://localhost:5000"
  end.

Definition fetch (r : Request) (st : state) : completion Response * state :=
  let st' := log_request r st in
  (network (requests st'), st').

Definition storeToken (token : value) (st : state) : state :=
  let st := set_accessToken token st in
  if window_defined st
  then set_sessionStorage (Some (Api.ToString String_of token)) st
  else st.

Definition getStoredToken (st : state) : value :=
  if window_defined st then
    match sessionStorage st with
    | Some t => Str t
    | None => Null
    end
  else Null.

Definition removeToken (st : state) : state :=
  let st := set_accessToken Null st in
  if window_defined st then set_sessionStorage None st else st.

Definition bearer (token : value) : jsstring :=
  lit "Bearer " ++ Api.ToString String_of token.

Definition logout (st : state) : state :=
  let token := or_else (accessToken st) (getStoredToken st) in
  let st :=
    if truthy token then
      (* the response is not looked at, and a failure is only logged *)
      snd (fetch {| url := apiUrl ++ lit "/api/auth/logout";
                    init := {| method := Some (lit "POST");
                               headers := [(lit "Authorization", bearer token)];
                               payload := NoBody |} |} st)
    else st in
  router_push (lit "/login")
    (set_isAuthenticated false (set_user Null (removeToken st))).

(** [new Response(JSON.stringify({ error: 'Session expired' }), { status: 401 })] *)
Definition session_expired : Response :=
  {| status := 401;
     body := Some (Fragment (bytes (text "{'error':'Session expired'}"))
                            EndOfStream) |}.

Definition is_FormData (b : BodyInit) : bool :=
  match b with
  | FormData => true
  | _ => false
  end.

(** The request [apiRequest] sends. *)
Definition api_request (url : jsstring) (options : RequestInit) (st : state)
  : Request :=
  let headers0 :=
    fold_left (fun h kv => set_prop (fst kv) (snd kv) h) (headers options)
              [(lit "Content-Type", lit "application/json")] in
  let token := or_else (accessToken st) (getStoredToken st) in
  let headers1 :=
    if truthy token
    then set_prop (lit "Authorization") (bearer token) headers0
    else headers0 in
  let headers2 :=
    if is_FormData (payload options)
    then delete_prop (lit "Content-Type") headers1
    else headers1 in
  {| url := apiUrl ++ url;
     init := {| method := method options;
                headers := headers2;
                payload := payload options |} |}.

Definition apiRequest (url : jsstring) (options : RequestInit) (st : state)
  : completion Response * state :=
  match fetch (api_request url options st) st with
  | (Throws e, st1) => (Throws e, st1)
  | (Returns response, st1) =>
      if (status response =? 401)%N
         && negb (includes url (lit "/logout"))
         && negb (includes url (lit "/login"))
      then (Returns session_expired, logout st1)
      else (Returns response, st1)
  end.

(** The request [login] sends. *)
Definition login_request (email password : jsstring) : Request :=
  {| url := apiUrl ++ lit "/api/auth/login";
     init := {| method := Some (lit "POST");
                headers := [(lit "Content-Type", lit "application/json")];
                payload := JsonOf (Obj [(lit "email", Str email);
                                        (lit "password", Str password)]) |} |}.

(** A successful response that carries an access token: [response.ok], and
    a body that is JSON with a truthy [access_token]. *)
Definition carries_token (outcome : completion Response) : bool :=
  match outcome with
  | Returns response =>
      ok response &&
      match json response with
      | Returns data =>
          match get data (lit "access_token") with
          | Some token => truthy token
          | None => false
          end
      | Throws _ => false
      end
  | Throws _ => false
  end.

(** The token such a response carries. *)
Definition token_of (outcome : completion Response) : value :=
  match outcome with
  | Returns response =>
      match json response with
      | Returns data => Api.field data "access_token"
      | Throws _ => Undefined
      end
  | Throws _ => Undefined
  end.

(** What [login] resolves to. *)
Record LoginResult := {
  success : bool;
  error : option value;
  result_user : option value
}.

Definition network_error : LoginResult :=
  {| success := false;
     error := Some (Str (lit "Network error occurred"));
     result_user := None |}.

(** The [try] block of [login]; [None] stands for an exception, which the
    [catch] turns into [network_error]. *)
Definition login_try (email password : jsstring) (st : state)
  : option LoginResult * state :=
  match fetch (login_request email password) st with
  | (Throws _, st1) => (None, st1)
  | (Returns response, st1) =>
      match json response with
      | Throws _ => (None, st1)
      | Returns data =>
          let failed :=
            match get data (lit "error") with
            | None => (None, st1)
            | Some e =>
                (Some {| success := false;
                         error := Some (or_else e (Str (lit "Login failed")));
                         result_user := None |}, st1)
            end in
          if ok response then
            match get data (lit "access_token") with
            | None => (None, st1)
            | Some access_token =>
                if truthy access_token then
                  let st2 := storeToken access_token st1 in
                  let st3 := set_user (Api.field data "user") st2 in
                  let st4 := set_isAuthenticated true st3 in
                  let st5 := setTimeout_push (lit "/") 100 st4 in
                  (Some {| success := true; error := None;
                           result_user := Some (Api.field data "user") |}, st5)
                else failed
            end
          else failed
      end
  end.

Definition login (email password : jsstring) (st : state)
  : LoginResult * state :=
  let '(r, st') := login_try email password (set_isLoading true st) in
  (match r with
   | Some res => res
   | None => network_error
   end,
   set_isLoading false st').

End Provider.

(** A tab that holds a token, and a backend that answers 401 to
    everything. *)
Definition signed_in : state :=
  {| user := Obj [(lit "id", Str (lit "u1"))]; isLoading := false;
     isAuthenticated := true; accessToken := Str (lit "t0k");
     window_defined := true; sessionStorage := Some (lit "t0k");
     pushed := []; timers := []; requests := [] |}.

Definition always_401 : list Request -> completion Response :=
  fun _ => Returns {| status := 401; body := None |}.

(** A backend that grants a token, and one that refuses the credentials. *)
Definition granting : list Request -> completion Response :=
  fun _ => Returns
    {| status := 200;
       body := Some (Fragment
                 (bytes (text "{'access_token':'abc','user':{'id':'u1'}}"))
                 EndOfStream) |}.

Definition refusing : list Request -> completion Response :=
  fun _ => Returns
    {| status := 401;
       body := Some (Fragment (bytes (text "{'error':'Invalid credentials'}"))
                              EndOfStream) |}.

(** *** [verifyToken], [register] and the restoring of a session *)

Section Session.

Variable String_of : value -> jsstring.
Variable NEXT_PUBLIC_API_URL : option jsstring.
Variable network : list Request -> completion Response.

(** The request [verifyToken] sends. *)
Definition verify_request (token : jsstring) : Request :=
  {| url := apiUrl NEXT_PUBLIC_API_URL ++ lit "/api/auth/verify-token";
     init := {| method := None;
                headers := [(lit "Authorization", bearer String_of (Str token));
                            (lit "Content-Type", lit "application/json")];
                payload := NoBody |} |}.

Definition verifyToken (token : jsstring) (st : state) : bool * state :=
  let '(outcome, st1) := fetch network (verify_request token) st in
  (* "Token is invalid": what follows the [try] when it did not return *)
  let invalid :=
    (false, set_isAuthenticated false (set_user Null (removeToken st1))) in
  match outcome with
  | Throws _ => invalid
  | Returns response =>
      if ok response then
        match json response with
        | Throws _ => invalid
        | Returns data =>
            match get data (lit "valid") with
            | None => invalid
            | Some valid =>
                if truthy valid && truthy (Api.field data "user") then
                  (true,
                   storeToken String_of (Str token)
                     (set_isAuthenticated true
                        (set_user (Api.field data "user") st1)))
                else invalid
            end
        end
      else invalid
  end.

(** The fields of the sign-up form. *)
Record Registration := {
  reg_email : jsstring;
  reg_name : jsstring;
  reg_password : jsstring;
  reg_super_key : jsstring
}.

(** The request [register] sends. *)
Definition register_request (data : Registration) : Request :=
  {| url := apiUrl NEXT_PUBLIC_API_URL ++ lit "/api/auth/register";
     init := {| method := Some (lit "POST");
                headers := [(lit "Content-Type", lit "application/json")];
                payload :=
                  JsonOf (Obj [(lit "email", Str (reg_email data));
                               (lit "name", Str (reg_name data));
                               (lit "password", Str (reg_password data));
                               (lit "super_key", Str (reg_super_key data))]) |} |}.

(** The [try] block of [register]; [None] stands for an exception. *)
Definition register_try (data : Registration) (st : state)
  : option LoginResult * state :=
  match fetch network (register_request data) st with
  | (Throws _, st1) => (None, st1)
  | (Returns response, st1) =>
      match json response with
      | Throws _ => (None, st1)
      | Returns result =>
          let failed :=
            match get result (lit "error") with
            | None => (None, st1)
            | Some e =>
                (Some {| success := false;
                         error := Some (or_else e
                                          (Str (lit "Registration failed")));
                         result_user := None |}, st1)
            end in
          if ok response then
            match get result (lit "access_token") with
            | None => (None, st1)
            | Some access_token =>
                if truthy access_token then
                  let st2 := storeToken String_of access_token st1 in
                  let st3 := set_user (Api.field result "user") st2 in
                  let st4 := set_isAuthenticated true st3 in
                  (Some {| success := true; error := None;
                           result_user := Some (Api.field result "user") |},
                   st4)
                else failed
            end
          else failed
      end
  end.

Definition register (data : Registration) (st : state)
  : LoginResult * state :=
  let '(r, st') := register_try data (set_isLoading true st) in
  (match r with
   | Some res => res
   | None => network_error
   end,
   set_isLoading false st').

(** [initAuth], the effect run once when the provider mounts. *)
Definition initAuth (st : state) : state :=
  let st1 := set_isLoading true st in
  let st2 :=
    match getStoredToken st1 with
    | Str (c :: t) => snd (verifyToken (c :: t) st1)
    | _ => st1
    end in
  set_isLoading false st2.

End Session.

(** A backend that finds every token valid, and a tab reloaded with a
    token in its storage. *)
Definition validating : list Request -> completion Response :=
  fun _ => Returns
    {| status := 200;
       body := Some (Fragment
                 (bytes (text "{'valid':true,'user':{'id':'u1'}}"))
                 EndOfStream) |}.

Definition reloaded : state :=
  {| user := Null; isLoading := true; isAuthenticated := false;
     accessToken := Null; window_defined := true;
     sessionStorage := Some (lit "t0k");
     pushed := []; timers := []; requests := [] |}.


(** [headers[k]] *)
Fixpoint header (k : jsstring) (hs : list (jsstring * jsstring))
  : option jsstring :=
  match hs with
  | [] => None
  | (k', v) :: r => if str_eqb k k' then Some v else header k r
  end.

(** A reload of the page: the provider's React state starts afresh, the
    tab's storage and what was sent stay. *)
Definition reload (st : state) : state :=
  {| user := Null; isLoading := true; isAuthenticated := false;
     accessToken := Null; window_defined := window_defined st;
     sessionStorage := sessionStorage st;
     pushed := []; timers := []; requests := requests st |}.


(** The options of an upload whose caller names a content type, in small
    letters. *)
Definition upload_options : RequestInit :=
  {| method := Some (lit "POST");
     headers := [(lit "content-type", lit "text/plain")];
     payload := FormData |}.

End Auth.

(** ** [store/useAppStore.ts] *)

Module Store.
Import JS.

Inductive CaseStatus := active | archived | completed.

Record Case := {
  id : jsstring;
  user_id : jsstring;
  title : jsstring;
  description : option jsstring;
  status : CaseStatus;
  qdrant_collection_name : option jsstring;
  created_at : jsstring;
  updated_at : jsstring
}.

Record ChatThread := {
  thread_id : jsstring;
  thread_case_id : jsstring;
  thread_user_id : jsstring;
  thread_title : jsstring;
  thread_created_at : jsstring;
  thread_updated_at : jsstring
}.

Inductive Role := role_user | role_assistant.

Record ChatMessage := {
  message_id : jsstring;
  message_thread_id : jsstring;
  role : Role;
  message_content : jsstring;
  message_citations : option (list Api.Citation);
  message_created_at : jsstring
}.

Inductive Theme := light | dark | system.

(** The data of the store; its actions are the functions below. *)
Record AppStore := {
  sidebarOpen : bool;
  currentCase : option Case;
  currentThread : option ChatThread;
  isLoading : bool;
  error : option jsstring;
  cases : list Case;
  chatMessages : list ChatMessage;
  selectedCitation : option Api.Citation;
  isTyping : bool;
  streamingContent : jsstring;
  createCaseModalOpen : bool;
  citationModalOpen : bool;
  theme : Theme
}.

Definition initial : AppStore :=
  {| sidebarOpen := true; currentCase := None; currentThread := None;
     isLoading := false; error := None; cases := []; chatMessages := [];
     selectedCitation := None; isTyping := false; streamingContent := [];
     createCaseModalOpen := false; citationModalOpen := false;
     theme := system |}.

Definition setCurrentCase (caseItem : option Case) (state : AppStore) : AppStore :=
  {| sidebarOpen := sidebarOpen state;
     currentCase := caseItem;
     currentThread := None;
     isLoading := isLoading state;
     error := error state;
     cases := cases state;
     chatMessages := [];
     selectedCitation := None;
     isTyping := isTyping state;
     streamingContent := [];
     createCaseModalOpen := createCaseModalOpen state;
     citationModalOpen := citationModalOpen state;
     theme := theme state |}.

Definition setCurrentThread (thread : option ChatThread) (state : AppStore)
  : AppStore :=
  {| sidebarOpen := sidebarOpen state;
     currentCase := currentCase state;
     currentThread := thread;
     isLoading := isLoading state;
     error := error state;
     cases := cases state;
     chatMessages := [];
     selectedCitation := None;
     isTyping := isTyping state;
     streamingContent := [];
     createCaseModalOpen := createCaseModalOpen state;
     citationModalOpen := citationModalOpen state;
     theme := theme state |}.

Definition setCases (cs : list Case) (state : AppStore) : AppStore :=
  {| sidebarOpen := sidebarOpen state;
     currentCase := currentCase state;
     currentThread := currentThread state;
     isLoading := isLoading state;
     error := error state;
     cases := cs;
     chatMessages := chatMessages state;
     selectedCitation := selectedCitation state;
     isTyping := isTyping state;
     streamingContent := streamingContent state;
     createCaseModalOpen := createCaseModalOpen state;
     citationModalOpen := citationModalOpen state;
     theme := theme state |}.

Definition addCase (caseItem : Case) (state : AppStore) : AppStore :=
  setCases (caseItem :: cases state) state.

(** [state.currentCase?.id === caseId] *)
Definition is_current (caseId : jsstring) (state : AppStore) : bool :=
  match currentCase state with
  | Some c => str_eqb (id c) caseId
  | None => false
  end.

Definition removeCase (caseId : jsstring) (state : AppStore) : AppStore :=
  {| sidebarOpen := sidebarOpen state;
     currentCase := if is_current caseId state then None else currentCase state;
     currentThread :=
       if is_current caseId state then None else currentThread state;
     isLoading := isLoading state;
     error := error state;
     cases := filter (fun c => negb (str_eqb (id c) caseId)) (cases state);
     chatMessages := if is_current caseId state then [] else chatMessages state;
     selectedCitation := selectedCitation state;
     isTyping := isTyping state;
     streamingContent := streamingContent state;
     createCaseModalOpen := createCaseModalOpen state;
     citationModalOpen := citationModalOpen state;
     theme := theme state |}.

Definition setChatMessages (messages : list ChatMessage) (state : AppStore)
  : AppStore :=
  {| sidebarOpen := sidebarOpen state;
     currentCase := currentCase state;
     currentThread := currentThread state;
     isLoading := isLoading state;
     error := error state;
     cases := cases state;
     chatMessages := messages;
     selectedCitation := selectedCitation state;
     isTyping := isTyping state;
     streamingContent := streamingContent state;
     createCaseModalOpen := createCaseModalOpen state;
     citationModalOpen := citationModalOpen state;
     theme := theme state |}.

Definition addChatMessage (message : ChatMessage) (state : AppStore) : AppStore :=
  setChatMessages (chatMessages state ++ [message]) state.

Definition setSelectedCitation (citation : option Api.Citation)
    (state : AppStore) : AppStore :=
  {| sidebarOpen := sidebarOpen state;
     currentCase := currentCase state;
     currentThread := currentThread state;
     isLoading := isLoading state;
     error := error state;
     cases := cases state;
     chatMessages := chatMessages state;
     selectedCitation := citation;
     isTyping := isTyping state;
     streamingContent := streamingContent state;
     createCaseModalOpen := createCaseModalOpen state;
     citationModalOpen := citationModalOpen state;
     theme := theme state |}.

Definition setStreamingContent (content : jsstring) (state : AppStore)
  : AppStore :=
  {| sidebarOpen := sidebarOpen state;
     currentCase := currentCase state;
     currentThread := currentThread state;
     isLoading := isLoading state;
     error := error state;
     cases := cases state;
     chatMessages := chatMessages state;
     selectedCitation := selectedCitation state;
     isTyping := isTyping state;
     streamingContent := content;
     createCaseModalOpen := createCaseModalOpen state;
     citationModalOpen := citationModalOpen state;
     theme := theme state |}.

Definition appendStreamingContent (content : jsstring) (state : AppStore)
  : AppStore :=
  setStreamingContent (streamingContent state ++ content) state.

(** A store with two cases, the first of them current, a thread and one
    message. *)
Definition sample_case (k : jsstring) : Case :=
  {| id := k; user_id := lit "u1"; title := lit "Case"; description := None;
     status := active; qdrant_collection_name := None;
     created_at := lit "2024-01-01"; updated_at := lit "2024-01-01" |}.

Definition sample_store : AppStore :=
  {| sidebarOpen := true;
     currentCase := Some (sample_case (lit "a"));
     currentThread :=
       Some {| thread_id := lit "t1"; thread_case_id := lit "a";
               thread_user_id := lit "u1"; thread_title := lit "Thread";
               thread_created_at := lit "2024-01-01";
               thread_updated_at := lit "2024-01-01" |};
     isLoading := false; error := None;
     cases := [sample_case (lit "a"); sample_case (lit "b")];
     chatMessages :=
       [{| message_id := lit "m1"; message_thread_id := lit "t1";
           role := role_user; message_content := lit "hello";
           message_citations := None;
           message_created_at := lit "2024-01-01" |}];
     selectedCitation := Some Api.sample_citation;
     isTyping := false; streamingContent := lit "partial";
     createCaseModalOpen := false; citationModalOpen := false;
     theme := system |}.

(** *** [updateCase] *)

(** A [Partial<Case>]: the fields to overwrite.  An optional field of
    [Case] can be overwritten with [undefined]; for the others only an
    update that gives a value is modelled. *)
Record CaseUpdates := {
  new_id : option jsstring;
  new_user_id : option jsstring;
  new_title : option jsstring;
  new_description : option (option jsstring);
  new_status : option CaseStatus;
  new_qdrant_collection_name : option (option jsstring);
  new_created_at : option jsstring;
  new_updated_at : option jsstring
}.

Definition no_updates : CaseUpdates :=
  {| new_id := None; new_user_id := None; new_title := None;
     new_description := None; new_status := None;
     new_qdrant_collection_name := None; new_created_at := None;
     new_updated_at := None |}.

Definition overwrite (A : Type) (old : A) (new : option A) : A :=
  match new with
  | Some x => x
  | None => old
  end.

(** [{ ...c, ...updates }] *)
Definition spread (c : Case) (updates : CaseUpdates) : Case :=
  {| id := overwrite (id c) (new_id updates);
     user_id := overwrite (user_id c) (new_user_id updates);
     title := overwrite (title c) (new_title updates);
     description := overwrite (description c) (new_description updates);
     status := overwrite (status c) (new_status updates);
     qdrant_collection_name :=
       overwrite (qdrant_collection_name c) (new_qdrant_collection_name updates);
     created_at := overwrite (created_at c) (new_created_at updates);
     updated_at := overwrite (updated_at c) (new_updated_at updates) |}.

Definition updateCase (caseId : jsstring) (updates : CaseUpdates)
    (state : AppStore) : AppStore :=
  {| sidebarOpen := sidebarOpen state;
     currentCase :=
       if is_current caseId state
       then match currentCase state with
            | Some c => Some (spread c updates)
            | None => None
            end
       else currentCase state;
     currentThread := currentThread state;
     isLoading := isLoading state;
     error := error state;
     cases := map (fun c => if str_eqb (id c) caseId then spread c updates else c)
                  (cases state);
     chatMessages := chatMessages state;
     selectedCitation := selectedCitation state;
     isTyping := isTyping state;
     streamingContent := streamingContent state;
     createCaseModalOpen := createCaseModalOpen state;
     citationModalOpen := citationModalOpen state;
     theme := theme state |}.

Definition clearChatMessages (state : AppStore) : AppStore :=
  setChatMessages [] state.

Definition clearStreamingContent (state : AppStore) : AppStore :=
  setStreamingContent [] state.

Definition setIsTyping (typing : bool) (state : AppStore) : AppStore :=
  {| sidebarOpen := sidebarOpen state;
     currentCase := currentCase state;
     currentThread := currentThread state;
     isLoading := isLoading state;
     error := error state;
     cases := cases state;
     chatMessages := chatMessages state;
     selectedCitation := selectedCitation state;
     isTyping := typing;
     streamingContent := streamingContent state;
     createCaseModalOpen := createCaseModalOpen state;
     citationModalOpen := citationModalOpen state;
     theme := theme state |}.

(** The current case, when there is one, is one of the cases listed. *)
Definition current_listed (state : AppStore) : Prop :=
  match currentCase state with
  | Some c => In c (cases state)
  | None => True
  end.


End Store.

(** ** [lib/config.ts] and [components/FileUpload.tsx] *)

Module Upload.
Import JS.
Local Open Scope string_scope.
Local Open Scope list_scope.

(** The configuration read from the environment.  The two limits are taken
    to be non-negative integers, as the defaults (40 and 32) and the values
    the README documents are; on these the arithmetic of the source is
    exact. *)
Record Config := {
  maxFilesPerUpload : N;
  maxFileSizeMB : N
}.

Definition default_config : Config :=
  {| maxFilesPerUpload := 40; maxFileSizeMB := 32 |}.

(** What the component reads of a [File]. *)
Record File := {
  name : jsstring;
  size : N
}.

(** [arr.includes(s)] on an array of strings. *)
Definition array_includes (arr : list jsstring) (s : jsstring) : bool :=
  existsb (str_eqb s) arr.

(** ASCII letters to lower case; [toLowerCase] does this on ASCII text. *)
Definition ascii_toLowerCase (s : jsstring) : jsstring :=
  map (fun c => if (65 <=? c)%N && (c <=? 90)%N then (c + 32)%N else c) s.

(** [formatBytes] of [lib/config.ts] for the default limit: [2^25] bytes
    are [32 MB]. *)
Definition formatBytes_default (bytes : N) : jsstring :=
  if (bytes =? 33554432)%N then lit "32 MB" else lit "".

Section FileUpload.

Variable config : Config.

(** [formatBytes] of [lib/config.ts] works on floating-point logarithms and
    [toFixed]; its result is taken as given. *)
Variable formatBytes : N -> jsstring.

(** [String.prototype.toLowerCase], which follows the Unicode case
    mappings. *)
Variable toLowerCase : jsstring -> jsstring.

(** The [accept] property, ['.pdf,.doc,.docx,.txt'] unless the parent
    gives another. *)
Variable accept : jsstring.

Definition maxFiles : N := maxFilesPerUpload config.
Definition maxSize : N := maxFileSizeMB config * 1024 * 1024.

Definition too_large (file_name : jsstring) : jsstring :=
  text "File '" ++ file_name ++ text "' is too large. Maximum size is "
  ++ show_N (maxFileSizeMB config) ++ lit "MB (" ++ formatBytes maxSize
  ++ lit ").Its been removed from the list automatically".

Definition unsupported (file_name : jsstring) : jsstring :=
  text "File '" ++ file_name
  ++ text "' has an unsupported format. Accepted formats: " ++ accept.

(** ['.' + file.name.split('.').pop()?.toLowerCase()] *)
Definition extension (file_name : jsstring) : jsstring :=
  lit "." ++ toLowerCase (last (split 46 file_name) []).

Definition acceptedTypes : list jsstring :=
  map (fun type => toLowerCase (trim type)) (split 44 accept).

(** [None] is the [null] of a file that passes. *)
Definition validateFile (file : File) : option jsstring :=
  if (maxSize <? size file)%N then Some (too_large (name file))
  else if negb (array_includes acceptedTypes (extension (name file)))
  then Some (unsupported (name file))
  else None.

(** A file the dropzone turned down, with the errors it gives. *)
Record FileError := {
  code : jsstring;
  message : jsstring
}.

Record Rejection := {
  file : File;
  errors : list FileError
}.

Definition rejection_message (f : File) (e : FileError) : jsstring :=
  if str_eqb (code e) (lit "file-too-large") then too_large (name f)
  else if str_eqb (code e) (lit "file-invalid-type") then unsupported (name f)
  else text "File '" ++ name f ++ text "': " ++ message e.

(** The component's state. *)
Record state := {
  selectedFiles : list File;
  shown_errors : list jsstring
}.

(** [onDrop] is the callback of one render.  [rendered] is the
    [selectedFiles] that render saw and the callback has closed over: the
    limit is checked against its length.  The valid files are added by an
    update of the state as it is when the update runs, [st]. *)
Definition onDrop (acceptedFiles : list File) (rejectedFiles : list Rejection)
    (rendered : list File) (st : state) : state :=
  let newErrors :=
    flat_map (fun f => match validateFile f with
                       | Some e => [e]
                       | None => []
                       end) acceptedFiles
    ++ flat_map (fun r => map (rejection_message (file r)) (errors r))
                rejectedFiles in
  let validFiles :=
    filter (fun f => match validateFile f with
                     | Some _ => false
                     | None => true
                     end) acceptedFiles in
  let totalFiles := N.of_nat (List.length rendered + List.length validFiles) in
  if (maxFiles <? totalFiles)%N then
    (* the message pushed here is dropped by the [return] *)
    {| selectedFiles := selectedFiles st; shown_errors := [] |}
  else
    {| selectedFiles := selectedFiles st ++ validFiles;
       shown_errors := newErrors |}.

(** [handleUpload], of the render that saw [rendered] as the
    [selectedFiles]: the files handed to [onUpload], if any, and the state
    after it. *)
Definition handleUpload (rendered : list File) (st : state)
  : option (list File) * state :=
  match rendered with
  | [] => (None, st)
  | _ :: _ => (Some rendered, {| selectedFiles := []; shown_errors := [] |})
  end.

(** [arr.filter((_, i) => p(i))]: the elements at the indices [p] keeps,
    the first of [l] being at index [i]. *)
Fixpoint filter_index (A : Type) (p : nat -> bool) (i : nat) (l : list A)
  : list A :=
  match l with
  | [] => []
  | x :: r =>
      if p i then x :: filter_index p (S i) r else filter_index p (S i) r
  end.

Definition removeFile (index : nat) (st : state) : state :=
  {| selectedFiles :=
       filter_index (fun i => negb (Nat.eqb i index)) 0 (selectedFiles st);
     shown_errors := shown_errors st |}.

Definition clearAll (st : state) : state :=
  {| selectedFiles := []; shown_errors := [] |}.

(** The message [onDrop] pushes on [newErrors] when the files would be too
    many, just before it returns. *)
Definition too_many (rendered : list File) : jsstring :=
  lit "Cannot select more than " ++ show_N maxFiles
  ++ lit " files at once. You currently have "
  ++ show_N (N.of_nat (List.length rendered))
  ++ lit " files selected.".

(** The component between two renders: [rendered] is the state the last
    render saw, which the callbacks of that render have closed over, and
    [latest] is the state as the updates made since have left it. *)
Record component := {
  rendered : state;
  latest : state
}.

(** What happens to the component: the user drops files on it (the
    dropzone sorts them into accepted and rejected ones), removes one file
    of the list, clears the list or uploads; React renders it again. *)
Inductive event :=
| drop (acceptedFiles : list File) (rejectedFiles : list Rejection)
| remove (index : nat)
| clear
| upload
| render.

Definition handle (c : component) (e : event) : component :=
  match e with
  | drop acceptedFiles rejectedFiles =>
      {| rendered := rendered c;
         latest := onDrop acceptedFiles rejectedFiles
                          (selectedFiles (rendered c)) (latest c) |}
  | remove index =>
      {| rendered := rendered c; latest := removeFile index (latest c) |}
  | clear => {| rendered := rendered c; latest := clearAll (latest c) |}
  | upload =>
      {| rendered := rendered c;
         latest := snd (handleUpload (selectedFiles (rendered c)) (latest c)) |}
  | render => {| rendered := latest c; latest := latest c |}
  end.

(** [useState([])], twice, and the first render. *)
Definition mounted : component :=
  {| rendered := {| selectedFiles := []; shown_errors := [] |};
     latest := {| selectedFiles := []; shown_errors := [] |} |}.

Definition after (events : list event) : component :=
  fold_left handle events mounted.

(** What a click on the upload button hands to [onUpload]. *)
Definition handed_on (c : component) : option (list File) :=
  fst (handleUpload (selectedFiles (rendered c)) (latest c)).

(** Files that all pass [validateFile], and files that are no more than
    [maxFiles]. *)
Definition all_valid (l : list File) : Prop :=
  forall f, In f l -> validateFile f = None.

Definition within (l : list File) : Prop :=
  (N.of_nat (List.length l) <= maxFiles)%N.

(** Every drop is handled by the callback of an up-to-date render: a
    render comes right before it ([fresh] tells whether one has just
    come). *)
Fixpoint renders_before_drops (fresh : bool) (events : list event) : bool :=
  match events with
  | [] => true
  | render :: rest => renders_before_drops true rest
  | drop _ _ :: rest => fresh && renders_before_drops false rest
  | _ :: rest => renders_before_drops false rest
  end.

End FileUpload.

(** The component with the default configuration and [accept] property, on
    ASCII file names. *)
Definition validateFile_default : File -> option jsstring :=
  validateFile default_config formatBytes_default ascii_toLowerCase
               (lit ".pdf,.doc,.docx,.txt").

(** A component that takes two files at most, with a brief selected. *)
Definition two_files : Config :=
  {| maxFilesPerUpload := 2; maxFileSizeMB := 32 |}.

Definition brief : File := {| name := lit "brief.pdf"; size := 1024 |}.
Definition notes : File := {| name := lit "notes.TXT"; size := 2048 |}.
Definition picture : File := {| name := lit "scan.png"; size := 4096 |}.

Definition rejected_picture : Rejection :=
  {| file := picture;
     errors := [{| code := lit "file-invalid-type";
                   message := lit "File type must be one of the accepted" |}] |}.

Definition one_selected : state :=
  {| selectedFiles := [brief]; shown_errors := [] |}.


End Upload.

(** * Properties *)

Unset Implicit Arguments.

(** ** Strings *)

Module JSFacts.
Import JS.
Local Open Scope list_scope.

Lemma str_eqb_eq (a b : jsstring) : str_eqb a b = true <-> a = b.
Proof.
  revert b; induction a as [|x a IH]; intros [|y b]; simpl;
    try (split; [discriminate | congruence]); try tauto.
  rewrite andb_true_iff, N.eqb_eq, IH.
  split; [intros [-> ->]; reflexivity | intros [= -> ->]; auto].
Qed.

Lemma str_eqb_refl (a : jsstring) : str_eqb a a = true.
Proof. apply str_eqb_eq; reflexivity. Qed.

Lemma str_eqb_neq (a b : jsstring) : str_eqb a b = false <-> a <> b.
Proof.
  rewrite <- str_eqb_eq. destruct (str_eqb a b); split; congruence.
Qed.

Lemma startsWith_app (p s : jsstring) : startsWith (p ++ s) p = true.
Proof.
  induction p as [|x p IH]; simpl; [destruct s; reflexivity|].
  rewrite N.eqb_refl; exact IH.
Qed.

Lemma slice_app (p s : jsstring) : slice (List.length p) (p ++ s) = s.
Proof. unfold slice. induction p; simpl; auto. Qed.

Lemma includes_unfold (l p : jsstring) :
  includes l p =
  startsWith l p || match l with [] => false | _ :: l' => includes l' p end.
Proof. destruct l; reflexivity. Qed.

Lemma includes_app (a s b : jsstring) : includes (a ++ s ++ b) s = true.
Proof.
  induction a as [|x a IH]; simpl app.
  - rewrite includes_unfold, startsWith_app; reflexivity.
  - rewrite includes_unfold, IH; apply orb_true_r.
Qed.


Lemma split_none (sep : N) (a : jsstring) :
  ~ In sep a -> split sep a = [a].
Proof.
  induction a as [|x a IH]; simpl; intros H; [reflexivity|].
  destruct (N.eqb_spec x sep) as [->|_]; [tauto|].
  rewrite IH by tauto; reflexivity.
Qed.

(** *** The parser always has fuel enough *)

Local Open Scope nat_scope.

Lemma skip_space_length (s : jsstring) :
  List.length (skip_space s) <= List.length s.
Proof.
  induction s as [|c s IH]; simpl; [lia|].
  destruct (is_json_space c); simpl; lia.
Qed.

Lemma skip_space_cons (s r : jsstring) (c : N) :
  skip_space s = c :: r -> List.length r < List.length s.
Proof.
  intros H. pose proof (skip_space_length s) as L. rewrite H in L.
  simpl in L. lia.
Qed.

Lemma parse_chars_length (n : nat) :
  forall s acc k r,
    List.length s <= n ->
    parse_chars s acc = Parsed k r -> List.length r < List.length s.
Proof.
  induction n as [|n IH]; intros s acc k r Hn H.
  - destruct s; [discriminate | simpl in Hn; lia].
  - destruct s as [|c s]; [discriminate|]. simpl in Hn. simpl in H.
    destruct (c =? 34)%N.
    { injection H as _ <-. simpl. lia. }
    destruct (c =? 92)%N.
    + destruct s as [|e s]; [discriminate|]. simpl in Hn.
      destruct (e =? 117)%N.
      * destruct s as [|h1 [|h2 [|h3 [|h4 s]]]]; try discriminate.
        destruct (hex4 h1 h2 h3 h4); [|discriminate].
        simpl in Hn. apply IH in H; simpl; lia.
      * destruct (unescape e); [|discriminate].
        apply IH in H; simpl; lia.
    + destruct (c <? 32)%N; [discriminate|].
      apply IH in H; simpl; lia.
Qed.

Lemma parse_chars_fuel (s acc : jsstring) : parse_chars s acc <> OutOfFuel.
Proof.
  remember (List.length s) as n eqn:Hn.
  assert (Hle : List.length s <= n) by lia. clear Hn.
  revert s acc Hle. induction n as [|n IH]; intros s acc Hle.
  - destruct s; [discriminate | simpl in Hle; lia].
  - destruct s as [|c s]; [discriminate|]. simpl in Hle. simpl.
    destruct (c =? 34)%N; [discriminate|].
    destruct (c =? 92)%N.
    + destruct s as [|e s]; [discriminate|]. simpl in Hle.
      destruct (e =? 117)%N.
      * destruct s as [|h1 [|h2 [|h3 [|h4 s]]]]; try discriminate.
        destruct (hex4 h1 h2 h3 h4); [|discriminate].
        simpl in Hle. apply IH; lia.
      * destruct (unescape e); [|discriminate]. apply IH; lia.
    + destruct (c <? 32)%N; [discriminate|]. apply IH; lia.
Qed.

Lemma digits_length (s : jsstring) :
  forall acc count m n r,
    digits s acc count = (m, n, r) -> List.length r <= List.length s.
Proof.
  induction s as [|c s IH]; intros acc count m n r H; simpl in H.
  - injection H as _ _ <-. lia.
  - destruct (is_digit c).
    + apply IH in H. simpl. lia.
    + injection H as _ _ <-. lia.
Qed.

Lemma parse_exponent_length (s r : jsstring) (e : Z) :
  parse_exponent s = Parsed e r -> List.length r <= List.length s.
Proof.
  unfold parse_exponent. intros H.
  destruct s as [|c s]; [injection H as _ <-; lia|].
  destruct ((c =? 101)%N || (c =? 69)%N); [|injection H as _ <-; lia].
  destruct s as [|x s].
  - simpl in H. discriminate.
  - destruct (x =? 43)%N; [|destruct (x =? 45)%N];
      (destruct (digits _ 0%N 0) as [[m n] r2] eqn:D;
       apply digits_length in D;
       destruct n; [discriminate|]; injection H as _ <-; simpl in *; lia).
Qed.

Lemma parse_exponent_fuel (s : jsstring) : parse_exponent s <> OutOfFuel.
Proof.
  unfold parse_exponent.
  destruct s as [|c s]; [discriminate|].
  destruct ((c =? 101)%N || (c =? 69)%N); [|discriminate].
  destruct s as [|x s].
  - simpl. discriminate.
  - destruct (x =? 43)%N; [|destruct (x =? 45)%N];
      (destruct (digits _ 0%N 0) as [[m n] r2];
       destruct n; discriminate).
Qed.

Lemma parse_fraction_length (s r : jsstring) (int : N) (x : N * nat) :
  parse_fraction s int = Parsed x r -> List.length r <= List.length s.
Proof.
  unfold parse_fraction. intros H.
  destruct s as [|c s]; [injection H as _ <-; lia|].
  destruct (c =? 46)%N; [|injection H as _ <-; lia].
  destruct (digits s int 0) as [[m n] r1] eqn:D.
  apply digits_length in D.
  destruct n; [discriminate|]. injection H as _ <-. simpl. lia.
Qed.

Lemma parse_fraction_fuel (s : jsstring) (int : N) :
  parse_fraction s int <> OutOfFuel.
Proof.
  unfold parse_fraction.
  destruct s as [|c s]; [discriminate|].
  destruct (c =? 46)%N; [|discriminate].
  destruct (digits s int 0) as [[m n] r1].
  destruct n; discriminate.
Qed.

Lemma parse_number_length (s r : jsstring) (d : decimal) :
  parse_number s = Parsed d r -> List.length r < List.length s.
Proof.
  unfold parse_number. intros H.
  destruct (match s with
            | [] => (false, s)
            | c :: r0 => if (c =? 45)%N then (true, r0) else (false, s)
            end) as [sg s1] eqn:Hsign.
  assert (L1 : List.length s1 <= List.length s).
  { destruct s as [|c r0]; [injection Hsign as _ <-; lia|].
    destruct (c =? 45)%N; injection Hsign as _ <-; simpl; lia. }
  destruct (match s1 with
            | [] => SyntaxError
            | c :: r0 =>
                if (c =? 48)%N then Parsed 0%N r0
                else if is_digit c
                     then let '(m, _, r1) := digits s1 0%N 0 in Parsed m r1
                     else SyntaxError
            end) as [i s2| |] eqn:Hint; try discriminate.
  assert (L2 : List.length s2 < List.length s1).
  { destruct s1 as [|c r0]; [discriminate|].
    destruct (c =? 48)%N; [injection Hint as _ <-; simpl; lia|].
    destruct (is_digit c) eqn:Hd; [|discriminate].
    simpl in Hint. rewrite Hd in Hint.
    destruct (digits r0 _ 1) as [[m n] r1] eqn:D.
    apply digits_length in D. injection Hint as _ <-. simpl. lia. }
  destruct (parse_fraction s2 i) as [[m n] s3| |] eqn:Hf; try discriminate.
  apply parse_fraction_length in Hf.
  destruct (parse_exponent s3) as [e s4| |] eqn:He; try discriminate.
  apply parse_exponent_length in He.
  injection H as _ <-. lia.
Qed.

Lemma parse_number_fuel (s : jsstring) : parse_number s <> OutOfFuel.
Proof.
  unfold parse_number.
  destruct (match s with
            | [] => (false, s)
            | c :: r0 => if (c =? 45)%N then (true, r0) else (false, s)
            end) as [sg s1].
  destruct (match s1 with
            | [] => SyntaxError
            | c :: r0 =>
                if (c =? 48)%N then Parsed 0%N r0
                else if is_digit c
                     then let '(m, _, r1) := digits s1 0%N 0 in Parsed m r1
                     else SyntaxError
            end) as [i s2| |] eqn:Hint; try discriminate.
  - pose proof (parse_fraction_fuel s2 i) as Hf.
    destruct (parse_fraction s2 i) as [[m n] s3| |]; try discriminate;
      [|congruence].
    pose proof (parse_exponent_fuel s3) as He.
    destruct (parse_exponent s3); try discriminate. congruence.
  - destruct s1 as [|c r0]; [discriminate|].
    destruct (c =? 48)%N; [discriminate|].
    destruct (is_digit c); [|discriminate].
    destruct (digits _ _ _) as [[m n] r1]. discriminate.
Qed.

Lemma parse_keyword_length (kw s r : jsstring) (v w : value) :
  kw <> [] ->
  parse_keyword kw v s = Parsed w r -> List.length r < List.length s.
Proof.
  unfold parse_keyword. intros Hkw H.
  destruct (startsWith s kw) eqn:Hs; [|discriminate].
  injection H as _ <-.
  destruct kw as [|x kw]; [congruence|].
  destruct s as [|y s]; [discriminate|].
  simpl. pose proof (length_skipn (List.length kw) s). lia.
Qed.

Lemma parse_keyword_fuel (kw s : jsstring) (v : value) :
  parse_keyword kw v s <> OutOfFuel.
Proof. unfold parse_keyword. destruct (startsWith s kw); discriminate. Qed.

Lemma parse_length (fuel : nat) :
  (forall s v r, parse_value fuel s = Parsed v r ->
                 List.length r < List.length s)
  /\ (forall s acc v r, parse_elements fuel s acc = Parsed v r ->
                        List.length r < List.length s)
  /\ (forall s acc v r, parse_members fuel s acc = Parsed v r ->
                        List.length r < List.length s).
Proof.
  induction fuel as [|fuel (IHv & IHe & IHm)];
    [repeat split; intros; discriminate|].
  split; [|split].
  - intros s v r H. simpl in H.
    destruct (skip_space s) as [|c s1] eqn:Hs; [discriminate|].
    apply skip_space_cons in Hs.
    destruct (c =? 123)%N.
    { destruct (skip_space s1) as [|c1 s2] eqn:Hs1.
      - apply IHm in H. lia.
      - pose proof (skip_space_cons _ _ _ Hs1).
        destruct (c1 =? 125)%N; [injection H as _ <-; lia|].
        apply IHm in H. lia. }
    destruct (c =? 91)%N.
    { destruct (skip_space s1) as [|c1 s2] eqn:Hs1.
      - apply IHe in H. lia.
      - pose proof (skip_space_cons _ _ _ Hs1).
        destruct (c1 =? 93)%N; [injection H as _ <-; lia|].
        apply IHe in H. lia. }
    destruct (c =? 34)%N.
    { destruct (parse_chars s1 []) as [k r1| |] eqn:Hc; try discriminate.
      apply (parse_chars_length (List.length s1)) in Hc; [|lia].
      injection H as _ <-. lia. }
    destruct (c =? 116)%N.
    { apply parse_keyword_length in H; [simpl in H; lia | discriminate]. }
    destruct (c =? 102)%N.
    { apply parse_keyword_length in H; [simpl in H; lia | discriminate]. }
    destruct (c =? 110)%N.
    { apply parse_keyword_length in H; [simpl in H; lia | discriminate]. }
    destruct (parse_number (c :: s1)) as [d r1| |] eqn:Hn; try discriminate.
    apply parse_number_length in Hn. injection H as _ <-. simpl in Hn. lia.
  - intros s acc v r H. simpl in H.
    destruct (parse_value fuel s) as [v1 r1| |] eqn:Hv; try discriminate.
    apply IHv in Hv.
    destruct (skip_space r1) as [|c r2] eqn:Hs; [discriminate|].
    apply skip_space_cons in Hs.
    destruct (c =? 44)%N; [apply IHe in H; lia|].
    destruct (c =? 93)%N; [|discriminate].
    injection H as _ <-. lia.
  - intros s acc v r H. simpl in H.
    destruct (skip_space s) as [|c s1] eqn:Hs; [discriminate|].
    apply skip_space_cons in Hs.
    destruct (c =? 34)%N; [|discriminate].
    destruct (parse_chars s1 []) as [k r1| |] eqn:Hc; try discriminate.
    apply (parse_chars_length (List.length s1)) in Hc; [|lia].
    destruct (skip_space r1) as [|c1 r2] eqn:Hs1; [discriminate|].
    apply skip_space_cons in Hs1.
    destruct (c1 =? 58)%N; [|discriminate].
    destruct (parse_value fuel r2) as [v1 r3| |] eqn:Hv; try discriminate.
    apply IHv in Hv.
    destruct (skip_space r3) as [|c3 r4] eqn:Hs3; [discriminate|].
    apply skip_space_cons in Hs3.
    destruct (c3 =? 44)%N; [apply IHm in H; lia|].
    destruct (c3 =? 125)%N; [|discriminate].
    injection H as _ <-. lia.
Qed.

Lemma parse_fuel (fuel : nat) :
  (forall s, 2 * List.length s + 1 <= fuel ->
             parse_value fuel s <> OutOfFuel)
  /\ (forall s acc, 2 * List.length s + 2 <= fuel ->
                    parse_elements fuel s acc <> OutOfFuel)
  /\ (forall s acc, 2 * List.length s + 2 <= fuel ->
                    parse_members fuel s acc <> OutOfFuel).
Proof.
  induction fuel as [|fuel (IHv & IHe & IHm)];
    [repeat split; intros; lia|].
  destruct (parse_length fuel) as (Lv & _ & _).
  split; [|split].
  - intros s Hf. simpl.
    destruct (skip_space s) as [|c s1] eqn:Hs; [discriminate|].
    apply skip_space_cons in Hs.
    destruct (c =? 123)%N.
    { destruct (skip_space s1) as [|c1 s2]; [apply IHm; lia|].
      destruct (c1 =? 125)%N; [discriminate | apply IHm; lia]. }
    destruct (c =? 91)%N.
    { destruct (skip_space s1) as [|c1 s2]; [apply IHe; lia|].
      destruct (c1 =? 93)%N; [discriminate | apply IHe; lia]. }
    destruct (c =? 34)%N.
    { pose proof (parse_chars_fuel s1 []).
      destruct (parse_chars s1 []); congruence. }
    destruct (c =? 116)%N; [apply parse_keyword_fuel|].
    destruct (c =? 102)%N; [apply parse_keyword_fuel|].
    destruct (c =? 110)%N; [apply parse_keyword_fuel|].
    pose proof (parse_number_fuel (c :: s1)).
    destruct (parse_number (c :: s1)); congruence.
  - intros s acc Hf. simpl.
    pose proof (IHv s) as Hv.
    destruct (parse_value fuel s) as [v1 r1| |] eqn:E;
      [|discriminate|apply Hv; lia].
    apply Lv in E.
    destruct (skip_space r1) as [|c r2] eqn:Hs; [discriminate|].
    apply skip_space_cons in Hs.
    destruct (c =? 44)%N; [apply IHe; lia|].
    destruct (c =? 93)%N; discriminate.
  - intros s acc Hf. simpl.
    destruct (skip_space s) as [|c s1] eqn:Hs; [discriminate|].
    apply skip_space_cons in Hs.
    destruct (c =? 34)%N; [|discriminate].
    pose proof (parse_chars_fuel s1 []) as Hc.
    destruct (parse_chars s1 []) as [k r1| |] eqn:Ec;
      [|discriminate|congruence].
    apply (parse_chars_length (List.length s1)) in Ec; [|lia].
    destruct (skip_space r1) as [|c1 r2] eqn:Hs1; [discriminate|].
    apply skip_space_cons in Hs1.
    destruct (c1 =? 58)%N; [|discriminate].
    pose proof (IHv r2) as Hv.
    destruct (parse_value fuel r2) as [v1 r3| |] eqn:E;
      [|discriminate|apply Hv; lia].
    apply Lv in E.
    destruct (skip_space r3) as [|c3 r4] eqn:Hs3; [discriminate|].
    apply skip_space_cons in Hs3.
    destruct (c3 =? 44)%N; [apply IHm; lia|].
    destruct (c3 =? 125)%N; discriminate.
Qed.

(** [JSON_parse] gives its parser all the fuel it can use: [None] is a
    syntax error, never a parse cut short. *)
Lemma JSON_parse_fuel (text : jsstring) :
  parse_value (2 * List.length text + 2) text <> OutOfFuel.
Proof. apply (proj1 (parse_fuel _)). lia. Qed.


End JSFacts.

(** ** The streaming chat consumer *)

Module ApiFacts.
Import JS Http Api JSFacts.
Local Open Scope string_scope.
Local Open Scope list_scope.

Lemma handed_back_unchanged (cb : callbacks) (tr : trace) (v : value) :
  unchanged cb -> handed_back cb tr v = v.
Proof. intros H. unfold handed_back. destruct v; auto. Qed.

Lemma handed_back_ext (cb cb' : callbacks) (tr : trace) (v : value) :
  (forall t w, leaves cb t w = leaves cb' t w) ->
  handed_back cb tr v = handed_back cb' tr v.
Proof. intros L. unfold handed_back. destruct v; auto. Qed.

(** The consumer sees of the callbacks only what they answer and what they
    leave of the events. *)
Lemma process_line_ext (cb cb' : callbacks) :
  (forall tr, cb tr = cb' tr) ->
  (forall tr v, leaves cb tr v = leaves cb' tr v) ->
  forall tr line, process_line cb tr line = process_line cb' tr line.
Proof.
  intros E L tr line. unfold process_line.
  destruct (startsWith line _); [|reflexivity].
  destruct (str_eqb _ _); [reflexivity|].
  destruct (JSON_parse _) as [parsedData|]; [|reflexivity].
  rewrite (handed_back_ext cb cb' _ _ L), !E. reflexivity.
Qed.

Lemma process_lines_ext (cb cb' : callbacks) :
  (forall tr, cb tr = cb' tr) ->
  (forall tr v, leaves cb tr v = leaves cb' tr v) ->
  forall lines tr, process_lines cb tr lines = process_lines cb' tr lines.
Proof.
  intros E L lines; induction lines as [|l lines IH]; intros tr; simpl; auto.
  rewrite (process_line_ext cb cb' E L).
  destruct (process_line cb' tr l); auto.
Qed.

Lemma read_loop_ext (cb cb' : callbacks) :
  (forall tr, cb tr = cb' tr) ->
  (forall tr v, leaves cb tr v = leaves cb' tr v) ->
  forall rd tr, read_loop cb rd tr = read_loop cb' rd tr.
Proof.
  intros E L rd; induction rd as [|value next IH|e]; intros tr; simpl.
  - rewrite E; reflexivity.
  - rewrite (process_lines_ext cb cb' E L).
    destruct (process_lines cb' _ _); auto.
  - reflexivity.
Qed.

Lemma streamChatWithDocuments_ext (cb cb' : callbacks) :
  (forall tr, cb tr = cb' tr) ->
  (forall tr v, leaves cb tr v = leaves cb' tr v) ->
  forall api request,
    streamChatWithDocuments api request cb
    = streamChatWithDocuments api request cb'.
Proof.
  intros E L api request. unfold streamChatWithDocuments.
  destruct api as [api|]; [|reflexivity].
  destruct (api _ _) as [response|e].
  - destruct (negb (ok response)).
    + rewrite E; reflexivity.
    + destruct (body response) as [rd|].
      * rewrite (read_loop_ext cb cb' E L).
        destruct (read_loop cb' rd []) as [tr [u|e]]; [reflexivity|].
        rewrite E; reflexivity.
      * rewrite E; reflexivity.
  - rewrite E; reflexivity.
Qed.

(** The run on a 200 response with a body is the read loop, and an
    exception of the loop goes to [onError]. *)
Lemma streamChatWithDocuments_ok (api : SecureApiRequest) (request : value)
    (cb : callbacks) (response : Response) (rd : reader) :
  api (lit "/api/chat/chat") (chat_options request) = Returns response ->
  ok response = true ->
  body response = Some rd ->
  streamChatWithDocuments (Some api) request cb =
    match read_loop cb rd [] with
    | (tr, Returns _) => (tr, Returns tt)
    | (tr, Throws error) =>
        match cb (tr ++ [OnError (error_message error)]) with
        | Some e => (tr ++ [OnError (error_message error)], Throws e)
        | None => (tr ++ [OnError (error_message error)], Returns tt)
        end
    end.
Proof.
  intros Hapi Hok Hbody. unfold streamChatWithDocuments.
  rewrite Hapi, Hok, Hbody. reflexivity.
Qed.

Lemma chunk_calls_app (a b : trace) :
  chunk_calls (a ++ b) = chunk_calls a ++ chunk_calls b.
Proof.
  induction a as [|e a IH]; [reflexivity|].
  destruct e; simpl; rewrite ?IH; reflexivity.
Qed.

(** The [onChunk] calls of a run are those of its read loop. *)
Lemma chunk_calls_served (rd : reader) (request : value) (cb : callbacks) :
  chunk_calls (fst (streamChatWithDocuments (serving rd) request cb))
  = chunk_calls (fst (read_loop cb rd [])).
Proof.
  unfold streamChatWithDocuments, serving.
  replace (ok _) with true by reflexivity. cbn [negb body].
  destruct (read_loop cb rd []) as [tr [u|e]]; [reflexivity|].
  cbv zeta. destruct (cb _); cbn [fst]; rewrite chunk_calls_app; simpl;
    apply app_nil_r.
Qed.

(** The fragments of the examples, byte by byte: [text] writes the
    quotation mark as an apostrophe and the line feed as a bar. *)
Lemma fragment_done_bytes :
  fragment_done
  = [x64; x61; x74; x61; x3a; x20; x7b; x22; x74; x79; x70; x65; x22; x3a;
     x22; x64; x6f; x6e; x65; x22; x7d; x0a]%byte
  /\ decode fragment_done = text "data: {'type':'done'}|"
  /\ split 10 (decode fragment_content_hi)
     = [text "data: {'type':'content','content':'hi'}"; []].
Proof. repeat split; vm_compute; reflexivity. Qed.

(** C1 does not hold as the specification words it: on its two fragments
    [onChunk] is not called once, with the content event only; it is called
    a second time, with the [done] event. *)
Lemma C1_onChunk_called_for_done :
  chunk_calls
    (fst (streamChatWithDocuments
            (serving (fragments [fragment_content_hi; fragment_done]))
            Null well_behaved))
  = [content_hi; done_event]
  /\ chunk_calls
       (fst (streamChatWithDocuments
               (serving (fragments [fragment_content_hi; fragment_done]))
               Null well_behaved))
     <> [content_hi].
Proof. split; [vm_compute; reflexivity | vm_compute; discriminate]. Qed.

(** C1, amended: given a 200 response whose body is delivered as exactly the
    two fragments of the example, and callbacks that return normally and
    leave the events they are handed as they are, the consumer reads the
    first fragment and calls [onChunk] with the content event, reads the
    second and calls [onChunk] with the [done] event, then calls
    [onComplete] once and resolves; it calls nothing else and never reads a
    third time. *)
Theorem C1_two_fragments (api : SecureApiRequest) (request : value)
    (cb : callbacks) (response : Response) :
  api (lit "/api/chat/chat") (chat_options request) = Returns response ->
  ok response = true ->
  body response = Some (fragments [fragment_content_hi; fragment_done]) ->
  (forall tr, cb tr = None) ->
  unchanged cb ->
  streamChatWithDocuments (Some api) request cb
  = ([Read; OnChunk content_hi; Read; OnChunk done_event; OnComplete],
     Returns tt).
Proof.
  intros Hapi Hok Hbody Hcb Hun.
  rewrite (streamChatWithDocuments_ok _ _ _ _ _ Hapi Hok Hbody).
  rewrite (read_loop_ext cb well_behaved Hcb Hun).
  vm_compute. reflexivity.
Qed.

Lemma C1_two_fragments_witness :
  streamChatWithDocuments
    (serving (fragments [fragment_content_hi; fragment_done])) Null well_behaved
  = ([Read; OnChunk content_hi; Read; OnChunk done_event; OnComplete],
     Returns tt).
Proof.
  apply (C1_two_fragments _ Null well_behaved
           {| status := 200;
              body := Some (fragments [fragment_content_hi; fragment_done]) |});
    first [reflexivity | intros tr v; reflexivity].
Defined.

(** The hypotheses on the callbacks are needed.  [onChunk] is handed the
    parsed object itself and the consumer looks at its [type] only after
    the call: when the callback has overwritten the [type], the [done]
    event no longer ends the run, and the consumer reads a third time. *)
Lemma rewritten_type_is_what_counts :
  streamChatWithDocuments
    (serving (fragments [fragment_content_hi; fragment_done])) Null
    onChunk_marks
  = ([Read; OnChunk content_hi; Read; OnChunk done_event; Read; OnComplete],
     Returns tt).
Proof. vm_compute. reflexivity. Qed.

(** One line of the stream that carries no payload to parse. *)
Lemma process_line_empty (cb : callbacks) (tr : trace) :
  process_line cb tr [] = Continue tr.
Proof. reflexivity. Qed.

(** A payload that does not parse is logged, and the loop goes on. *)
Lemma process_line_malformed (cb : callbacks) (tr : trace) (p : jsstring) :
  trim p <> [] ->
  JSON_parse p = None ->
  process_line cb tr (lit "data: " ++ p) = Continue (tr ++ [Warn p]).
Proof.
  intros Hblank Hparse. unfold process_line.
  rewrite startsWith_app.
  change 6%nat with (List.length (lit "data: ")). rewrite slice_app.
  apply str_eqb_neq in Hblank. rewrite Hblank, Hparse. reflexivity.
Qed.

(** A blank payload is skipped, and nothing is logged. *)
Lemma process_line_blank (cb : callbacks) (tr : trace) (p : jsstring) :
  trim p = [] ->
  process_line cb tr (lit "data: " ++ p) = Continue tr.
Proof.
  intros Hblank. unfold process_line.
  rewrite startsWith_app.
  change 6%nat with (List.length (lit "data: ")). rewrite slice_app.
  rewrite Hblank. reflexivity.
Qed.

(** A line that is not a [data: ] line leaves no trace. *)
Lemma process_line_other (cb : callbacks) (tr : trace) (line : jsstring) :
  startsWith line (lit "data: ") = false ->
  process_line cb tr line = Continue tr.
Proof. intros H. unfold process_line. rewrite H. reflexivity. Qed.



(** Whatever the callbacks do, a line with an event adds to the trace the
    [onChunk] call for that event, and no other [onChunk] call. *)
Lemma process_line_data_chunks (cb : callbacks) (tr : trace) (p : jsstring)
    (v : value) :
  trim p <> [] ->
  JSON_parse p = Some v ->
  exists ext,
    chunk_calls ext = []
    /\ (process_line cb tr (lit "data: " ++ p) = Continue (tr ++ OnChunk v :: ext)
        \/ process_line cb tr (lit "data: " ++ p)
           = Return (tr ++ OnChunk v :: ext)).
Proof.
  intros Hblank Hparse. unfold process_line.
  rewrite startsWith_app.
  change 6%nat with (List.length (lit "data: ")). rewrite slice_app.
  apply str_eqb_neq in Hblank. rewrite Hblank, Hparse. cbv zeta.
  destruct (cb (tr ++ [OnChunk v])).
  - exists [Warn p]. rewrite <- app_assoc. auto.
  - destruct (get _ (lit "type")) as [type|].
    + destruct (is_string type (lit "done") || is_string type (lit "error")).
      * destruct (cb _).
        -- exists [OnComplete; Warn p]. rewrite <- !app_assoc. auto.
        -- exists [OnComplete]. rewrite <- !app_assoc. auto.
      * exists []. auto.
    + exists [Warn p]. rewrite <- app_assoc. auto.
Qed.


(** C2: there is a well-formed event line (the content event of the
    examples) that, delivered whole, reaches [onChunk], and that, cut in two
    between two fragments of the body, reaches it neither as a whole nor in
    part, whatever the callbacks do: the first half is a [data: ] line that
    does not parse and is only logged, the second half is not a [data: ]
    line at all, and nothing is carried over from one read to the next. *)
Theorem C2_split_line_is_lost :
  exists (line : jsstring) (event : value) (f1 f2 : list byte),
    startsWith line (lit "data: ") = true
    /\ JSON_parse (slice 6 line) = Some event
    /\ f1 ++ f2 = bytes (line ++ [10%N])
    /\ f1 <> [] /\ f2 <> []
    /\ (forall cb,
          chunk_calls (fst (streamChatWithDocuments
                              (serving (fragments [f1 ++ f2])) Null cb))
          = [event])
    /\ (forall cb,
          chunk_calls (fst (streamChatWithDocuments
                              (serving (fragments [f1; f2])) Null cb))
          = [])
    /\ streamChatWithDocuments (serving (fragments [f1; f2])) Null well_behaved
       = ([Read; Warn (text "{'type':'con"); Read; Read; OnComplete],
          Returns tt).
Proof.
  exists (text "data: {'type':'content','content':'hi'}"), content_hi,
         (bytes (text "data: {'type':'con")),
         (bytes (text "tent','content':'hi'}|")).
  split; [reflexivity|].
  split; [vm_compute; reflexivity|].
  split; [reflexivity|].
  split; [discriminate|].
  split; [discriminate|].
  split; [|split].
  - intros cb. rewrite chunk_calls_served.
    cbn [fragments read_loop].
    replace (split 10 (decode _))
      with [lit "data: " ++ text "{'type':'content','content':'hi'}"; []]
      by (vm_compute; reflexivity).
    cbn [process_lines].
    destruct (process_line_data_chunks cb ([] ++ [Read])
                (text "{'type':'content','content':'hi'}") content_hi)
      as (ext & Hext & [E|E]);
      [vm_compute; discriminate | vm_compute; reflexivity | |];
      rewrite E.
    + rewrite process_line_empty. cbn [read_loop].
      destruct (cb _); cbn [fst]; rewrite !chunk_calls_app; simpl;
        rewrite Hext; reflexivity.
    + cbn [fst]. rewrite chunk_calls_app. simpl. rewrite Hext. reflexivity.
  - intros cb. rewrite chunk_calls_served.
    cbn [fragments read_loop].
    replace (split 10 (decode (bytes (text "data: {'type':'con"))))
      with [lit "data: " ++ text "{'type':'con"]
      by (vm_compute; reflexivity).
    replace (split 10 (decode (bytes (text "tent','content':'hi'}|"))))
      with [text "tent','content':'hi'}"; []]
      by (vm_compute; reflexivity).
    cbn [process_lines].
    rewrite process_line_malformed by (vm_compute; congruence).
    rewrite process_line_other by reflexivity.
    rewrite process_line_empty.
    destruct (cb _); cbn [fst]; rewrite !chunk_calls_app; reflexivity.
  - vm_compute. reflexivity.
Qed.


Lemma read_loop_Fragment (cb : callbacks) (f : list byte) (next : reader)
    (tr : trace) :
  read_loop cb (Fragment f next) tr
  = match process_lines cb (tr ++ [Read]) (split 10 (decode f)) with
    | Return tr' => (tr', Returns tt)
    | Continue tr' => read_loop cb next tr'
    end.
Proof. reflexivity. Qed.




(** *** The shape of every run *)

Lemma quiet_app (a b : trace) : quiet a -> quiet b -> quiet (a ++ b).
Proof. unfold quiet. rewrite Forall_app. auto. Qed.

Lemma quiet_no_complete (tr : trace) : quiet tr -> ~ In OnComplete tr.
Proof.
  unfold quiet. rewrite Forall_forall. intros H Hin. exact (H _ Hin).
Qed.

Lemma quiet_no_error (tr : trace) (msg : jsstring) :
  quiet tr -> ~ In (OnError msg) tr.
Proof.
  unfold quiet. rewrite Forall_forall. intros H Hin. exact (H _ Hin).
Qed.

Lemma goes_on_app (cb : callbacks) (tr a b : trace) :
  goes_on cb tr a -> goes_on cb (tr ++ a) b -> goes_on cb tr (a ++ b).
Proof.
  revert tr. induction a as [|e a IH]; intros tr Ha Hb.
  - rewrite app_nil_r in Hb. exact Hb.
  - destruct Ha as [He Ha]. split; [exact He|].
    apply IH; [exact Ha|]. rewrite <- app_assoc. exact Hb.
Qed.

(** A run that goes on has called neither [onComplete] nor [onError]. *)
Lemma goes_on_calm (cb : callbacks) (tr ext : trace) :
  goes_on cb tr ext ->
  ~ In OnComplete ext /\ forall msg, ~ In (OnError msg) ext.
Proof.
  revert tr. induction ext as [|e ext IH]; intros tr H.
  - split; [|intros msg]; intros [].
  - destruct H as [He H]. destruct (IH _ H) as [Hc Herr].
    split; [|intros msg]; intros [E|Hin];
      try (rewrite E in He; exact He);
      [exact (Hc Hin) | exact (Herr _ Hin)].
Qed.

(** With callbacks that change nothing, the events of a run that goes on
    are not terminal as they were parsed. *)
Lemma goes_on_quiet (cb : callbacks) (tr ext : trace) :
  unchanged cb -> goes_on cb tr ext -> quiet ext.
Proof.
  intros Hun. revert tr. induction ext as [|e ext IH]; intros tr H.
  - constructor.
  - destruct H as [He H]. constructor; [|exact (IH _ H)].
    destruct e; simpl; auto.
    rewrite (handed_back_unchanged _ _ _ Hun) in He. exact He.
Qed.

Section WellBehaved.

Variable cb : callbacks.
Hypothesis cb_returns : forall tr, cb tr = None.

(** What one line adds to the trace. *)
Lemma process_line_shape (tr : trace) (line : jsstring) :
  match process_line cb tr line with
  | Continue tr' => exists ext, tr' = tr ++ ext /\ goes_on cb tr ext
  | Return tr' =>
      exists v, tr' = tr ++ [OnChunk v; OnComplete]
                /\ terminal (handed_back cb (tr ++ [OnChunk v]) v) = true
  end.
Proof.
  unfold process_line.
  destruct (startsWith line _);
    [|exists []; rewrite app_nil_r; split; [reflexivity | exact I]].
  destruct (str_eqb _ _);
    [exists []; rewrite app_nil_r; split; [reflexivity | exact I]|].
  destruct (JSON_parse _) as [v|];
    [|exists [Warn (slice 6 line)]; split; [reflexivity | simpl; auto]].
  rewrite !cb_returns.
  destruct (get _ (lit "type")) as [type|] eqn:Hget.
  - destruct (is_string type (lit "done") || is_string type (lit "error"))
      eqn:Hty.
    + exists v. rewrite <- app_assoc. split; [reflexivity|].
      unfold terminal. rewrite Hget. exact Hty.
    + exists [OnChunk v]. split; [reflexivity|].
      simpl. unfold terminal. rewrite Hget. auto.
  - exists [OnChunk v; Warn (slice 6 line)]. rewrite <- app_assoc.
    split; [reflexivity|].
    simpl. unfold terminal. rewrite Hget. auto.
Qed.

Lemma process_lines_shape (lines : list jsstring) (tr : trace) :
  match process_lines cb tr lines with
  | Continue tr' => exists ext, tr' = tr ++ ext /\ goes_on cb tr ext
  | Return tr' =>
      exists ext v,
        tr' = tr ++ ext ++ [OnChunk v; OnComplete]
        /\ goes_on cb tr ext
        /\ terminal (handed_back cb ((tr ++ ext) ++ [OnChunk v]) v) = true
  end.
Proof.
  revert tr. induction lines as [|line lines IH]; intros tr; simpl.
  - exists []. rewrite app_nil_r. split; [reflexivity | exact I].
  - pose proof (process_line_shape tr line) as H.
    destruct (process_line cb tr line) as [tr1|tr1].
    + destruct H as (ext1 & -> & Hq1).
      specialize (IH (tr ++ ext1)).
      destruct (process_lines cb (tr ++ ext1) lines) as [tr2|tr2].
      * destruct IH as (ext2 & -> & Hq2).
        exists (ext1 ++ ext2). rewrite app_assoc.
        split; [reflexivity | apply goes_on_app; assumption].
      * destruct IH as (ext2 & v & -> & Hq2 & Hv).
        exists (ext1 ++ ext2), v. rewrite <- !app_assoc.
        rewrite <- !app_assoc in Hv.
        repeat split; [apply goes_on_app; assumption | exact Hv].
    + destruct H as (v & -> & Hv).
      exists [], v. split; [reflexivity|]. split; [exact I|].
      rewrite app_nil_r. exact Hv.
Qed.

Lemma read_loop_shape (rd : reader) (tr : trace) :
  exists ext tail,
    fst (read_loop cb rd tr) = tr ++ ext ++ tail
    /\ goes_on cb tr ext
    /\ ending cb (tr ++ ext) tail (snd (read_loop cb rd tr)).
Proof.
  revert tr. induction rd as [|value next IH|e]; intros tr; simpl.
  - rewrite cb_returns. exists [Read], [OnComplete]. cbn [fst snd].
    rewrite <- app_assoc.
    split; [reflexivity|]. split; [simpl; auto | constructor].
  - pose proof (process_lines_shape (split 10 (decode value)) (tr ++ [Read]))
      as H.
    destruct (process_lines cb (tr ++ [Read]) _) as [tr1|tr1].
    + destruct H as (ext1 & -> & Hq1).
      destruct (IH ((tr ++ [Read]) ++ ext1)) as (ext2 & tail & Hfst & Hq2 & He).
      exists ([Read] ++ ext1 ++ ext2), tail.
      split; [rewrite Hfst, <- !app_assoc; reflexivity|].
      split.
      * apply goes_on_app; [simpl; auto|].
        apply goes_on_app; assumption.
      * rewrite <- !app_assoc in He. rewrite <- !app_assoc. exact He.
    + destruct H as (ext1 & v & -> & Hq1 & Hv).
      exists (Read :: ext1), [OnChunk v; OnComplete]. cbn [fst snd].
      rewrite <- !app_assoc.
      split; [reflexivity|]. split; [split; [exact I | exact Hq1]|].
      constructor. rewrite <- !app_assoc in Hv. rewrite <- app_assoc.
      exact Hv.
  - exists [Read], []. cbn [fst snd]. rewrite app_nil_r.
    split; [reflexivity|]. split; [simpl; auto | constructor].
Qed.

End WellBehaved.

(** *** A terminal event *)

Lemma reads_app (a b : trace) : reads (a ++ b) = reads a + reads b.
Proof. unfold reads. rewrite filter_app, length_app. reflexivity. Qed.

Lemma events_of_app (a b : list jsstring) :
  events_of (a ++ b) = events_of a ++ events_of b.
Proof. unfold events_of. apply flat_map_app. Qed.

Lemma process_lines_app (cb : callbacks) (l1 l2 : list jsstring) (tr : trace) :
  process_lines cb tr (l1 ++ l2)
  = match process_lines cb tr l1 with
    | Continue t => process_lines cb t l2
    | Return t => Return t
    end.
Proof.
  revert tr. induction l1 as [|l l1 IH]; intros tr; simpl; [reflexivity|].
  destruct (process_line cb tr l); [apply IH | reflexivity].
Qed.

Section Unchanging.

Variable cb : callbacks.
Hypothesis cb_returns : forall tr, cb tr = None.
Hypothesis cb_unchanged : unchanged cb.

(** A line that carries no terminal event, with callbacks that return and
    change nothing: the loop goes on, and the line's event, if it has one,
    has gone to [onChunk]. *)
Lemma process_line_passes (tr : trace) (line : jsstring) :
  terminal_line line = false ->
  exists ext,
    process_line cb tr line = Continue (tr ++ ext)
    /\ quiet ext
    /\ reads ext = 0
    /\ chunk_calls ext = match event_of line with
                         | Some v => [v]
                         | None => []
                         end.
Proof.
  unfold terminal_line, event_of, process_line.
  destruct (startsWith line _);
    [|intros _; exists []; rewrite app_nil_r; repeat split; constructor].
  destruct (str_eqb _ _);
    [intros _; exists []; rewrite app_nil_r; repeat split; constructor|].
  destruct (JSON_parse _) as [v|].
  - intros Hv. rewrite !cb_returns, (handed_back_unchanged _ _ _ cb_unchanged).
    unfold terminal in Hv.
    destruct (get v (lit "type")) as [type|] eqn:Hget.
    + rewrite Hv. exists [OnChunk v]. repeat split.
      repeat constructor. simpl. unfold terminal. rewrite Hget. exact Hv.
    + exists [OnChunk v; Warn (slice 6 line)]. rewrite <- app_assoc.
      repeat split.
      repeat constructor. simpl. unfold terminal. rewrite Hget. reflexivity.
  - intros _. exists [Warn (slice 6 line)]. repeat split.
    repeat constructor.
Qed.

Lemma process_lines_passes (lines : list jsstring) (tr : trace) :
  existsb terminal_line lines = false ->
  exists ext,
    process_lines cb tr lines = Continue (tr ++ ext)
    /\ quiet ext
    /\ reads ext = 0
    /\ chunk_calls ext = events_of lines.
Proof.
  revert tr. induction lines as [|line lines IH]; intros tr H.
  - exists []. rewrite app_nil_r. repeat split. constructor.
  - simpl in H. apply orb_false_iff in H. destruct H as [Hl Hls].
    destruct (process_line_passes tr line Hl) as (e1 & E1 & Q1 & R1 & C1).
    destruct (IH (tr ++ e1) Hls) as (e2 & E2 & Q2 & R2 & C2).
    exists (e1 ++ e2). cbn [process_lines]. rewrite E1, E2, app_assoc.
    split; [reflexivity|]. split; [apply quiet_app; assumption|].
    split; [rewrite reads_app, R1, R2; reflexivity|].
    rewrite chunk_calls_app, C1, C2. reflexivity.
Qed.

Lemma read_loop_passes (fs : list (list byte)) (next : reader) (tr : trace) :
  existsb terminal_line (flat_map (fun f => split 10 (decode f)) fs) = false ->
  exists ext,
    read_loop cb (delivering fs next) tr = read_loop cb next (tr ++ ext)
    /\ quiet ext
    /\ reads ext = List.length fs
    /\ chunk_calls ext
       = events_of (flat_map (fun f => split 10 (decode f)) fs).
Proof.
  revert tr. induction fs as [|f fs IH]; intros tr H.
  - exists []. rewrite app_nil_r. repeat split. constructor.
  - cbn [flat_map] in H. rewrite existsb_app in H.
    apply orb_false_iff in H. destruct H as [Hf Hfs].
    destruct (process_lines_passes (split 10 (decode f)) (tr ++ [Read]) Hf)
      as (e1 & E1 & Q1 & R1 & C1).
    destruct (IH ((tr ++ [Read]) ++ e1) Hfs) as (e2 & E2 & Q2 & R2 & C2).
    exists ([Read] ++ e1 ++ e2).
    cbn [delivering]. rewrite read_loop_Fragment, E1, E2, <- !app_assoc.
    split; [reflexivity|].
    split; [apply quiet_app; [repeat constructor|apply quiet_app; assumption]|].
    split; [rewrite !reads_app, R1, R2; reflexivity|].
    cbn [flat_map]. rewrite !chunk_calls_app, events_of_app, C1, C2.
    reflexivity.
Qed.

(** A line that carries a terminal event ends the run. *)
Lemma process_line_ends (tr : trace) (line : jsstring) (v : value) :
  event_of line = Some v ->
  terminal v = true ->
  process_line cb tr line = Return (tr ++ [OnChunk v; OnComplete]).
Proof.
  unfold event_of, process_line.
  destruct (startsWith line _); [|discriminate].
  destruct (str_eqb _ _); [discriminate|].
  intros -> Hv.
  rewrite !cb_returns, (handed_back_unchanged _ _ _ cb_unchanged).
  unfold terminal in Hv.
  destruct (get v (lit "type")) as [type|]; [|discriminate].
  rewrite Hv, <- app_assoc. reflexivity.
Qed.

End Unchanging.

(** C3 does not hold as the specification words it: the [done] event is
    parsed, and when [onChunk] throws for it the consumer logs a warning,
    does not call [onComplete] for the event and asks the reader for the
    next chunk. *)
Lemma C3_throwing_onChunk_reads_on :
  split 10 (decode fragment_done) = [text "data: {'type':'done'}"; []]
  /\ event_of (text "data: {'type':'done'}") = Some done_event
  /\ terminal done_event = true
  /\ streamChatWithDocuments (serving (fragments [fragment_done])) Null
                             onChunk_throws
     = ([Read; OnChunk done_event; Warn (text "{'type':'done'}"); Read;
         OnComplete],
        Returns tt).
Proof. repeat split; vm_compute; reflexivity. Qed.

(** C3, amended: with callbacks that return normally and leave the events
    they are handed as they are, the first line of the stream that carries
    an event whose [type] is ['done'] or ['error'] ends the run.  The event
    goes to [onChunk], then [onComplete] is called, and that is the last
    thing the consumer does: the promise resolves, the lines after it in
    the fragment and the rest of the body do not matter, no read follows
    the one that brought the fragment, and before the event the consumer
    has called neither [onComplete] nor [onError], only [onChunk] for the
    events of the lines before. *)
Theorem C3_terminal_event_ends_run (api : SecureApiRequest) (request : value)
    (cb : callbacks) (response : Response) (fs : list (list byte))
    (f : list byte) (next : reader) (before after : list jsstring)
    (line : jsstring) (v : value) :
  api (lit "/api/chat/chat") (chat_options request) = Returns response ->
  ok response = true ->
  body response = Some (delivering fs (Fragment f next)) ->
  (forall tr, cb tr = None) ->
  unchanged cb ->
  split 10 (decode f) = before ++ line :: after ->
  existsb terminal_line
          (flat_map (fun f' => split 10 (decode f')) fs ++ before) = false ->
  event_of line = Some v ->
  terminal v = true ->
  exists pre,
    streamChatWithDocuments (Some api) request cb
    = (pre ++ [OnChunk v; OnComplete], Returns tt)
    /\ ~ In OnComplete pre
    /\ (forall msg, ~ In (OnError msg) pre)
    /\ quiet pre
    /\ reads pre = S (List.length fs)
    /\ chunk_calls pre
       = events_of (flat_map (fun f' => split 10 (decode f')) fs ++ before).
Proof.
  intros Hapi Hok Hbody Hcb Hun Hsplit Hfirst Hev Hv.
  rewrite existsb_app in Hfirst. apply orb_false_iff in Hfirst.
  destruct Hfirst as [Hfs Hbefore].
  rewrite (streamChatWithDocuments_ok _ _ _ _ _ Hapi Hok Hbody).
  destruct (read_loop_passes cb Hcb Hun fs (Fragment f next) [] Hfs)
    as (e1 & E1 & Q1 & R1 & C1).
  destruct (process_lines_passes cb Hcb Hun before (([] ++ e1) ++ [Read])
              Hbefore) as (e2 & E2 & Q2 & R2 & C2).
  rewrite E1, read_loop_Fragment, Hsplit, process_lines_app, E2.
  cbn [process_lines].
  rewrite (process_line_ends cb Hcb Hun _ line v Hev Hv).
  exists (e1 ++ [Read] ++ e2).
  assert (Q : quiet (e1 ++ [Read] ++ e2)).
  { apply quiet_app; [exact Q1|].
    apply quiet_app; [repeat constructor | exact Q2]. }
  split; [cbn [app]; rewrite <- !app_assoc; reflexivity|].
  split; [exact (quiet_no_complete _ Q)|].
  split; [intros msg; exact (quiet_no_error _ msg Q)|].
  split; [exact Q|].
  split.
  - rewrite !reads_app, R1, R2. simpl. lia.
  - rewrite !chunk_calls_app, events_of_app, C1, C2. reflexivity.
Qed.

Lemma C3_terminal_event_ends_run_witness :
  exists pre,
    streamChatWithDocuments
      (serving (delivering [fragment_content_hi]
                           (Fragment fragment_done EndOfStream)))
      Null well_behaved
    = (pre ++ [OnChunk done_event; OnComplete], Returns tt)
    /\ ~ In OnComplete pre
    /\ (forall msg, ~ In (OnError msg) pre)
    /\ quiet pre
    /\ reads pre = 2
    /\ chunk_calls pre
       = events_of (flat_map (fun f' => split 10 (decode f'))
                             [fragment_content_hi] ++ []).
Proof.
  apply (C3_terminal_event_ends_run
           (fun _ _ => Returns
              {| status := 200;
                 body := Some (delivering [fragment_content_hi]
                                 (Fragment fragment_done EndOfStream)) |})
           Null well_behaved
           {| status := 200;
              body := Some (delivering [fragment_content_hi]
                              (Fragment fragment_done EndOfStream)) |}
           [fragment_content_hi] fragment_done EndOfStream
           [] [[]] (text "data: {'type':'done'}") done_event);
    first [vm_compute; reflexivity | intros tr v; reflexivity].
Defined.

(** A body that is delivered to its end never makes the loop throw. *)
Lemma read_loop_fragments (cb : callbacks) (fs : list (list byte)) :
  (forall tr, cb tr = None) ->
  forall tr, snd (read_loop cb (fragments fs) tr) = Returns tt.
Proof.
  intros Hcb. induction fs as [|f fs IH]; intros tr; simpl.
  - rewrite Hcb. reflexivity.
  - destruct (process_lines cb _ _); [apply IH | reflexivity].
Qed.

(** Whatever a body that is delivered to its end holds, and however it is
    cut into fragments: with callbacks that return normally the promise
    resolves, [onError] is never called, and [onComplete] is called exactly
    once, as the last thing the consumer does. *)
Lemma complete_body_resolves (api : SecureApiRequest) (request : value)
    (cb : callbacks) (response : Response) (fs : list (list byte)) :
  api (lit "/api/chat/chat") (chat_options request) = Returns response ->
  ok response = true ->
  body response = Some (fragments fs) ->
  (forall tr, cb tr = None) ->
  snd (streamChatWithDocuments (Some api) request cb) = Returns tt
  /\ (forall msg,
        ~ In (OnError msg) (fst (streamChatWithDocuments (Some api) request cb)))
  /\ exists pre,
       fst (streamChatWithDocuments (Some api) request cb) = pre ++ [OnComplete]
       /\ ~ In OnComplete pre.
Proof.
  intros Hapi Hok Hbody Hcb.
  rewrite (streamChatWithDocuments_ok _ _ _ _ _ Hapi Hok Hbody).
  pose proof (read_loop_fragments cb fs Hcb []) as Hout.
  destruct (read_loop_shape cb Hcb (fragments fs) [])
    as (ext & tail & Htr & Hq & He).
  destruct (read_loop cb (fragments fs) []) as [tr out].
  simpl in Hout, Htr, He. subst tr out. simpl.
  destruct (goes_on_calm _ _ _ Hq) as [Hcalm Hquiet].
  inversion He as [Htail| |v Hv Htail]; subst tail.
  - repeat split; auto.
    + intros msg Hin. apply in_app_iff in Hin.
      destruct Hin as [Hin|[Hin|[]]]; [exact (Hquiet _ Hin) | discriminate].
    + exists ext. split; [reflexivity | exact Hcalm].
  - repeat split; auto.
    + intros msg Hin. apply in_app_iff in Hin.
      destruct Hin as [Hin|[Hin|[Hin|[]]]];
        [exact (Hquiet _ Hin) | discriminate | discriminate].
    + exists (ext ++ [OnChunk v]). rewrite <- app_assoc.
      split; [reflexivity|].
      intros Hin. apply in_app_iff in Hin.
      destruct Hin as [Hin|[Hin|[]]];
        [exact (Hcalm Hin) | discriminate].
Qed.

(** *** [chatWithCase] *)

(** [map] keeps the order: the results are those of the entries, one for
    one. *)
Lemma map_all_Forall2 (A B : Type) (f : A -> completion B) (l : list A)
    (ys : list B) :
  map_all f l = Returns ys -> Forall2 (fun x y => f x = Returns y) l ys.
Proof.
  revert ys. induction l as [|x l IH]; simpl; intros ys H.
  - injection H as <-. constructor.
  - destruct (f x) as [y0|] eqn:Hx; [|discriminate].
    destruct (map_all f l) as [ys0|]; [|discriminate].
    injection H as <-. constructor; [exact Hx | apply IH; reflexivity].
Qed.

(** What [map_citation] makes of one entry of the backend's list. *)
Lemma map_citation_fields (caseId : jsstring) (citation : value)
    (c : Citation) :
  map_citation caseId citation = Returns c ->
  c = {| chunk_id := or_else (or_else (field citation "chunk_id")
                                      (field citation "id")) (Str []);
         content := or_else (field citation "content") (Str []);
         full_content := or_else (field citation "content") (Str []);
         page_number := or_else (field citation "page_number") (num 1);
         chunk_number := or_else (field citation "chunk_number") (num 0);
         document_id := or_else (field citation "document_id") (Str []);
         document_name :=
           or_else (or_else (field citation "document_name")
                            (field citation "document_id"))
                   (Str (lit "Unknown Document"));
         case_id := Str caseId;
         score := or_else (field citation "score") (num 0);
         id := or_else (or_else (field citation "chunk_id")
                                (field citation "id")) (Str []);
         documentId := or_else (field citation "document_id") (Str []);
         documentTitle :=
           or_else (or_else (field citation "document_name")
                            (field citation "document_id"))
                   (Str (lit "Unknown Document"));
         relevantSourceText := or_else (field citation "content") (Str []);
         page := or_else (field citation "page_number") (num 1) |}.
Proof.
  unfold map_citation. intros H.
  destruct citation; try discriminate; injection H as <-; reflexivity.
Qed.

(** C10 does not hold as the specification words it for [chunk_id] and
    [id]: when the backend leaves [chunk_id] out and gives an [id], these
    two fields take that [id], not the empty string. *)
Lemma C10_chunk_id_falls_back_to_id :
  chatWithCase (fun _ => []) (serving sample_citations) (lit "k") [] []
  = Returns {| response := Str (lit "r"); citations := [sample_citation];
               search_results_count := Undefined; message_id := Undefined |}
  /\ JSON_parse (text "{'id':'c1','score':0.5}") = Some sample_entry
  /\ map_citation (lit "k") sample_entry = Returns sample_citation
  /\ field sample_entry "chunk_id" = Undefined
  /\ chunk_id sample_citation = Str (lit "c1")
  /\ chunk_id sample_citation <> Str [].
Proof.
  repeat split; try (vm_compute; reflexivity). vm_compute. discriminate.
Qed.

(** C10, amended: the citations [chatWithCase] returns are made from the
    entries of the backend's list ([citations] of the answer, or the empty
    list), one for one and in order.  In every one of them the two naming
    conventions agree: [id] is [chunk_id], [documentId] is [document_id],
    [documentTitle] is [document_name], [page] is [page_number], and
    [relevantSourceText], [content] and [full_content] are one value.  And
    a field its entry leaves out takes its default: 1 for [page_number] and
    [page], 0 for [chunk_number] and [score], the document id, or else
    ['Unknown Document'], for [document_name], the empty string for
    [content] and for [document_id], and, for [chunk_id], the entry's
    [id], or else the empty string. *)
Theorem C10_citation_fields_agree (String_of : value -> jsstring)
    (api : option SecureApiRequest) (caseId query userId : jsstring)
    (result : ChatResult) :
  chatWithCase String_of api caseId query userId = Returns result ->
  exists (options : RequestInit) (response : Response) (res : value)
         (entries : list value),
    request api (lit "/api/chat/chat") options = Returns response
    /\ handleJsonResponse String_of response = Returns res
    /\ or_else (field res "citations") (Arr []) = Arr entries
    /\ Forall2
         (fun citation c =>
            (id c = chunk_id c
             /\ documentId c = document_id c
             /\ documentTitle c = document_name c
             /\ page c = page_number c
             /\ relevantSourceText c = content c
             /\ full_content c = content c)
            /\ (field citation "page_number" = Undefined ->
                page_number c = num 1 /\ page c = num 1)
            /\ (field citation "chunk_number" = Undefined ->
                chunk_number c = num 0)
            /\ (field citation "score" = Undefined -> score c = num 0)
            /\ (field citation "document_name" = Undefined ->
                document_name c
                = or_else (field citation "document_id")
                          (Str (lit "Unknown Document")))
            /\ (field citation "document_name" = Undefined ->
                field citation "document_id" = Undefined ->
                document_name c = Str (lit "Unknown Document"))
            /\ (field citation "content" = Undefined ->
                content c = Str [] /\ full_content c = Str []
                /\ relevantSourceText c = Str [])
            /\ (field citation "document_id" = Undefined ->
                document_id c = Str [] /\ documentId c = Str [])
            /\ (field citation "chunk_id" = Undefined ->
                chunk_id c = or_else (field citation "id") (Str [])
                /\ id c = or_else (field citation "id") (Str []))
            /\ (field citation "chunk_id" = Undefined ->
                field citation "id" = Undefined ->
                chunk_id c = Str [] /\ id c = Str []))
         entries (citations result).
Proof.
  unfold chatWithCase. intros H.
  match type of H with
  | context [request api ?u ?o] =>
      destruct (request api u o) as [response|] eqn:Hreq; [|discriminate]
  end.
  destruct (handleJsonResponse String_of response) as [res|] eqn:Hres;
    [|discriminate].
  destruct (get res (lit "citations")) as [cs|] eqn:Hget; [|discriminate].
  destruct (or_else cs (Arr [])) as [| | | | |l|] eqn:Hcs; try discriminate.
  destruct (map_all (map_citation caseId) l) as [ms|] eqn:Hm; [|discriminate].
  injection H as <-. cbn [citations].
  eexists; exists response, res, l.
  split; [exact Hreq|]. split; [exact Hres|].
  split; [unfold field; rewrite Hget; exact Hcs|].
  apply map_all_Forall2 in Hm.
  refine (Forall2_impl _ _ Hm). clear.
  intros citation c Hc. rewrite (map_citation_fields _ _ _ Hc). cbn.
  repeat split; intros; repeat match goal with
                               | H : field _ _ = Undefined |- _ =>
                                   rewrite H; clear H
                               end; reflexivity.
Qed.

Lemma sample_chat :
  chatWithCase (fun _ => []) (serving sample_citations) (lit "k") [] []
  = Returns {| response := Str (lit "r"); citations := [sample_citation];
               search_results_count := Undefined; message_id := Undefined |}.
Proof. vm_compute. reflexivity. Qed.

Lemma C10_citation_fields_agree_witness :
  exists (options : RequestInit) (response : Response) (res : value)
         (entries : list value),
    request (serving sample_citations) (lit "/api/chat/chat") options
    = Returns response
    /\ handleJsonResponse (fun _ => []) response = Returns res
    /\ or_else (field res "citations") (Arr []) = Arr entries
    /\ Forall2
         (fun citation c =>
            (id c = chunk_id c
             /\ documentId c = document_id c
             /\ documentTitle c = document_name c
             /\ page c = page_number c
             /\ relevantSourceText c = content c
             /\ full_content c = content c)
            /\ (field citation "page_number" = Undefined ->
                page_number c = num 1 /\ page c = num 1)
            /\ (field citation "chunk_number" = Undefined ->
                chunk_number c = num 0)
            /\ (field citation "score" = Undefined -> score c = num 0)
            /\ (field citation "document_name" = Undefined ->
                document_name c
                = or_else (field citation "document_id")
                          (Str (lit "Unknown Document")))
            /\ (field citation "document_name" = Undefined ->
                field citation "document_id" = Undefined ->
                document_name c = Str (lit "Unknown Document"))
            /\ (field citation "content" = Undefined ->
                content c = Str [] /\ full_content c = Str []
                /\ relevantSourceText c = Str [])
            /\ (field citation "document_id" = Undefined ->
                document_id c = Str [] /\ documentId c = Str [])
            /\ (field citation "chunk_id" = Undefined ->
                chunk_id c = or_else (field citation "id") (Str [])
                /\ id c = or_else (field citation "id") (Str []))
            /\ (field citation "chunk_id" = Undefined ->
                field citation "id" = Undefined ->
                chunk_id c = Str [] /\ id c = Str []))
         entries [sample_citation].
Proof.
  apply (C10_citation_fields_agree (fun _ => []) (serving sample_citations)
           (lit "k") [] []
           {| response := Str (lit "r"); citations := [sample_citation];
              search_results_count := Undefined; message_id := Undefined |}).
  vm_compute. reflexivity.
Defined.

(** *** Further properties of the consumer *)

(** Every run of an initialised service, with callbacks that return
    normally, ends with exactly one notification: its last event is the one
    [onComplete] call or the one [onError] call of the run, never both, and
    the promise resolves.  When the service is not initialised nothing is
    called and the promise is rejected. *)
Theorem stream_notifies_exactly_once (api : option SecureApiRequest)
    (request : value) (cb : callbacks) :
  (forall tr, cb tr = None) ->
  match api with
  | None =>
      streamChatWithDocuments api request cb
      = ([], Throws (Error (lit "API service not initialized")))
  | Some _ =>
      exists pre last,
        fst (streamChatWithDocuments api request cb) = pre ++ [last]
        /\ (last = OnComplete \/ exists msg, last = OnError msg)
        /\ ~ In OnComplete pre
        /\ (forall msg, ~ In (OnError msg) pre)
        /\ snd (streamChatWithDocuments api request cb) = Returns tt
  end.
Proof.
  intros Hcb. destruct api as [api|]; [|reflexivity].
  assert (Hfail : forall e,
    exists pre last,
      fst (let tr1 := [] ++ [OnError (error_message e)] in
           match cb tr1 with
           | Some e' => (tr1, Throws e')
           | None => (tr1, @Returns unit tt)
           end) = pre ++ [last]
      /\ (last = OnComplete \/ exists msg, last = OnError msg)
      /\ ~ In OnComplete pre
      /\ (forall msg, ~ In (OnError msg) pre)
      /\ snd (let tr1 := [] ++ [OnError (error_message e)] in
              match cb tr1 with
              | Some e' => (tr1, Throws e')
              | None => (tr1, @Returns unit tt)
              end) = Returns tt).
  { intros e. cbv zeta. rewrite Hcb. exists [], (OnError (error_message e)).
    simpl. repeat split; eauto. }
  unfold streamChatWithDocuments.
  destruct (api _ _) as [response|e]; [|apply Hfail].
  destruct (negb (ok response)); [apply Hfail|].
  destruct (body response) as [rd|]; [|apply Hfail].
  destruct (read_loop_shape cb Hcb rd []) as (ext & tail & Htr & Hquiet & He).
  destruct (read_loop cb rd []) as [tr out]. simpl in Htr, He. subst tr.
  destruct (goes_on_calm _ _ _ Hquiet) as [Hc Herr].
  destruct He as [|e|v Hv].
  - exists ext, OnComplete. simpl. repeat split; auto.
  - exists ext, (OnError (error_message e)). cbv zeta.
    rewrite Hcb, app_nil_r. simpl. repeat split; eauto.
  - exists (ext ++ [OnChunk v]), OnComplete. simpl. rewrite <- app_assoc.
    repeat split; auto.
    + intros Hin. apply in_app_iff in Hin.
      destruct Hin as [Hin|[Hin|[]]]; [exact (Hc Hin) | discriminate].
    + intros msg Hin. apply in_app_iff in Hin.
      destruct Hin as [Hin|[Hin|[]]]; [exact (Herr _ Hin) | discriminate].
Qed.

Lemma stream_notifies_exactly_once_witness :
  exists pre last,
    fst (streamChatWithDocuments
           (serving (fragments [fragment_not_json; fragment_done])) Null
           well_behaved) = pre ++ [last]
    /\ (last = OnComplete \/ exists msg, last = OnError msg)
    /\ ~ In OnComplete pre
    /\ (forall msg, ~ In (OnError msg) pre)
    /\ snd (streamChatWithDocuments
              (serving (fragments [fragment_not_json; fragment_done])) Null
              well_behaved) = Returns tt.
Proof.
  exact (stream_notifies_exactly_once
           (serving (fragments [fragment_not_json; fragment_done])) Null
           well_behaved (fun _ => eq_refl)).
Defined.

Lemma process_line_chunks (cb : callbacks) (tr : trace) (line : jsstring)
    (v : value) :
  In v (chunk_calls (match process_line cb tr line with
                     | Continue t | Return t => t
                     end)) ->
  In v (chunk_calls tr)
  \/ (startsWith line (lit "data: ") = true
      /\ JSON_parse (slice 6 line) = Some v).
Proof.
  assert (Happ : forall a b, chunk_calls (a ++ b)
                             = chunk_calls a ++ chunk_calls b).
  { induction a as [|e a IH]; intros b; [reflexivity|].
    destruct e; simpl; rewrite ?IH; reflexivity. }
  unfold process_line.
  destruct (startsWith line _) eqn:Hs; [|auto].
  destruct (str_eqb _ _); [auto|].
  destruct (JSON_parse _) as [w|] eqn:Hp.
  - intros Hin.
    assert (Hin' : In v (chunk_calls tr ++ [w])).
    { destruct (cb (tr ++ [OnChunk w]));
        [|destruct (get _ (lit "type")) as [ty|];
          [destruct (is_string ty (lit "done") || is_string ty (lit "error"));
           [destruct (cb _)|]|]];
        rewrite ?Happ in Hin; simpl in Hin;
        rewrite ?app_nil_r in Hin; exact Hin. }
    apply in_app_iff in Hin'. destruct Hin' as [H|[<-|[]]]; auto.
  - rewrite Happ. simpl. rewrite app_nil_r. auto.
Qed.

Lemma process_lines_chunks (cb : callbacks) (lines : list jsstring)
    (tr : trace) (v : value) :
  In v (chunk_calls (match process_lines cb tr lines with
                     | Continue t | Return t => t
                     end)) ->
  In v (chunk_calls tr)
  \/ exists line,
       In line lines
       /\ startsWith line (lit "data: ") = true
       /\ JSON_parse (slice 6 line) = Some v.
Proof.
  revert tr. induction lines as [|line lines IH]; intros tr; simpl; [auto|].
  pose proof (process_line_chunks cb tr line v) as H1.
  destruct (process_line cb tr line) as [t|t].
  - intros Hin. destruct (IH t Hin) as [H|(l & Hl & H)].
    + destruct (H1 H) as [H'|H']; [auto|].
      right. exists line. tauto.
    + right. exists l. tauto.
  - intros Hin. destruct (H1 Hin) as [H'|H']; [auto|].
    right. exists line. tauto.
Qed.

Lemma read_loop_chunks (cb : callbacks) (rd : reader) (tr : trace)
    (v : value) :
  In v (chunk_calls (fst (read_loop cb rd tr))) ->
  In v (chunk_calls tr)
  \/ exists f line,
       In f (reader_fragments rd)
       /\ In line (split 10 (decode f))
       /\ startsWith line (lit "data: ") = true
       /\ JSON_parse (slice 6 line) = Some v.
Proof.
  revert tr. induction rd as [|value next IH|e]; intros tr; simpl.
  - destruct (cb _); simpl; rewrite !chunk_calls_app; simpl;
      rewrite !app_nil_r; auto.
  - pose proof (process_lines_chunks cb (split 10 (decode value))
                  (tr ++ [Read]) v) as H1.
    rewrite chunk_calls_app in H1. simpl in H1. rewrite app_nil_r in H1.
    destruct (process_lines cb (tr ++ [Read]) _) as [t|t].
    + intros Hin. destruct (IH t Hin) as [H|(f & l & Hf & H)].
      * destruct (H1 H) as [H'|(l & H')]; [auto|].
        right. exists value, l. tauto.
      * right. exists f, l. tauto.
    + simpl. intros Hin. destruct (H1 Hin) as [H'|(l & H')]; [auto|].
      right. exists value, l. tauto.
  - rewrite chunk_calls_app. simpl. rewrite app_nil_r. auto.
Qed.

(** The consumer never makes an event up: whatever the callbacks do, every
    value handed to [onChunk] is what [JSON.parse] makes of the payload of a
    [data: ] line of one of the fragments the body delivered. *)
Theorem onChunk_only_parsed_payloads (api : SecureApiRequest)
    (request : value) (cb : callbacks) (v : value) :
  In v (chunk_calls (fst (streamChatWithDocuments (Some api) request cb))) ->
  exists response rd f line,
    api (lit "/api/chat/chat") (chat_options request) = Returns response
    /\ body response = Some rd
    /\ In f (reader_fragments rd)
    /\ In line (split 10 (decode f))
    /\ startsWith line (lit "data: ") = true
    /\ JSON_parse (slice 6 line) = Some v.
Proof.
  unfold streamChatWithDocuments.
  assert (Hfail : forall e,
    In v (chunk_calls
            (fst (let tr1 := [] ++ [OnError (error_message e)] in
                  match cb tr1 with
                  | Some e' => (tr1, Throws e')
                  | None => (tr1, @Returns unit tt)
                  end))) -> False).
  { intros e. cbv zeta. destruct (cb _); simpl; auto. }
  destruct (api _ _) as [response|e] eqn:Hapi;
    [|intros H; destruct (Hfail _ H)].
  destruct (negb (ok response)); [intros H; destruct (Hfail _ H)|].
  destruct (body response) as [rd|] eqn:Hbody;
    [|intros H; destruct (Hfail _ H)].
  pose proof (read_loop_chunks cb rd [] v) as H1.
  destruct (read_loop cb rd []) as [tr [u|e]]; simpl in H1.
  - simpl. intros Hin. destruct (H1 Hin) as [[]|(f & l & H)].
    exists response, rd, f, l. tauto.
  - cbv zeta. intros Hin.
    assert (Hin' : In v (chunk_calls tr)).
    { destruct (cb _); simpl in Hin; rewrite chunk_calls_app in Hin;
        simpl in Hin; rewrite app_nil_r in Hin; exact Hin. }
    destruct (H1 Hin') as [[]|(f & l & H)].
    exists response, rd, f, l. tauto.
Qed.

Lemma onChunk_only_parsed_payloads_witness :
  exists response rd f line,
    (fun (_ : jsstring) (_ : RequestInit) =>
       Returns {| status := 200;
                  body := Some (fragments [fragment_content_hi;
                                            fragment_done]) |})
      (lit "/api/chat/chat") (chat_options Null) = Returns response
    /\ body response = Some rd
    /\ In f (reader_fragments rd)
    /\ In line (split 10 (decode f))
    /\ startsWith line (lit "data: ") = true
    /\ JSON_parse (slice 6 line) = Some done_event.
Proof.
  apply (onChunk_only_parsed_payloads
           (fun _ _ => Returns {| status := 200;
                                  body := Some (fragments [fragment_content_hi;
                                                            fragment_done]) |})
           Null well_behaved done_event).
  vm_compute. auto.
Defined.

(** *** Fragments that end on line boundaries *)

Lemma calls_app (a b : trace) : calls (a ++ b) = calls a ++ calls b.
Proof. unfold calls. apply filter_app. Qed.

Lemma handed_back_calls (cb : callbacks) (tr1 tr2 : trace) (v : value) :
  sees_calls_only cb ->
  calls tr1 = calls tr2 ->
  handed_back cb tr1 v = handed_back cb tr2 v.
Proof. intros Hsee H. unfold handed_back. destruct v; auto. Qed.

Lemma process_line_same_calls (cb : callbacks) (tr1 tr2 : trace)
    (line : jsstring) :
  (forall tr, cb tr = None) ->
  sees_calls_only cb ->
  calls tr1 = calls tr2 ->
  same_calls (process_line cb tr1 line) (process_line cb tr2 line).
Proof.
  intros Hcb Hsee H. unfold process_line.
  destruct (startsWith line _); [|exact H].
  destruct (str_eqb _ _); [exact H|].
  destruct (JSON_parse _) as [v|];
    [|simpl; rewrite !calls_app, H; reflexivity].
  rewrite !Hcb.
  rewrite (handed_back_calls cb (tr1 ++ [OnChunk v]) (tr2 ++ [OnChunk v]) v
             Hsee) by (rewrite !calls_app, H; reflexivity).
  destruct (get _ (lit "type")) as [ty|];
    [destruct (is_string ty (lit "done") || is_string ty (lit "error"))|];
    simpl; rewrite !calls_app, H; reflexivity.
Qed.

Lemma process_lines_same_calls (cb : callbacks) (lines : list jsstring)
    (tr1 tr2 : trace) :
  (forall tr, cb tr = None) ->
  sees_calls_only cb ->
  calls tr1 = calls tr2 ->
  same_calls (process_lines cb tr1 lines) (process_lines cb tr2 lines).
Proof.
  intros Hcb Hsee. revert tr1 tr2.
  induction lines as [|l lines IH]; intros tr1 tr2 H; simpl; [exact H|].
  pose proof (process_line_same_calls cb tr1 tr2 l Hcb Hsee H) as H1.
  destruct (process_line cb tr1 l), (process_line cb tr2 l);
    cbn [same_calls] in H1; try contradiction; [apply IH; exact H1 | exact H1].
Qed.

Lemma split_nonempty (sep : N) (s : jsstring) : split sep s <> [].
Proof.
  destruct s as [|c s]; simpl; [discriminate|].
  destruct (c =? sep)%N; [discriminate|].
  destruct (split sep s); discriminate.
Qed.

(** Splitting distributes over a separator. *)
Lemma split_app_sep (sep : N) (a b : jsstring) :
  split sep (a ++ sep :: b) = split sep a ++ split sep b.
Proof.
  induction a as [|x a IH]; simpl.
  - rewrite N.eqb_refl. reflexivity.
  - destruct (x =? sep)%N; [rewrite IH; reflexivity|].
    rewrite IH. pose proof (split_nonempty sep a) as Hne.
    destruct (split sep a); [congruence | reflexivity].
Qed.

(** ASCII bytes decode to themselves. *)
Lemma utf8_run_ascii (bs : list byte) :
  ascii_bytes bs = true ->
  utf8_run utf8_init bs = map Byte.to_N bs.
Proof.
  induction bs as [|b bs IH]; [reflexivity|].
  simpl. intros H. apply andb_true_iff in H. destruct H as [Hb Hbs].
  apply N.ltb_lt in Hb.
  unfold utf8_step. simpl bytes_needed. simpl N.eqb. cbv iota.
  unfold utf8_lead.
  replace (Byte.to_N b <=? 127)%N with true
    by (symmetry; apply N.leb_le; lia).
  simpl. rewrite IH by exact Hbs. reflexivity.
Qed.

Lemma decode_ascii (bs : list byte) :
  ascii_bytes bs = true -> decode bs = map Byte.to_N bs.
Proof.
  intros H. unfold decode. rewrite (utf8_run_ascii bs H).
  assert (Hstrip : strip_bom (map Byte.to_N bs) = map Byte.to_N bs).
  { destruct bs as [|b bs]; [reflexivity|]. simpl in *.
    apply andb_true_iff in H. destruct H as [Hb _]. apply N.ltb_lt in Hb.
    replace (Byte.to_N b =? 65279)%N with false; [reflexivity|].
    symmetry. apply N.eqb_neq. lia. }
  rewrite Hstrip. clear Hstrip.
  induction bs as [|b bs IH]; [reflexivity|]. simpl in *.
  apply andb_true_iff in H. destruct H as [Hb Hbs]. apply N.ltb_lt in Hb.
  unfold utf16_units at 1.
  replace (Byte.to_N b <? 65536)%N with true
    by (symmetry; apply N.ltb_lt; lia).
  simpl. rewrite IH by exact Hbs. reflexivity.
Qed.

Lemma ascii_bytes_app (a b : list byte) :
  ascii_bytes (a ++ b) = ascii_bytes a && ascii_bytes b.
Proof. unfold ascii_bytes. apply forallb_app. Qed.

Lemma ascii_bytes_concat (fs : list (list byte)) :
  forallb ascii_bytes fs = true -> ascii_bytes (List.concat fs) = true.
Proof.
  induction fs as [|f fs IH]; simpl; [reflexivity|].
  intros H. apply andb_true_iff in H. destruct H as [Hf Hfs].
  rewrite ascii_bytes_app, Hf, IH by exact Hfs. reflexivity.
Qed.

Lemma ends_line_decode (f : list byte) :
  ascii_bytes f = true -> ends_line f = true ->
  exists s, decode f = s ++ [10%N].
Proof.
  intros Ha He. rewrite (decode_ascii f Ha).
  unfold ends_line in He. destruct (rev f) as [|b r] eqn:Hr; [discriminate|].
  apply N.eqb_eq in He.
  assert (Hf : f = rev r ++ [b]).
  { rewrite <- (rev_involutive f), Hr. reflexivity. }
  exists (map Byte.to_N (rev r)). rewrite Hf, map_app. simpl. rewrite He.
  reflexivity.
Qed.

(** What is left of a run once a fragment's lines are known. *)
Lemma tail_same_calls (cb : callbacks) (lines : list jsstring)
    (t1 t2 : trace) :
  (forall tr, cb tr = None) ->
  sees_calls_only cb ->
  calls t1 = calls t2 ->
  let k t := match process_lines cb t lines with
             | Return x => (x, Returns tt)
             | Continue x => read_loop cb EndOfStream x
             end in
  calls (fst (k t1)) = calls (fst (k t2)) /\ snd (k t1) = snd (k t2).
Proof.
  intros Hcb Hsee H. cbv beta zeta.
  pose proof (process_lines_same_calls cb lines t1 t2 Hcb Hsee H) as H1.
  destruct (process_lines cb t1 lines) as [a|a],
           (process_lines cb t2 lines) as [b|b];
    cbn [same_calls] in H1; try contradiction.
  - cbn [read_loop]. rewrite !Hcb. cbn [fst snd].
    rewrite !calls_app, H1. auto.
  - cbn [fst snd]. auto.
Qed.

Lemma line_fragments_sim (cb : callbacks) (fs : list (list byte)) :
  (forall tr, cb tr = None) ->
  sees_calls_only cb ->
  forallb ascii_bytes fs = true ->
  forallb ends_line fs = true ->
  forall t1 t2,
    calls t1 = calls t2 ->
    calls (fst (read_loop cb (fragments fs) t1))
    = calls (fst (read_loop cb (fragments [List.concat fs]) t2))
    /\ snd (read_loop cb (fragments fs) t1)
       = snd (read_loop cb (fragments [List.concat fs]) t2).
Proof.
  intros Hcb Hsee. induction fs as [|f fs IH]; intros Ha He t1 t2 H.
  - cbn [fragments read_loop List.concat process_lines split decode].
    change (split 10 (decode [])) with [@nil N].
    cbn [process_lines]. rewrite process_line_empty.
    cbn [read_loop]. rewrite !Hcb. cbn [fst snd].
    rewrite !calls_app, H. simpl. rewrite !app_nil_r. auto.
  - simpl in Ha, He.
    apply andb_true_iff in Ha. destruct Ha as [Haf Ha].
    apply andb_true_iff in He. destruct He as [Hef He].
    specialize (IH Ha He).
    destruct (ends_line_decode f Haf Hef) as (s & Hs).
    assert (Hcat : decode (f ++ List.concat fs)
                   = s ++ 10%N :: decode (List.concat fs)).
    { rewrite decode_ascii
        by (rewrite ascii_bytes_app, Haf, ascii_bytes_concat by exact Ha;
            reflexivity).
      rewrite map_app, <- (decode_ascii f Haf),
              <- (decode_ascii (List.concat fs) (ascii_bytes_concat fs Ha)), Hs,
              <- app_assoc. reflexivity. }
    cbn [fragments read_loop List.concat app].
    rewrite Hcat, Hs.
    replace (s ++ [10%N]) with (s ++ 10%N :: []) by reflexivity.
    rewrite !split_app_sep, !process_lines_app.
    assert (Hr : calls (t1 ++ [Read]) = calls (t2 ++ [Read]))
      by (rewrite !calls_app, H; reflexivity).
    pose proof (process_lines_same_calls cb (split 10 s) _ _ Hcb Hsee Hr) as H1.
    destruct (process_lines cb (t1 ++ [Read]) (split 10 s)) as [a|a],
             (process_lines cb (t2 ++ [Read]) (split 10 s)) as [b|b];
      cbn [same_calls] in H1; try contradiction.
    + cbn [split process_lines]. rewrite process_line_empty.
      assert (Hab : calls a = calls (b ++ [Read]))
        by (rewrite calls_app, H1; simpl; rewrite app_nil_r; reflexivity).
      destruct (IH a (b ++ [Read]) Hab) as [E1 E2].
      cbn [fragments read_loop List.concat app] in E1, E2.
      assert (Hb : calls ((b ++ [Read]) ++ [Read]) = calls b)
        by (rewrite !calls_app; simpl; rewrite !app_nil_r; reflexivity).
      destruct (tail_same_calls cb (split 10 (decode (List.concat fs)))
                  ((b ++ [Read]) ++ [Read]) b Hcb Hsee Hb) as [F1 F2].
      cbv beta zeta in F1, F2.
      split; [rewrite E1; exact F1 | rewrite E2; exact F2].
    + cbn [fst snd]. auto.
Qed.

(** When every fragment of the body is ASCII and ends with a line feed,
    the cutting does not show: with callbacks that return normally, and
    that see the calls made to them and not the consumer's reads (whether
    or not they change the events they are handed), the consumer makes the
    same calls, logs the same warnings, in the same order, and ends in the
    same way as for the whole body delivered in one fragment.  (Only the
    number of reads differs.) *)
Theorem line_aligned_fragments_compose (api1 api2 : SecureApiRequest)
    (request : value) (cb : callbacks) (r1 r2 : Response)
    (fs : list (list byte)) :
  (forall tr, cb tr = None) ->
  sees_calls_only cb ->
  api1 (lit "/api/chat/chat") (chat_options request) = Returns r1 ->
  api2 (lit "/api/chat/chat") (chat_options request) = Returns r2 ->
  ok r1 = true -> ok r2 = true ->
  body r1 = Some (fragments fs) ->
  body r2 = Some (fragments [List.concat fs]) ->
  forallb ascii_bytes fs = true ->
  forallb ends_line fs = true ->
  calls (fst (streamChatWithDocuments (Some api1) request cb))
  = calls (fst (streamChatWithDocuments (Some api2) request cb))
  /\ snd (streamChatWithDocuments (Some api1) request cb)
     = snd (streamChatWithDocuments (Some api2) request cb).
Proof.
  intros Hcb Hsee H1 H2 Hok1 Hok2 Hb1 Hb2 Ha He.
  rewrite (streamChatWithDocuments_ok _ _ _ _ _ H1 Hok1 Hb1).
  rewrite (streamChatWithDocuments_ok _ _ _ _ _ H2 Hok2 Hb2).
  destruct (line_fragments_sim cb fs Hcb Hsee Ha He [] [] eq_refl) as [E1 E2].
  pose proof (read_loop_fragments cb fs Hcb []) as O1.
  pose proof (read_loop_fragments cb [List.concat fs] Hcb []) as O2.
  destruct (read_loop cb (fragments fs) []) as [ta oa].
  destruct (read_loop cb (fragments [List.concat fs]) []) as [tb ob].
  simpl in *. subst oa ob. simpl. auto.
Qed.

Lemma line_aligned_fragments_compose_witness :
  calls (fst (streamChatWithDocuments
                (serving (fragments [fragment_content_hi; fragment_done]))
                Null well_behaved))
  = calls (fst (streamChatWithDocuments
                  (serving (fragments
                              [List.concat [fragment_content_hi; fragment_done]]))
                  Null well_behaved))
  /\ snd (streamChatWithDocuments
            (serving (fragments [fragment_content_hi; fragment_done]))
            Null well_behaved)
     = snd (streamChatWithDocuments
              (serving (fragments
                          [List.concat [fragment_content_hi; fragment_done]]))
              Null well_behaved).
Proof.
  apply (line_aligned_fragments_compose
           (fun _ _ => Returns
              {| status := 200;
                 body := Some (fragments [fragment_content_hi;
                                           fragment_done]) |})
           (fun _ _ => Returns
              {| status := 200;
                 body := Some (fragments
                                 [List.concat [fragment_content_hi;
                                          fragment_done]]) |})
           Null well_behaved
           {| status := 200;
              body := Some (fragments [fragment_content_hi; fragment_done]) |}
           {| status := 200;
              body := Some (fragments
                              [List.concat [fragment_content_hi;
                                            fragment_done]]) |}
           [fragment_content_hi; fragment_done]);
    first [reflexivity | intros tr tr' v H; reflexivity].
Defined.

Lemma complete_body_resolves_witness :
  snd (streamChatWithDocuments
         (serving (fragments [fragment_not_json; fragment_content_hi])) Null
         well_behaved) = Returns tt
  /\ (forall msg,
        ~ In (OnError msg)
             (fst (streamChatWithDocuments
                     (serving (fragments [fragment_not_json;
                                          fragment_content_hi])) Null
                     well_behaved)))
  /\ exists pre,
       fst (streamChatWithDocuments
              (serving (fragments [fragment_not_json; fragment_content_hi]))
              Null well_behaved) = pre ++ [OnComplete]
       /\ ~ In OnComplete pre.
Proof.
  exact (complete_body_resolves
           (fun _ _ => Returns
              {| status := 200;
                 body := Some (fragments [fragment_not_json;
                                          fragment_content_hi]) |})
           Null well_behaved
           {| status := 200;
              body := Some (fragments [fragment_not_json;
                                       fragment_content_hi]) |}
           [fragment_not_json; fragment_content_hi]
           eq_refl eq_refl eq_refl (fun _ => eq_refl)).
Defined.

(** An exception of [onChunk] does not leave the line loop: the [catch]
    meant for [JSON.parse] takes it, the payload is logged as if it had
    not parsed, [onComplete] is not called for the event even when it is a
    terminal one, and the loop goes on to the next line. *)
Theorem onChunk_exception_is_swallowed (cb : callbacks) (tr : trace)
    (p : jsstring) (v : value) (e : exn) :
  trim p <> [] ->
  JSON_parse p = Some v ->
  cb (tr ++ [OnChunk v]) = Some e ->
  process_line cb tr (lit "data: " ++ p)
  = Continue (tr ++ [OnChunk v; Warn p]).
Proof.
  intros Hblank Hparse Hthrow. unfold process_line.
  rewrite startsWith_app.
  change 6%nat with (List.length (lit "data: ")). rewrite slice_app.
  apply str_eqb_neq in Hblank. rewrite Hblank, Hparse, Hthrow.
  rewrite <- app_assoc. reflexivity.
Qed.

Lemma onChunk_exception_is_swallowed_witness :
  process_line onChunk_throws [Read] (lit "data: " ++ text "{'type':'done'}")
  = Continue ([Read] ++ [OnChunk done_event; Warn (text "{'type':'done'}")]).
Proof.
  apply (onChunk_exception_is_swallowed onChunk_throws [Read]
           (text "{'type':'done'}") done_event (Error (lit "boom"))).
  - vm_compute. discriminate.
  - vm_compute. reflexivity.
  - reflexivity.
Defined.

(** An exception of [onComplete], called for an event that is terminal
    when [onChunk] has returned, is taken by the same [catch]: the function
    does not return, and the lines and fragments after the terminal event
    are still processed. *)
Theorem onComplete_exception_keeps_reading (cb : callbacks) (tr : trace)
    (p : jsstring) (v : value) (e : exn) :
  trim p <> [] ->
  JSON_parse p = Some v ->
  cb (tr ++ [OnChunk v]) = None ->
  terminal (handed_back cb (tr ++ [OnChunk v]) v) = true ->
  cb ((tr ++ [OnChunk v]) ++ [OnComplete]) = Some e ->
  process_line cb tr (lit "data: " ++ p)
  = Continue (tr ++ [OnChunk v; OnComplete; Warn p]).
Proof.
  intros Hblank Hparse Hchunk Hterm Hthrow. unfold process_line.
  rewrite startsWith_app.
  change 6%nat with (List.length (lit "data: ")). rewrite slice_app.
  apply str_eqb_neq in Hblank. rewrite Hblank, Hparse, Hchunk.
  unfold terminal in Hterm.
  destruct (get _ (lit "type")) as [type|]; [|discriminate].
  rewrite Hterm, Hthrow, <- !app_assoc. reflexivity.
Qed.

Lemma onComplete_exception_keeps_reading_witness :
  process_line onComplete_throws [Read]
               (lit "data: " ++ text "{'type':'done'}")
  = Continue ([Read] ++ [OnChunk done_event; OnComplete;
                         Warn (text "{'type':'done'}")]).
Proof.
  apply (onComplete_exception_keeps_reading onComplete_throws [Read]
           (text "{'type':'done'}") done_event (Error (lit "boom"))).
  - vm_compute. discriminate.
  - vm_compute. reflexivity.
  - reflexivity.
  - reflexivity.
  - reflexivity.
Defined.

(** *** A read that fails *)

Lemma read_loop_failing (cb : callbacks) (fs : list (list byte)) (e : exn) :
  (forall tr, cb tr = None) ->
  forall tr,
    exists ext,
      goes_on cb tr ext
      /\ ((fst (read_loop cb (failing_after fs e) tr) = tr ++ ext
           /\ snd (read_loop cb (failing_after fs e) tr) = Throws e)
          \/ exists v,
               terminal (handed_back cb ((tr ++ ext) ++ [OnChunk v]) v) = true
               /\ fst (read_loop cb (failing_after fs e) tr)
                  = tr ++ ext ++ [OnChunk v; OnComplete]
               /\ snd (read_loop cb (failing_after fs e) tr) = Returns tt).
Proof.
  intros Hcb. induction fs as [|f fs IH]; intros tr; simpl.
  - exists [Read]. split; [simpl; auto | left; auto].
  - pose proof (process_lines_shape cb Hcb (split 10 (decode f)) (tr ++ [Read]))
      as H.
    destruct (process_lines cb (tr ++ [Read]) _) as [t|t].
    + destruct H as (ext1 & -> & Hq1).
      destruct (IH ((tr ++ [Read]) ++ ext1))
        as (ext2 & Hq2 & [[E1 E2]|(v & Hv & E1 & E2)]).
      * exists ([Read] ++ ext1 ++ ext2).
        split; [apply goes_on_app; [simpl; auto|apply goes_on_app; auto]|].
        left. rewrite E1, E2, <- !app_assoc. auto.
      * exists ([Read] ++ ext1 ++ ext2).
        split; [apply goes_on_app; [simpl; auto|apply goes_on_app; auto]|].
        right. exists v. rewrite E1, E2, <- !app_assoc.
        rewrite <- !app_assoc in Hv. auto.
    + destruct H as (ext1 & v & -> & Hq1 & Hv).
      exists (Read :: ext1).
      split; [split; [exact I | exact Hq1]|].
      right. exists v. cbn [fst snd]. rewrite <- !app_assoc.
      rewrite <- !app_assoc in Hv. auto.
Qed.

(** When a read fails, with callbacks that return normally: unless a
    terminal event had ended the run before, the failure is reported by one
    [onError] call that carries the error's message, as the last event;
    [onComplete] is not called, and the promise still resolves.  (An event
    is terminal by its [type] when [onChunk] has returned; with callbacks
    that change nothing that is the [type] it was parsed with, and then no
    event before the end of the run was a terminal one.) *)
Theorem failed_read_is_reported (api : SecureApiRequest) (request : value)
    (cb : callbacks) (response : Response) (fs : list (list byte)) (e : exn) :
  (forall tr, cb tr = None) ->
  api (lit "/api/chat/chat") (chat_options request) = Returns response ->
  ok response = true ->
  body response = Some (failing_after fs e) ->
  snd (streamChatWithDocuments (Some api) request cb) = Returns tt
  /\ exists pre,
       ~ In OnComplete pre
       /\ (forall msg, ~ In (OnError msg) pre)
       /\ (unchanged cb -> quiet pre)
       /\ (fst (streamChatWithDocuments (Some api) request cb)
           = pre ++ [OnError (error_message e)]
           \/ exists v,
                terminal (handed_back cb (pre ++ [OnChunk v]) v) = true
                /\ (unchanged cb -> terminal v = true)
                /\ fst (streamChatWithDocuments (Some api) request cb)
                   = pre ++ [OnChunk v; OnComplete]).
Proof.
  intros Hcb Hapi Hok Hbody.
  rewrite (streamChatWithDocuments_ok _ _ _ _ _ Hapi Hok Hbody).
  destruct (read_loop_failing cb fs e Hcb [])
    as (ext & Hq & [[E1 E2]|(v & Hv & E1 & E2)]);
    destruct (read_loop cb (failing_after fs e) []) as [tr out];
    simpl in E1, E2; subst tr out;
    destruct (goes_on_calm _ _ _ Hq) as [Hc Herr].
  - rewrite Hcb. simpl. split; [reflexivity|].
    exists ext. split; [exact Hc|]. split; [exact Herr|].
    split; [intros Hun; exact (goes_on_quiet _ _ _ Hun Hq)|].
    left; reflexivity.
  - simpl. split; [reflexivity|].
    exists ext. split; [exact Hc|]. split; [exact Herr|].
    split; [intros Hun; exact (goes_on_quiet _ _ _ Hun Hq)|].
    right. exists v. simpl in Hv. split; [exact Hv|].
    split; [|reflexivity].
    intros Hun. rewrite (handed_back_unchanged _ _ _ Hun) in Hv. exact Hv.
Qed.

Lemma failed_read_is_reported_witness :
  snd (streamChatWithDocuments
         (serving (failing_after [fragment_content_hi]
                                 (Error (lit "network error"))))
         Null well_behaved) = Returns tt
  /\ exists pre,
       ~ In OnComplete pre
       /\ (forall msg, ~ In (OnError msg) pre)
       /\ (unchanged well_behaved -> quiet pre)
       /\ (fst (streamChatWithDocuments
                  (serving (failing_after [fragment_content_hi]
                                          (Error (lit "network error"))))
                  Null well_behaved)
           = pre ++ [OnError (error_message (Error (lit "network error")))]
           \/ exists v,
                terminal (handed_back well_behaved (pre ++ [OnChunk v]) v)
                = true
                /\ (unchanged well_behaved -> terminal v = true)
                /\ fst (streamChatWithDocuments
                          (serving (failing_after [fragment_content_hi]
                                      (Error (lit "network error"))))
                          Null well_behaved)
                   = pre ++ [OnChunk v; OnComplete]).
Proof.
  exact (failed_read_is_reported
           (fun _ _ => Returns
              {| status := 200;
                 body := Some (failing_after [fragment_content_hi]
                                 (Error (lit "network error"))) |})
           Null well_behaved
           {| status := 200;
              body := Some (failing_after [fragment_content_hi]
                              (Error (lit "network error"))) |}
           [fragment_content_hi] (Error (lit "network error"))
           (fun _ => eq_refl) eq_refl eq_refl eq_refl).
Defined.


(** *** Responses that are not successes *)

(** [handleJsonResponse] never takes a response outside 200-299 for data:
    it throws.  The error's message is ['Unknown error'] when the body is
    not JSON; when the body is the JSON [null], reading its [error] throws
    a [TypeError] instead; for any other JSON body the message is the
    body's [error] when that is truthy (itself when it is a string), and
    ['HTTP error! status: <status>'] when the [error] is missing or
    falsy. *)
Theorem handleJsonResponse_rejects_failures (String_of : value -> jsstring)
    (response : Response) :
  ok response = false ->
  (exists e, handleJsonResponse String_of response = Throws e)
  /\ (forall e, json response = Throws e ->
        handleJsonResponse String_of response
        = Throws (Error (lit "Unknown error")))
  /\ (forall data, json response = Returns data ->
        if nullish data
        then handleJsonResponse String_of response = Throws type_error
        else exists err, get data (lit "error") = Some err)
  /\ (forall data s, json response = Returns data ->
        get data (lit "error") = Some (Str s) -> s <> [] ->
        handleJsonResponse String_of response = Throws (Error s))
  /\ (forall data err, json response = Returns data ->
        get data (lit "error") = Some err -> truthy err = true ->
        handleJsonResponse String_of response
        = Throws (Error (ToString String_of err)))
  /\ (forall data err, json response = Returns data ->
        get data (lit "error") = Some err -> truthy err = false ->
        handleJsonResponse String_of response
        = Throws (Error (lit "HTTP error! status: "
                           ++ show_N (status response)))).
Proof.
  intros Hok. unfold handleJsonResponse. rewrite Hok. simpl negb. cbv iota.
  split; [|split; [|split; [|split; [|split]]]].
  - destruct (json response) as [data|e].
    + destruct (get data (lit "error")); eauto.
    + simpl. eauto.
  - intros e ->. reflexivity.
  - intros data ->. destruct data; simpl; eauto.
  - intros data s -> Hget Hs. rewrite Hget.
    unfold or_else. simpl. destruct s; [congruence | reflexivity].
  - intros data err -> Hget Ht. rewrite Hget.
    unfold or_else. rewrite Ht. reflexivity.
  - intros data err -> Hget Hf. rewrite Hget.
    unfold or_else. rewrite Hf. reflexivity.
Qed.

Lemma handleJsonResponse_rejects_failures_witness :
  (exists e,
     handleJsonResponse (fun _ => [])
       {| status := 404; body := Some (Fragment (bytes (text "{'error':'No such case'}")) EndOfStream) |}
     = Throws e)
  /\ (forall e,
        json {| status := 404; body := Some (Fragment (bytes (text "{'error':'No such case'}")) EndOfStream) |}
        = Throws e ->
        handleJsonResponse (fun _ => [])
          {| status := 404; body := Some (Fragment (bytes (text "{'error':'No such case'}")) EndOfStream) |}
        = Throws (Error (lit "Unknown error")))
  /\ (forall data,
        json {| status := 404; body := Some (Fragment (bytes (text "{'error':'No such case'}")) EndOfStream) |}
        = Returns data ->
        if nullish data
        then handleJsonResponse (fun _ => [])
               {| status := 404; body := Some (Fragment (bytes (text "{'error':'No such case'}")) EndOfStream) |}
             = Throws type_error
        else exists err, get data (lit "error") = Some err)
  /\ (forall data s,
        json {| status := 404; body := Some (Fragment (bytes (text "{'error':'No such case'}")) EndOfStream) |}
        = Returns data ->
        get data (lit "error") = Some (Str s) -> s <> [] ->
        handleJsonResponse (fun _ => [])
          {| status := 404; body := Some (Fragment (bytes (text "{'error':'No such case'}")) EndOfStream) |}
        = Throws (Error s))
  /\ (forall data err,
        json {| status := 404; body := Some (Fragment (bytes (text "{'error':'No such case'}")) EndOfStream) |}
        = Returns data ->
        get data (lit "error") = Some err -> truthy err = true ->
        handleJsonResponse (fun _ => [])
          {| status := 404; body := Some (Fragment (bytes (text "{'error':'No such case'}")) EndOfStream) |}
        = Throws (Error (ToString (fun _ => []) err)))
  /\ (forall data err,
        json {| status := 404; body := Some (Fragment (bytes (text "{'error':'No such case'}")) EndOfStream) |}
        = Returns data ->
        get data (lit "error") = Some err -> truthy err = false ->
        handleJsonResponse (fun _ => [])
          {| status := 404; body := Some (Fragment (bytes (text "{'error':'No such case'}")) EndOfStream) |}
        = Throws (Error (lit "HTTP error! status: " ++ show_N 404))).
Proof.
  exact (handleJsonResponse_rejects_failures (fun _ => [])
           {| status := 404;
              body := Some (Fragment (bytes (text "{'error':'No such case'}"))
                                     EndOfStream) |}
           eq_refl).
Defined.

(** The messages on concrete bodies. *)
Lemma handleJsonResponse_messages :
  handleJsonResponse (fun _ => [])
    {| status := 404;
       body := Some (Fragment (bytes (text "{'error':'No such case'}"))
                              EndOfStream) |}
  = Throws (Error (lit "No such case"))
  /\ handleJsonResponse (fun _ => [])
       {| status := 502;
          body := Some (Fragment (bytes (lit "<html>Bad Gateway</html>"))
                                 EndOfStream) |}
     = Throws (Error (lit "Unknown error"))
  /\ handleJsonResponse (fun _ => [])
       {| status := 500;
          body := Some (Fragment (bytes (text "{'detail':'x'}")) EndOfStream) |}
     = Throws (Error (lit "HTTP error! status: 500"))
  /\ handleJsonResponse (fun _ => [])
       {| status := 500;
          body := Some (Fragment (bytes (lit "null")) EndOfStream) |}
     = Throws type_error.
Proof. repeat split; vm_compute; reflexivity. Qed.

(** *** The citation list of [chatWithCase] *)





(** The answer [null], with status 200. *)
Lemma chatWithCase_null_answer :
  chatWithCase (fun _ => [])
    (serving (Fragment (bytes (lit "null")) EndOfStream)) (lit "k") [] []
  = Throws type_error.
Proof. vm_compute. reflexivity. Qed.

(** *** The progress an upload reports *)







End ApiFacts.

(** ** The HTTP client wrapper and the session state *)

Module AuthFacts.
Import JS Http Auth JSFacts.
Local Open Scope string_scope.
Local Open Scope list_scope.

Section Provider.

Variable String_of : value -> jsstring.
Variable NEXT_PUBLIC_API_URL : option jsstring.
Variable network : list Request -> completion Response.

Local Abbreviation logout := (logout String_of NEXT_PUBLIC_API_URL network).
Local Abbreviation apiRequest := (apiRequest String_of NEXT_PUBLIC_API_URL network).
Local Abbreviation api_request := (api_request String_of NEXT_PUBLIC_API_URL).
Local Abbreviation login := (login String_of NEXT_PUBLIC_API_URL network).
Local Abbreviation login_request := (login_request NEXT_PUBLIC_API_URL).

(** [removeToken] leaves no token, in memory or in the tab's storage. *)
Lemma removeToken_clears (st : state) :
  accessToken (removeToken st) = Null
  /\ getStoredToken (removeToken st) = Null
  /\ (window_defined st = true -> sessionStorage (removeToken st) = None)
  /\ window_defined (removeToken st) = window_defined st.
Proof.
  unfold removeToken, getStoredToken. simpl.
  destruct (window_defined st) eqn:W; simpl; rewrite ?W; auto.
  repeat split; auto. discriminate.
Qed.

(** [logout] purges the token and the user and sends the tab to the login
    screen, whether or not its own request succeeds. *)
Lemma logout_clears (st : state) :
  accessToken (logout st) = Null
  /\ getStoredToken (logout st) = Null
  /\ (window_defined st = true -> sessionStorage (logout st) = None)
  /\ user (logout st) = Null
  /\ isAuthenticated (logout st) = false
  /\ pushed (logout st) = pushed st ++ [lit "/login"].
Proof.
  unfold logout.
  set (st1 := if truthy _ then _ else st).
  assert (H1 : window_defined st1 = window_defined st /\ pushed st1 = pushed st).
  { subst st1. destruct (truthy _); simpl; auto. }
  destruct H1 as [W P].
  destruct (removeToken_clears st1) as (A & B & C & D).
  unfold getStoredToken in *. simpl. rewrite <- W, <- P.
  repeat split; auto.
  unfold removeToken in *. simpl in *.
  destruct (window_defined st1); reflexivity.
Qed.

(** The body of the synthetic response. *)
Lemma session_expired_body :
  status session_expired = 401%N
  /\ ok session_expired = false
  /\ json session_expired
     = Returns (Obj [(lit "error", Str (lit "Session expired"))]).
Proof. repeat split; vm_compute; reflexivity. Qed.

(** Of the paths the application requests, the two of the session are
    the ones the test on the URL picks out. *)
Lemma auth_urls :
  forallb (fun u => includes (lit u) (lit "/logout")
                    || includes (lit u) (lit "/login"))
          ["/api/auth/login"; "/api/auth/logout"] = true
  /\ existsb (fun u => includes (lit u) (lit "/logout")
                       || includes (lit u) (lit "/login"))
             ["/api/cases"; "/api/documents/upload"; "/api/chat/chat";
              "/api/chat/search"; "/api/auth/register";
              "/api/auth/verify-token"; "/api/health"] = false.
Proof. split; vm_compute; reflexivity. Qed.

(** C4, amended: when the backend answers 401 to a request made through
    [apiRequest]: if the URL contains neither [/logout] nor [/login], the
    wrapper runs [logout] (no token is left in memory or in the tab's
    storage, the user is cleared, the session is not authenticated, and
    [/login] is pushed to the router) and returns, in place of the
    backend's response, a 401 response whose body is
    [{"error":"Session expired"}]; if the URL contains [/logout] or [/login],
    it returns the backend's response itself, and the state is as before
    but for the request sent. *)
Theorem C4_unauthorized (url : jsstring) (options : RequestInit) (st : state)
    (response : Response) :
  network (requests st ++ [api_request url options st]) = Returns response ->
  status response = 401%N ->
  if includes url (lit "/logout") || includes url (lit "/login")
  then
    apiRequest url options st
    = (Returns response, log_request (api_request url options st) st)
  else
    let st' := snd (apiRequest url options st) in
    fst (apiRequest url options st) = Returns session_expired
    /\ status session_expired = 401%N
    /\ json session_expired
       = Returns (Obj [(lit "error", Str (lit "Session expired"))])
    /\ st' = logout (log_request (api_request url options st) st)
    /\ accessToken st' = Null
    /\ getStoredToken st' = Null
    /\ (window_defined st = true -> sessionStorage st' = None)
    /\ user st' = Null
    /\ isAuthenticated st' = false
    /\ pushed st' = pushed st ++ [lit "/login"].
Proof.
  intros Hnet H401.
  unfold Auth.apiRequest, fetch. cbn [requests log_request].
  rewrite Hnet, H401.
  change (401 =? 401)%N with true. cbn [andb].
  destruct (includes url (lit "/logout")); cbn [negb andb orb];
    [reflexivity|].
  destruct (includes url (lit "/login")); cbn [negb andb orb fst snd];
    [reflexivity|].
  destruct (logout_clears (log_request (api_request url options st) st))
    as (A & B & C & D & E & F).
  destruct session_expired_body as (S1 & _ & S2).
  repeat split; auto.
Qed.

(** [storeToken] puts the token in memory and, in a browser, its string
    in the tab's storage. *)
Lemma storeToken_stores (token : value) (st : state) :
  accessToken (storeToken String_of token st) = token
  /\ (window_defined st = true ->
      sessionStorage (storeToken String_of token st)
      = Some (Api.ToString String_of token)).
Proof.
  unfold storeToken. simpl.
  destruct (window_defined st); simpl; split; auto; discriminate.
Qed.

(** C8: [login] always resolves, and [isLoading] is false after it.  When
    the answer to its request is a successful response that carries an
    access token, it resolves to [{success: true}], the session is
    authenticated, the token is in memory and (in a browser) its string is
    in the tab's storage; a token that is a string is not empty.  On any
    other answer and on a network error it resolves to
    [{success: false, error}], and the token in memory, the tab's storage,
    the user and the authentication flag are what they were. *)
Theorem C8_login (email password : jsstring) (st : state) :
  let outcome := network (requests st ++ [login_request email password]) in
  let run := login email password st in
  isLoading (snd run) = false
  /\ if carries_token outcome then
       success (fst run) = true
       /\ isAuthenticated (snd run) = true
       /\ accessToken (snd run) = token_of outcome
       /\ truthy (accessToken (snd run)) = true
       /\ (window_defined st = true ->
           sessionStorage (snd run)
           = Some (Api.ToString String_of (token_of outcome)))
       /\ (forall t, token_of outcome = Str t ->
           t <> []
           /\ (window_defined st = true -> sessionStorage (snd run) = Some t))
     else
       success (fst run) = false
       /\ error (fst run) <> None
       /\ accessToken (snd run) = accessToken st
       /\ sessionStorage (snd run) = sessionStorage st
       /\ user (snd run) = user st
       /\ isAuthenticated (snd run) = isAuthenticated st.
Proof.
  cbv zeta. unfold Auth.login, login_try, fetch, carries_token, token_of.
  cbn [requests log_request set_isLoading].
  destruct (network _) as [response|e]; cbn [fst snd];
    [|repeat split; try reflexivity; discriminate].
  destruct (json response) as [data|e]; cbn [fst snd];
    [|rewrite andb_false_r; repeat split; try reflexivity; discriminate].
  assert (Hfailed :
    let run :=
      (let '(r, st') :=
         match get data (lit "error") with
         | Some e =>
             (Some {| success := false;
                      error := Some (or_else e (Str (lit "Login failed")));
                      result_user := None |},
              log_request (login_request email password)
                          (set_isLoading true st))
         | None =>
             (None, log_request (login_request email password)
                                (set_isLoading true st))
         end in
       (match r with Some res => res | None => network_error end,
        set_isLoading false st')) in
    isLoading (snd run) = false
    /\ success (fst run) = false
    /\ error (fst run) <> None
    /\ accessToken (snd run) = accessToken st
    /\ sessionStorage (snd run) = sessionStorage st
    /\ user (snd run) = user st
    /\ isAuthenticated (snd run) = isAuthenticated st).
  { cbv zeta. destruct (get data (lit "error")); cbn; repeat split; try reflexivity; discriminate. }
  cbv zeta in Hfailed.
  destruct (ok response); cbn [andb]; [|exact Hfailed].
  unfold Api.field.
  destruct (get data (lit "access_token")) as [token|]; cbn [fst snd];
    [|repeat split; try reflexivity; discriminate].
  destruct (truthy token) eqn:Htok; [|exact Hfailed].
  cbn [fst snd set_isLoading setTimeout_push set_isAuthenticated set_user
       isLoading success isAuthenticated accessToken sessionStorage].
  destruct (storeToken_stores token
              (log_request (login_request email password)
                           (set_isLoading true st))) as [A B].
  cbn [window_defined log_request set_isLoading] in B.
  rewrite A.
  split; [reflexivity|]. split; [reflexivity|]. split; [reflexivity|].
  split; [reflexivity|]. split; [exact Htok|]. split; [exact B|].
  intros t ->. split; [intros ->; discriminate | exact B].
Qed.

End Provider.

(** A 401 to the login request itself comes back as the backend sent it,
    and nobody is logged out. *)
Lemma apiRequest_login_401 :
  apiRequest (fun _ => []) None refusing (lit "/api/auth/login") no_options
             signed_in
  = (refusing [],
     log_request (api_request (fun _ => []) None (lit "/api/auth/login")
                              no_options signed_in) signed_in).
Proof. vm_compute. reflexivity. Qed.

(** C4 does not hold as the specification words it.  The wrapper tells
    the endpoints of the session by a substring of the URL, so a 401 for a
    URL that merely contains [/login], here [/api/cases/login-history],
    which is neither the login nor the logout endpoint, comes back as the
    backend sent it, and nobody is logged out: the token stays and nothing
    is pushed to the router. *)
Lemma C4_login_in_the_path_is_exempt :
  let run := apiRequest (fun _ => []) None always_401
               (lit "/api/cases/login-history") no_options signed_in in
  lit "/api/cases/login-history" <> lit "/api/auth/login"
  /\ lit "/api/cases/login-history" <> lit "/api/auth/logout"
  /\ fst run = Returns {| status := 401; body := None |}
  /\ fst run <> Returns session_expired
  /\ snd run
     = log_request (api_request (fun _ => []) None
                      (lit "/api/cases/login-history") no_options signed_in)
                   signed_in
  /\ accessToken (snd run) = accessToken signed_in
  /\ truthy (accessToken (snd run)) = true
  /\ isAuthenticated (snd run) = isAuthenticated signed_in
  /\ pushed (snd run) = pushed signed_in.
Proof.
  cbv zeta.
  repeat split; try (vm_compute; reflexivity); vm_compute; discriminate.
Qed.

Lemma C4_unauthorized_witness :
  let apiRequest := apiRequest (fun _ => []) None always_401 in
  let st' := snd (apiRequest (lit "/api/cases") no_options signed_in) in
  fst (apiRequest (lit "/api/cases") no_options signed_in)
  = Returns session_expired
  /\ status session_expired = 401%N
  /\ json session_expired
     = Returns (Obj [(lit "error", Str (lit "Session expired"))])
  /\ st' = logout (fun _ => []) None always_401
             (log_request (api_request (fun _ => []) None (lit "/api/cases")
                                       no_options signed_in) signed_in)
  /\ accessToken st' = Null
  /\ getStoredToken st' = Null
  /\ (window_defined signed_in = true -> sessionStorage st' = None)
  /\ user st' = Null
  /\ isAuthenticated st' = false
  /\ pushed st' = pushed signed_in ++ [lit "/login"].
Proof.
  exact (C4_unauthorized (fun _ => []) None always_401 (lit "/api/cases")
           no_options signed_in {| status := 401; body := None |}
           eq_refl eq_refl).
Defined.

(** [login] on a backend that grants a token, and on one that refuses. *)
Lemma login_examples :
  login (fun _ => []) None granting (lit "a@b.c") (lit "pw") Auth.initial
  = ({| success := true; error := None;
        result_user := Some (Obj [(lit "id", Str (lit "u1"))]) |},
     {| user := Obj [(lit "id", Str (lit "u1"))]; isLoading := false;
        isAuthenticated := true; accessToken := Str (lit "abc");
        window_defined := true; sessionStorage := Some (lit "abc");
        pushed := []; timers := [(100%N, lit "/")];
        requests := [login_request None (lit "a@b.c") (lit "pw")] |})
  /\ login (fun _ => []) None refusing (lit "a@b.c") (lit "pw") signed_in
     = ({| success := false;
           error := Some (Str (lit "Invalid credentials"));
           result_user := None |},
        {| user := user signed_in; isLoading := false;
           isAuthenticated := true; accessToken := Str (lit "t0k");
           window_defined := true; sessionStorage := Some (lit "t0k");
           pushed := []; timers := [];
           requests := [login_request None (lit "a@b.c") (lit "pw")] |}).
Proof. split; vm_compute; reflexivity. Qed.



(** *** Signing out, and the headers of a request *)

Section Session.

Variable String_of : value -> jsstring.
Variable NEXT_PUBLIC_API_URL : option jsstring.

Local Abbreviation logout := (logout String_of NEXT_PUBLIC_API_URL).
Local Abbreviation apiRequest := (apiRequest String_of NEXT_PUBLIC_API_URL).
Local Abbreviation api_request := (api_request String_of NEXT_PUBLIC_API_URL).
Local Abbreviation verifyToken := (verifyToken String_of NEXT_PUBLIC_API_URL).
Local Abbreviation verify_request :=
  (verify_request String_of NEXT_PUBLIC_API_URL).
Local Abbreviation register := (register String_of NEXT_PUBLIC_API_URL).
Local Abbreviation register_request := (register_request NEXT_PUBLIC_API_URL).
Local Abbreviation initAuth := (initAuth String_of NEXT_PUBLIC_API_URL).
Local Abbreviation login := (login String_of NEXT_PUBLIC_API_URL).
Local Abbreviation login_request := (login_request NEXT_PUBLIC_API_URL).

(** [logout] signs the user out whatever the network does: the state it
    leaves does not depend on how its request ends, no token is left in
    memory or in the tab's storage, the user is cleared, the session is not
    authenticated and [/login] is pushed.  It sends its request only when
    there is a token to send, and then exactly one. *)
Theorem logout_signs_out_whatever_the_network
    (network network' : list Request -> completion Response) (st : state) :
  logout network st = logout network' st
  /\ accessToken (logout network st) = Null
  /\ getStoredToken (logout network st) = Null
  /\ user (logout network st) = Null
  /\ isAuthenticated (logout network st) = false
  /\ pushed (logout network st) = pushed st ++ [lit "/login"]
  /\ timers (logout network st) = timers st
  /\ (if truthy (or_else (accessToken st) (getStoredToken st))
      then exists r, requests (logout network st) = requests st ++ [r]
                     /\ header (lit "Authorization") (headers (init r))
                        = Some (bearer String_of
                                  (or_else (accessToken st) (getStoredToken st)))
      else requests (logout network st) = requests st).
Proof.
  destruct st as [u il ia tok wd ss pu ti rq].
  unfold Auth.logout, fetch, getStoredToken, removeToken.
  cbn [accessToken window_defined sessionStorage].
  destruct (truthy (or_else tok _)); destruct wd; simpl;
    repeat split; try reflexivity;
    (eexists; split; [reflexivity|]; simpl; reflexivity).
Qed.

Lemma header_set_prop_same (k v : jsstring) (h : list (jsstring * jsstring)) :
  header k (set_prop k v h) = Some v.
Proof.
  induction h as [|[k' v'] h IH]; simpl.
  - rewrite str_eqb_refl. reflexivity.
  - destruct (str_eqb k k') eqn:E; simpl; rewrite E; [reflexivity | exact IH].
Qed.

Lemma header_set_prop_other (k k' v : jsstring)
    (h : list (jsstring * jsstring)) :
  k <> k' -> header k (set_prop k' v h) = header k h.
Proof.
  intros Hne. induction h as [|[k2 v2] h IH]; simpl.
  - apply str_eqb_neq in Hne. rewrite Hne. reflexivity.
  - destruct (str_eqb k' k2) eqn:E; simpl.
    + apply str_eqb_eq in E. subst k2.
      apply str_eqb_neq in Hne. rewrite Hne. reflexivity.
    + destruct (str_eqb k k2); [reflexivity | exact IH].
Qed.

Lemma header_delete_prop_same (k : jsstring) (h : list (jsstring * jsstring)) :
  header k (delete_prop k h) = None.
Proof.
  unfold delete_prop. induction h as [|[k' v'] h IH]; simpl; [reflexivity|].
  destruct (str_eqb k k') eqn:E; simpl; [exact IH|]. rewrite E. exact IH.
Qed.

Lemma header_delete_prop_other (k k' : jsstring)
    (h : list (jsstring * jsstring)) :
  k <> k' -> header k (delete_prop k' h) = header k h.
Proof.
  intros Hne. unfold delete_prop.
  induction h as [|[k2 v2] h IH]; simpl; [reflexivity|].
  destruct (str_eqb k' k2) eqn:E; simpl.
  - apply str_eqb_eq in E. subst k2.
    apply str_eqb_neq in Hne. rewrite Hne. exact IH.
  - destruct (str_eqb k k2); [reflexivity | exact IH].
Qed.

Lemma header_absent (k : jsstring) (hs : list (jsstring * jsstring)) :
  ~ In k (map fst hs) -> header k hs = None.
Proof.
  induction hs as [|[k' v'] hs IH]; simpl; intros H; [reflexivity|].
  destruct (str_eqb k k') eqn:E.
  - apply str_eqb_eq in E. subst k'. tauto.
  - apply IH. tauto.
Qed.

(** Spreading an object over another: its properties win. *)
Lemma header_fold (k : jsstring) (hs h : list (jsstring * jsstring)) :
  NoDup (map fst hs) ->
  header k (fold_left (fun h kv => set_prop (fst kv) (snd kv) h) hs h)
  = match header k hs with
    | Some v => Some v
    | None => header k h
    end.
Proof.
  revert h. induction hs as [|[k' v'] hs IH]; intros h Hnd; [reflexivity|].
  inversion Hnd as [|? ? Hnotin Hnd']; subst.
  cbn [fold_left fst snd header]. rewrite (IH _ Hnd').
  destruct (str_eqb k k') eqn:E.
  - apply str_eqb_eq in E. subst k'.
    rewrite (header_absent k hs Hnotin). apply header_set_prop_same.
  - destruct (header k hs); [reflexivity|].
    apply header_set_prop_other. apply str_eqb_neq. exact E.
Qed.

(** The request [apiRequest] sends goes to the path given, under the
    backend's base URL, with the caller's method and body, and with the
    caller's headers but for two names.  [Authorization] is
    [Bearer <token>] when a token is at hand, the one in memory before the
    one in the tab's storage, whatever the caller gave, and the caller's
    own otherwise.  [Content-Type], in this spelling, is removed for a form
    body, and is otherwise the caller's or, by default,
    [application/json].  The names are compared as they are written: a
    header the caller gave as [content-type] is another name, and goes out
    as given, with a form body too. *)
Theorem apiRequest_headers (url : jsstring) (options : RequestInit)
    (st : state) :
  NoDup (map fst (headers options)) ->
  let req := api_request url options st in
  let token := or_else (accessToken st) (getStoredToken st) in
  Auth.url req = apiUrl NEXT_PUBLIC_API_URL ++ url
  /\ method (init req) = method options
  /\ payload (init req) = payload options
  /\ (truthy (accessToken st) = true -> token = accessToken st)
  /\ header (lit "Authorization") (headers (init req))
     = (if truthy token
        then Some (lit "Bearer " ++ Api.ToString String_of token)
        else header (lit "Authorization") (headers options))
  /\ header (lit "Content-Type") (headers (init req))
     = (if is_FormData (payload options) then None
        else match header (lit "Content-Type") (headers options) with
             | Some v => Some v
             | None => Some (lit "application/json")
             end)
  /\ (forall k, k <> lit "Authorization" -> k <> lit "Content-Type" ->
        header k (headers (init req)) = header k (headers options)).
Proof.
  intros Hnd. cbv zeta. unfold Auth.api_request.
  cbn [Auth.url init method payload headers].
  set (h0 := fold_left _ (headers options) _).
  assert (Hne : lit "Content-Type" <> lit "Authorization") by discriminate.
  assert (Hne' : lit "Authorization" <> lit "Content-Type") by discriminate.
  assert (H0 : forall k,
            header k h0
            = match header k (headers options) with
              | Some v => Some v
              | None => header k [(lit "Content-Type", lit "application/json")]
              end).
  { intros k. subst h0. apply header_fold. exact Hnd. }
  split; [reflexivity|]. split; [reflexivity|]. split; [reflexivity|].
  split; [intros H; unfold or_else; rewrite H; reflexivity|].
  split; [|split].
  - destruct (truthy (or_else (accessToken st) (getStoredToken st))).
    + destruct (is_FormData (payload options)).
      * rewrite header_delete_prop_other by exact Hne'.
        apply header_set_prop_same.
      * apply header_set_prop_same.
    + assert (E : header (lit "Authorization") h0
                  = header (lit "Authorization") (headers options)).
      { rewrite H0. destruct (header _ (headers options)); reflexivity. }
      destruct (is_FormData (payload options)); [|exact E].
      rewrite header_delete_prop_other by exact Hne'. exact E.
  - destruct (is_FormData (payload options));
      [apply header_delete_prop_same|].
    assert (E : header (lit "Content-Type") h0
                = match header (lit "Content-Type") (headers options) with
                  | Some v => Some v
                  | None => Some (lit "application/json")
                  end).
    { rewrite H0. destruct (header _ (headers options)); reflexivity. }
    destruct (truthy (or_else (accessToken st) (getStoredToken st)));
      [|exact E].
    rewrite header_set_prop_other by exact Hne. exact E.
  - intros k Ha Hc.
    assert (E : header k h0 = header k (headers options)).
    { rewrite H0. destruct (header k (headers options)); [reflexivity|].
      cbn [header]. apply str_eqb_neq in Hc. rewrite Hc. reflexivity. }
    assert (E1 : header k (if truthy (or_else (accessToken st)
                                              (getStoredToken st))
                           then set_prop (lit "Authorization")
                                  (bearer String_of
                                     (or_else (accessToken st)
                                              (getStoredToken st))) h0
                           else h0)
                 = header k (headers options)).
    { destruct (truthy _); [|exact E].
      rewrite header_set_prop_other by exact Ha. exact E. }
    destruct (is_FormData (payload options)); [|exact E1].
    rewrite header_delete_prop_other by exact Hc. exact E1.
Qed.

(** The headers of four requests: a JSON request and a form of a signed-in
    tab, a request whose caller names what it accepts, and a form whose
    caller gave a [content-type] in small letters, which goes out. *)
Lemma apiRequest_headers_examples :
  headers (init (Auth.api_request (fun _ => []) None (lit "/api/cases")
                   no_options signed_in))
  = [(lit "Content-Type", lit "application/json");
     (lit "Authorization", lit "Bearer t0k")]
  /\ headers (init (Auth.api_request (fun _ => []) None
                      (lit "/api/documents/upload")
                      {| method := Some (lit "POST"); headers := [];
                         payload := FormData |} signed_in))
     = [(lit "Authorization", lit "Bearer t0k")]
  /\ headers (init (Auth.api_request (fun _ => []) None (lit "/api/chat/chat")
                      {| method := Some (lit "POST");
                         headers := [(lit "Accept", lit "text/event-stream")];
                         payload := JsonOf Null |} Auth.initial))
     = [(lit "Content-Type", lit "application/json");
        (lit "Accept", lit "text/event-stream")]
  /\ headers (init (Auth.api_request (fun _ => []) None
                      (lit "/api/documents/upload")
                      upload_options signed_in))
     = [(lit "content-type", lit "text/plain");
        (lit "Authorization", lit "Bearer t0k")].
Proof. repeat split; vm_compute; reflexivity. Qed.

(** *** Responses that are not 401, and failures of the network *)

(** [apiRequest] does nothing to what is not a 401: a response with any
    other status is returned as it came, an exception of [fetch] goes to
    the caller, and in both cases the session is untouched: the state
    changes only by the request sent. *)
Theorem apiRequest_passes_through
    (network : list Request -> completion Response) (url : jsstring)
    (options : RequestInit) (st : state) :
  (forall response,
     network (requests st ++ [api_request url options st]) = Returns response ->
     status response <> 401%N) ->
  apiRequest network url options st
  = (network (requests st ++ [api_request url options st]),
     log_request (api_request url options st) st).
Proof.
  intros H. unfold Auth.apiRequest, fetch. cbn [requests log_request].
  destruct (network _) as [response|e] eqn:E; [|reflexivity].
  specialize (H response eq_refl). apply N.eqb_neq in H. rewrite H.
  reflexivity.
Qed.


(** *** Verifying a token *)

(** [verifyToken] answers [true] exactly when the verification request
    gets a successful response whose JSON body has a truthy [valid] and a
    truthy [user].  Then the session is authenticated, with that user and
    the token verified, in memory and in the tab's storage.  In every
    other case, a failure of the network like a refusal of the backend,
    the session is cleared: no token in memory or storage, no user, not
    authenticated.  It sends one request and never navigates. *)
Theorem verifyToken_all_or_nothing
    (network : list Request -> completion Response) (token : jsstring)
    (st : state) :
  let run := verifyToken network token st in
  let outcome := network (requests st ++ [verify_request token]) in
  (fst run = true <->
   exists response data,
     outcome = Returns response /\ ok response = true
     /\ json response = Returns data
     /\ truthy (Api.field data "valid") = true
     /\ truthy (Api.field data "user") = true)
  /\ (if fst run
      then isAuthenticated (snd run) = true
           /\ accessToken (snd run) = Str token
           /\ truthy (user (snd run)) = true
           /\ (window_defined st = true ->
               sessionStorage (snd run) = Some token)
      else isAuthenticated (snd run) = false
           /\ accessToken (snd run) = Null
           /\ user (snd run) = Null
           /\ getStoredToken (snd run) = Null)
  /\ requests (snd run) = requests st ++ [verify_request token]
  /\ pushed (snd run) = pushed st
  /\ timers (snd run) = timers st.
Proof.
  destruct st as [u il ia tok wd ss pu ti rq].
  cbv zeta. unfold Auth.verifyToken, fetch, removeToken, getStoredToken,
    storeToken. cbn [requests log_request].
  destruct (network _) as [response|e].
  2: { split; [split; [cbn; discriminate
                      | intros (r & d & E & _); discriminate]|].
       cbn; destruct wd; cbn; repeat split. }
  destruct (ok response) eqn:Hok.
  2: { split; [split; [cbn; discriminate
                      | intros (r & d & [= <-] & E & _); congruence]|].
       cbn; destruct wd; cbn; repeat split. }
  destruct (json response) as [data|e] eqn:Hj.
  2: { split; [split; [cbn; discriminate
                      | intros (r & d & [= <-] & _ & E & _); congruence]|].
       cbn; destruct wd; cbn; repeat split. }
  destruct (get data (lit "valid")) as [valid|] eqn:Hv.
  2: { split; [split; [cbn; discriminate
                      | intros (r & d & [= <-] & _ & E & V & _);
                        rewrite Hj in E; injection E as <-;
                        unfold Api.field in V; rewrite Hv in V;
                        discriminate]|].
       cbn; destruct wd; cbn; repeat split. }
  destruct (truthy valid && truthy (Api.field data "user")) eqn:Hboth.
  - apply andb_true_iff in Hboth. destruct Hboth as [Tv Tu].
    split; [split; [intros _; exists response, data; unfold Api.field at 1;
                    rewrite Hv; auto
                   | reflexivity]|].
    cbn; destruct wd; cbn; repeat split; try assumption; discriminate.
  - split; [split; [cbn; discriminate
                   | intros (r & d & [= <-] & _ & E & V & U);
                     rewrite Hj in E; injection E as <-;
                     unfold Api.field in V at 1; rewrite Hv in V;
                     rewrite V, U in Hboth; discriminate]|].
    cbn; destruct wd; cbn; repeat split.
Qed.

(** *** Registering *)

(** [register] has the contract of [login], without the navigation: it
    always resolves, with [isLoading] false, and neither pushes a route
    nor sets a timer.  On a successful response that carries an access
    token it resolves to [{success: true}], the session is authenticated
    and the token is in memory and in the tab's storage; otherwise it
    resolves to [{success: false, error}] and the token, the storage, the
    user and the authentication flag are what they were. *)
Theorem register_outcome
    (network : list Request -> completion Response) (data : Registration)
    (st : state) :
  let outcome := network (requests st ++ [register_request data]) in
  let run := register network data st in
  isLoading (snd run) = false
  /\ pushed (snd run) = pushed st
  /\ timers (snd run) = timers st
  /\ requests (snd run) = requests st ++ [register_request data]
  /\ if carries_token outcome then
       success (fst run) = true
       /\ isAuthenticated (snd run) = true
       /\ accessToken (snd run) = token_of outcome
       /\ (window_defined st = true ->
           sessionStorage (snd run)
           = Some (Api.ToString String_of (token_of outcome)))
     else
       success (fst run) = false
       /\ error (fst run) <> None
       /\ accessToken (snd run) = accessToken st
       /\ sessionStorage (snd run) = sessionStorage st
       /\ user (snd run) = user st
       /\ isAuthenticated (snd run) = isAuthenticated st.
Proof.
  destruct st as [u il ia tok wd ss pu ti rq].
  cbv zeta. unfold Auth.register, register_try, fetch, carries_token,
    token_of, storeToken, Api.field.
  cbn [requests log_request set_isLoading].
  destruct (network _) as [response|e]; cbn [fst snd];
    [|cbn; repeat split; discriminate].
  destruct (json response) as [res|e]; cbn [fst snd];
    [|rewrite andb_false_r; cbn; repeat split; discriminate].
  destruct (ok response); cbn [andb].
  - destruct (get res (lit "access_token")) as [t|];
      [|cbn; repeat split; discriminate].
    destruct (truthy t).
    + destruct wd; cbn; repeat split; discriminate.
    + destruct (get res (lit "error")); cbn; repeat split; discriminate.
  - destruct (get res (lit "error")); cbn; repeat split; discriminate.
Qed.

(** *** Restoring a session *)

(** What [verifyToken] does when the backend finds the token valid. *)
Lemma verifyToken_valid
    (network : list Request -> completion Response) (t : jsstring)
    (st : state) (response : Response) (data : value) :
  network (requests st ++ [verify_request t]) = Returns response ->
  ok response = true ->
  json response = Returns data ->
  truthy (Api.field data "valid") = true ->
  truthy (Api.field data "user") = true ->
  verifyToken network t st
  = (true,
     storeToken String_of (Str t)
       (set_isAuthenticated true
          (set_user (Api.field data "user")
             (log_request (verify_request t) st)))).
Proof.
  intros Hnet Hok Hj Hv Hu.
  unfold Auth.verifyToken, fetch. cbn [requests log_request].
  rewrite Hnet, Hok, Hj, Hu.
  unfold Api.field in Hv.
  destruct (get data (lit "valid")) as [valid|]; [|discriminate].
  rewrite Hv. reflexivity.
Qed.

(** A token in the tab's storage brings the session back after a reload
    of the page, provided the backend still finds it valid: [initAuth]
    verifies it and leaves the session authenticated with that token. *)
Theorem session_survives_reload
    (network : list Request -> completion Response) (t : jsstring)
    (st : state) (response : Response) (data : value) :
  window_defined st = true ->
  sessionStorage st = Some t ->
  t <> [] ->
  network (requests st ++ [verify_request t]) = Returns response ->
  ok response = true ->
  json response = Returns data ->
  truthy (Api.field data "valid") = true ->
  truthy (Api.field data "user") = true ->
  isAuthenticated (initAuth network (reload st)) = true
  /\ accessToken (initAuth network (reload st)) = Str t
  /\ user (initAuth network (reload st)) = Api.field data "user"
  /\ sessionStorage (initAuth network (reload st)) = Some t
  /\ isLoading (initAuth network (reload st)) = false.
Proof.
  intros W S Ht Hnet Hok Hj Hv Hu.
  destruct t as [|c t]; [congruence|].
  unfold Auth.initAuth, getStoredToken.
  cbn [reload set_isLoading window_defined sessionStorage].
  rewrite W, S.
  rewrite (verifyToken_valid network (c :: t) (set_isLoading true (reload st))
             response data Hnet Hok Hj Hv Hu).
  unfold storeToken. cbn. rewrite W. cbn. repeat split.
Qed.

(** After [logout] a reload of the page does not bring the session back:
    [initAuth] finds no token, sends nothing, and leaves the session
    unauthenticated. *)
Theorem signed_out_stays_out
    (network : list Request -> completion Response) (st : state) :
  isAuthenticated (initAuth network (reload (logout network st))) = false
  /\ accessToken (initAuth network (reload (logout network st))) = Null
  /\ user (initAuth network (reload (logout network st))) = Null
  /\ requests (initAuth network (reload (logout network st)))
     = requests (logout network st)
  /\ isLoading (initAuth network (reload (logout network st))) = false.
Proof.
  destruct st as [u il ia tok wd ss pu ti rq].
  unfold Auth.initAuth, reload, Auth.logout, fetch, getStoredToken,
    removeToken.
  cbn [accessToken window_defined sessionStorage].
  destruct (truthy (or_else tok _)); destruct wd; cbn; repeat split.
Qed.

End Session.

Lemma apiRequest_headers_witness :
  let req := api_request (fun _ => []) None (lit "/api/documents/upload")
               upload_options signed_in in
  let token := or_else (accessToken signed_in)
                       (getStoredToken signed_in) in
  Auth.url req = apiUrl None ++ lit "/api/documents/upload"
  /\ method (init req) = method upload_options
  /\ payload (init req) = payload upload_options
  /\ (truthy (accessToken signed_in) = true -> token = accessToken signed_in)
  /\ header (lit "Authorization") (headers (init req))
     = (if truthy token
        then Some (lit "Bearer " ++ Api.ToString (fun _ => []) token)
        else header (lit "Authorization") (headers upload_options))
  /\ header (lit "Content-Type") (headers (init req))
     = (if is_FormData (payload upload_options) then None
        else match header (lit "Content-Type") (headers upload_options) with
             | Some v => Some v
             | None => Some (lit "application/json")
             end)
  /\ (forall k, k <> lit "Authorization" -> k <> lit "Content-Type" ->
        header k (headers (init req)) = header k (headers upload_options)).
Proof.
  apply (apiRequest_headers (fun _ => []) None (lit "/api/documents/upload")
           upload_options signed_in).
  simpl. repeat constructor. simpl. tauto.
Defined.

Lemma apiRequest_passes_through_witness :
  Auth.apiRequest (fun _ => []) None
    (fun _ => Returns {| status := 500; body := None |})
    (lit "/api/cases") no_options signed_in
  = ((fun _ => Returns {| status := 500; body := None |})
       (requests signed_in
        ++ [Auth.api_request (fun _ => []) None (lit "/api/cases") no_options
                             signed_in]),
     log_request (Auth.api_request (fun _ => []) None (lit "/api/cases")
                                   no_options signed_in) signed_in).
Proof.
  apply (apiRequest_passes_through (fun _ => []) None
           (fun _ => Returns {| status := 500; body := None |})
           (lit "/api/cases") no_options signed_in).
  intros response [= <-]. discriminate.
Defined.

Lemma session_survives_reload_witness :
  isAuthenticated (Auth.initAuth (fun _ => []) None validating (reload reloaded))
  = true
  /\ accessToken (Auth.initAuth (fun _ => []) None validating (reload reloaded))
     = Str (lit "t0k")
  /\ user (Auth.initAuth (fun _ => []) None validating (reload reloaded))
     = Api.field (Obj [(lit "valid", Bool true);
                       (lit "user", Obj [(lit "id", Str (lit "u1"))])]) "user"
  /\ sessionStorage (Auth.initAuth (fun _ => []) None validating
                                   (reload reloaded))
     = Some (lit "t0k")
  /\ isLoading (Auth.initAuth (fun _ => []) None validating (reload reloaded))
     = false.
Proof.
  apply (session_survives_reload (fun _ => []) None validating (lit "t0k")
           reloaded
           {| status := 200;
              body := Some (Fragment
                        (bytes (text "{'valid':true,'user':{'id':'u1'}}"))
                        EndOfStream) |}
           (Obj [(lit "valid", Bool true);
                 (lit "user", Obj [(lit "id", Str (lit "u1"))])]));
    try reflexivity.
  discriminate.
Defined.

(** [verifyToken] and [register] on concrete backends. *)
Lemma verifyToken_examples :
  fst (Auth.verifyToken (fun _ => []) None validating (lit "t0k") reloaded)
  = true
  /\ fst (Auth.verifyToken (fun _ => []) None refusing (lit "t0k") reloaded)
     = false
  /\ sessionStorage
       (snd (Auth.verifyToken (fun _ => []) None refusing (lit "t0k") reloaded))
     = None
  /\ fst (Auth.register (fun _ => []) None granting
            {| reg_email := lit "a@b.c"; reg_name := lit "A";
               reg_password := lit "pw"; reg_super_key := lit "k" |}
            Auth.initial)
     = {| success := true; error := None;
          result_user := Some (Obj [(lit "id", Str (lit "u1"))]) |}
  /\ timers
       (snd (Auth.register (fun _ => []) None granting
               {| reg_email := lit "a@b.c"; reg_name := lit "A";
                  reg_password := lit "pw"; reg_super_key := lit "k" |}
               Auth.initial))
     = [].
Proof. repeat split; vm_compute; reflexivity. Qed.

End AuthFacts.

(** ** The application store *)

Module StoreFacts.
Import JS Store JSFacts.
Local Open Scope list_scope.

(** C5: whatever the store holds and whatever case (or [null]) is given,
    after [setCurrentCase] the current case is the one given, the chat
    transcript is empty, no citation is selected, no thread is current and
    the streaming buffer is empty; every other field keeps its value. *)
Theorem C5_setCurrentCase_resets (caseItem : option Case) (state : AppStore) :
  currentCase (setCurrentCase caseItem state) = caseItem
  /\ chatMessages (setCurrentCase caseItem state) = []
  /\ selectedCitation (setCurrentCase caseItem state) = None
  /\ currentThread (setCurrentCase caseItem state) = None
  /\ streamingContent (setCurrentCase caseItem state) = []
  /\ cases (setCurrentCase caseItem state) = cases state
  /\ sidebarOpen (setCurrentCase caseItem state) = sidebarOpen state
  /\ isLoading (setCurrentCase caseItem state) = isLoading state
  /\ error (setCurrentCase caseItem state) = error state
  /\ isTyping (setCurrentCase caseItem state) = isTyping state
  /\ createCaseModalOpen (setCurrentCase caseItem state)
     = createCaseModalOpen state
  /\ citationModalOpen (setCurrentCase caseItem state)
     = citationModalOpen state
  /\ theme (setCurrentCase caseItem state) = theme state.
Proof. repeat split. Qed.

Lemma is_current_true (caseId : jsstring) (state : AppStore) :
  is_current caseId state = true
  <-> exists c, currentCase state = Some c /\ id c = caseId.
Proof.
  unfold is_current. destruct (currentCase state) as [c|].
  - rewrite str_eqb_eq. split.
    + intros H. exists c. auto.
    + intros (c' & [= <-] & H). exact H.
  - split; [discriminate | intros (c & H & _); discriminate].
Qed.

Lemma removed_cases (caseId : jsstring) (state : AppStore) (c : Case) :
  In c (cases (removeCase caseId state))
  <-> In c (cases state) /\ id c <> caseId.
Proof.
  simpl. rewrite filter_In, negb_true_iff, str_eqb_neq. reflexivity.
Qed.

(** C6: [removeCase] keeps, in their order, exactly the cases whose id is
    not the one given.  When the current case has that id, the current
    case and thread become [null] and the transcript empty; when it has
    another id, or no case is current, the three are left as they were. *)
Theorem C6_removeCase (caseId : jsstring) (state : AppStore) :
  cases (removeCase caseId state)
  = filter (fun c => negb (str_eqb (id c) caseId)) (cases state)
  /\ (forall c, In c (cases (removeCase caseId state))
                <-> In c (cases state) /\ id c <> caseId)
  /\ ((exists c, currentCase state = Some c /\ id c = caseId) ->
      currentCase (removeCase caseId state) = None
      /\ currentThread (removeCase caseId state) = None
      /\ chatMessages (removeCase caseId state) = [])
  /\ ((forall c, currentCase state = Some c -> id c <> caseId) ->
      currentCase (removeCase caseId state) = currentCase state
      /\ currentThread (removeCase caseId state) = currentThread state
      /\ chatMessages (removeCase caseId state) = chatMessages state).
Proof.
  split; [reflexivity|].
  split; [intros c; apply removed_cases|].
  split.
  - intros H. apply is_current_true in H. simpl. rewrite H. auto.
  - intros H. simpl.
    destruct (is_current caseId state) eqn:E; [|auto].
    apply is_current_true in E. destruct E as (c & Hc & Hid).
    exfalso. exact (H c Hc Hid).
Qed.

(** Both cases of C6 on a store with two cases, the first one current. *)
Lemma removeCase_examples :
  let st := sample_store in
  currentCase (removeCase (lit "a") st) = None
  /\ currentThread (removeCase (lit "a") st) = None
  /\ chatMessages (removeCase (lit "a") st) = []
  /\ cases (removeCase (lit "a") st) = [sample_case (lit "b")]
  /\ currentCase (removeCase (lit "b") st) = currentCase st
  /\ currentThread (removeCase (lit "b") st) = currentThread st
  /\ chatMessages (removeCase (lit "b") st) = chatMessages st
  /\ cases (removeCase (lit "b") st) = [sample_case (lit "a")].
Proof. repeat split. Qed.


(** *** Removing twice, adding and removing, updating *)

Lemma is_current_removed (caseId : jsstring) (state : AppStore) :
  is_current caseId (removeCase caseId state) = false.
Proof.
  unfold is_current. simpl.
  destruct (is_current caseId state) eqn:E; [reflexivity|].
  unfold is_current in E. exact E.
Qed.

Lemma filter_idem (A : Type) (f : A -> bool) (l : list A) :
  filter f (filter f l) = filter f l.
Proof.
  induction l as [|x l IH]; simpl; [reflexivity|].
  destruct (f x) eqn:E; simpl; rewrite ?E, IH; reflexivity.
Qed.

(** After [removeCase] no case with the id given is left, in the list or
    as the current case, and removing it a second time changes nothing. *)
Theorem removeCase_idempotent (caseId : jsstring) (state : AppStore) :
  removeCase caseId (removeCase caseId state) = removeCase caseId state
  /\ (forall c, In c (cases (removeCase caseId state)) -> id c <> caseId)
  /\ (forall c, currentCase (removeCase caseId state) = Some c ->
                id c <> caseId).
Proof.
  split; [|split].
  - unfold removeCase at 1. rewrite is_current_removed.
    unfold removeCase. simpl. rewrite filter_idem. reflexivity.
  - intros c H. apply removed_cases in H. tauto.
  - intros c H Hid.
    pose proof (is_current_removed caseId state) as E.
    unfold is_current in E. rewrite H in E.
    apply str_eqb_neq in E. contradiction.
Qed.

(** Adding a case whose id is new and removing it again gives the store
    back as it was. *)
Theorem addCase_removeCase_round_trip (caseItem : Case) (state : AppStore) :
  (forall c, In c (cases state) -> id c <> id caseItem) ->
  (forall c, currentCase state = Some c -> id c <> id caseItem) ->
  removeCase (id caseItem) (addCase caseItem state) = state.
Proof.
  intros Hnew Hcur.
  assert (E : is_current (id caseItem) (addCase caseItem state) = false).
  { unfold is_current. simpl.
    destruct (currentCase state) as [c|]; [|reflexivity].
    apply str_eqb_neq. apply Hcur. reflexivity. }
  unfold removeCase. rewrite E. simpl. rewrite str_eqb_refl. simpl.
  assert (F : filter (fun c => negb (str_eqb (id c) (id caseItem)))
                     (cases state) = cases state).
  { induction (cases state) as [|c l IH]; [reflexivity|]. simpl.
    replace (str_eqb (id c) (id caseItem)) with false
      by (symmetry; apply str_eqb_neq; apply Hnew; left; reflexivity).
    simpl. rewrite IH; [reflexivity|].
    intros c' H. apply Hnew. right. exact H. }
  rewrite F. destruct state; reflexivity.
Qed.

(** The actions that change the list of cases keep the current case in
    it: if the current case is one of the cases listed, it still is after
    [addCase], [removeCase] and [updateCase], and after [setCurrentCase]
    with a case of the list or with [null]. *)
Theorem current_case_stays_listed (state : AppStore) (caseItem : Case)
    (caseId : jsstring) (updates : CaseUpdates) :
  current_listed state ->
  current_listed (addCase caseItem state)
  /\ current_listed (removeCase caseId state)
  /\ current_listed (updateCase caseId updates state)
  /\ (In caseItem (cases state) ->
      current_listed (setCurrentCase (Some caseItem) state))
  /\ current_listed (setCurrentCase None state).
Proof.
  unfold current_listed. intros H. repeat split.
  - simpl. destruct (currentCase state); [right; exact H | exact I].
  - simpl. destruct (is_current caseId state) eqn:E; [exact I|].
    destruct (currentCase state) as [c|] eqn:Hc; [|exact I].
    apply filter_In. split; [exact H|].
    unfold is_current in E. rewrite Hc in E. rewrite E. reflexivity.
  - simpl. unfold is_current.
    destruct (currentCase state) as [c|] eqn:Hc; [|exact I].
    destruct (str_eqb (id c) caseId) eqn:E.
    + apply in_map_iff. exists c. rewrite E. auto.
    + apply in_map_iff. exists c. rewrite E. auto.
  - simpl. auto.
Qed.

(** [updateCase] rewrites the cases with the id given, in place, and the
    current case with them; it keeps the number and the order of the
    cases, leaves every other case as it is, and, unlike
    [setCurrentCase], keeps the thread, the transcript, the streaming
    buffer and the selected citation.  Without updates it changes
    nothing. *)
Theorem updateCase_in_place (caseId : jsstring) (updates : CaseUpdates)
    (state : AppStore) :
  List.length (cases (updateCase caseId updates state))
  = List.length (cases state)
  /\ (forall n c, nth_error (cases state) n = Some c ->
        nth_error (cases (updateCase caseId updates state)) n
        = Some (if str_eqb (id c) caseId then spread c updates else c))
  /\ (forall c, currentCase state = Some c ->
        currentCase (updateCase caseId updates state)
        = Some (if str_eqb (id c) caseId then spread c updates else c))
  /\ currentThread (updateCase caseId updates state) = currentThread state
  /\ chatMessages (updateCase caseId updates state) = chatMessages state
  /\ streamingContent (updateCase caseId updates state)
     = streamingContent state
  /\ selectedCitation (updateCase caseId updates state)
     = selectedCitation state
  /\ updateCase caseId no_updates state = state.
Proof.
  split; [simpl; apply length_map|].
  split; [intros n c H; simpl; rewrite nth_error_map, H; reflexivity|].
  split.
  { intros c H. simpl. unfold is_current. rewrite H.
    destruct (str_eqb (id c) caseId); reflexivity. }
  repeat split.
  assert (S : forall c, spread c no_updates = c) by (intros []; reflexivity).
  unfold updateCase.
  assert (M : map (fun c => if str_eqb (id c) caseId
                            then spread c no_updates else c) (cases state)
              = cases state).
  { induction (cases state) as [|c l IH]; [reflexivity|]. simpl.
    rewrite S, IH. destruct (str_eqb (id c) caseId); reflexivity. }
  rewrite M. unfold is_current.
  destruct state as [a [c|] b d e f g h i j k l m]; simpl;
    [rewrite S; destruct (str_eqb (id c) caseId)|]; reflexivity.
Qed.

(** The streaming buffer holds the chunks appended to it, in the order
    they came, after what it held before; and the transcript the messages
    added, likewise. *)
Theorem appended_in_order (chunks : list jsstring)
    (messages : list ChatMessage) (state : AppStore) :
  fold_left (fun s c => appendStreamingContent c s) chunks state
  = setStreamingContent (streamingContent state ++ List.concat chunks) state
  /\ fold_left (fun s m => addChatMessage m s) messages state
     = setChatMessages (chatMessages state ++ messages) state.
Proof.
  split.
  - revert state. induction chunks as [|c chunks IH]; intros state; simpl.
    + rewrite app_nil_r. destruct state; reflexivity.
    + rewrite IH. unfold appendStreamingContent, setStreamingContent. simpl.
      rewrite <- app_assoc. reflexivity.
  - revert state. induction messages as [|m messages IH]; intros state; simpl.
    + rewrite app_nil_r. destruct state; reflexivity.
    + rewrite IH. unfold addChatMessage, setChatMessages. simpl.
      rewrite <- app_assoc. reflexivity.
Qed.

Lemma addCase_removeCase_round_trip_witness :
  removeCase (id (sample_case (lit "c")))
             (addCase (sample_case (lit "c")) sample_store)
  = sample_store.
Proof.
  apply (addCase_removeCase_round_trip (sample_case (lit "c")) sample_store).
  - intros c [<-|[<-|[]]]; discriminate.
  - intros c [= <-]. discriminate.
Defined.

Lemma current_case_stays_listed_witness :
  current_listed sample_store
  /\ current_listed (removeCase (lit "b") sample_store)
  /\ current_listed
       (updateCase (lit "a")
          {| new_id := None; new_user_id := None;
             new_title := Some (lit "Renamed"); new_description := None;
             new_status := Some archived;
             new_qdrant_collection_name := None;
             new_created_at := None; new_updated_at := None |}
          sample_store).
Proof.
  assert (H : current_listed sample_store) by (left; reflexivity).
  split; [exact H|].
  destruct (current_case_stays_listed sample_store (sample_case (lit "c"))
              (lit "b") no_updates H) as (_ & R & _).
  destruct (current_case_stays_listed sample_store (sample_case (lit "c"))
              (lit "a")
              {| new_id := None; new_user_id := None;
                 new_title := Some (lit "Renamed"); new_description := None;
                 new_status := Some archived;
                 new_qdrant_collection_name := None;
                 new_created_at := None; new_updated_at := None |} H)
    as (_ & _ & U & _).
  split; [exact R | exact U].
Defined.

End StoreFacts.

(** ** The upload validation *)

Module UploadFacts.
Import JS Upload JSFacts.
Local Open Scope string_scope.
Local Open Scope list_scope.

Lemma includes_skip (a l s : jsstring) :
  includes l s = true -> includes (a ++ l) s = true.
Proof.
  intros H. induction a as [|x a IH]; simpl app; [exact H|].
  rewrite includes_unfold, IH. apply orb_true_r.
Qed.

Lemma includes_prefix (s b : jsstring) : includes (s ++ b) s = true.
Proof. exact (includes_app [] s b). Qed.

(** C9 does not hold as the specification words it: a file of exactly the
    largest size allowed is not accepted when its extension is not an
    accepted one. *)
Lemma C9_exact_size_rejected_for_type :
  size {| name := lit "a.exe"; size := 32 * 1024 * 1024 |}
  = maxSize default_config
  /\ validateFile_default {| name := lit "a.exe"; size := 32 * 1024 * 1024 |}
     = Some (text
          "File 'a.exe' has an unsupported format. Accepted formats: .pdf,.doc,.docx,.txt")
  /\ validateFile_default {| name := lit "a.exe"; size := 32 * 1024 * 1024 |}
     <> None.
Proof.
  split; [reflexivity|]. split; [vm_compute; reflexivity|].
  vm_compute. discriminate.
Qed.

Section FileUpload.

Variable config : Config.
Variable formatBytes : N -> jsstring.
Variable toLowerCase : jsstring -> jsstring.
Variable accept : jsstring.

Local Abbreviation validateFile :=
  (validateFile config formatBytes toLowerCase accept).
Local Abbreviation onDrop := (onDrop config formatBytes toLowerCase accept).
Local Abbreviation too_large := (too_large config formatBytes).
Local Abbreviation maxSize := (maxSize config).

Lemma too_large_names_file_and_limit (file_name : jsstring) :
  includes (too_large file_name) file_name = true
  /\ includes (too_large file_name)
              (show_N (maxFileSizeMB config) ++ lit "MB") = true
  /\ includes (too_large file_name) (formatBytes maxSize) = true.
Proof.
  unfold Upload.too_large. split; [apply includes_app|]. split.
  - do 3 apply includes_skip.
    change (lit "MB (") with (lit "MB" ++ lit " (").
    rewrite <- (app_assoc (lit "MB")), app_assoc.
    apply includes_prefix.
  - do 5 apply includes_skip. apply includes_prefix.
Qed.

(** A file that fails validation is not among those [onDrop] adds. *)
Lemma onDrop_adds_valid_only (acceptedFiles : list File)
    (rejectedFiles : list Rejection) (rendered : list File) (st : state)
    (f : File) :
  In f (selectedFiles (onDrop acceptedFiles rejectedFiles rendered st)) ->
  In f (selectedFiles st) \/ validateFile f = None.
Proof.
  unfold Upload.onDrop.
  destruct (_ <? _)%N; simpl; [auto|].
  rewrite in_app_iff, filter_In. intros [H|[_ H]]; [auto|].
  right. destruct (validateFile f); [discriminate | reflexivity].
Qed.

(** C9, amended: a file of exactly [maxFileSizeMB * 1024 * 1024] bytes is
    never turned down for its size: [validateFile] returns [null] for it
    when its extension is an accepted one, and the unsupported-format
    message otherwise.  A file one byte larger is turned down with the
    too-large message, which contains the file's name and the limit, both
    as [<maxFileSizeMB>MB] and as [formatBytes] renders it.  The check is
    local: [onDrop], of whatever render it is the callback, never adds a
    file over the limit to the selected files, which are what
    [handleUpload] hands on. *)
Theorem C9_size_limit (file_name : jsstring) :
  validateFile {| name := file_name; size := maxSize |}
  = (if array_includes (acceptedTypes toLowerCase accept)
                       (extension toLowerCase file_name)
     then None
     else Some (unsupported accept file_name))
  /\ validateFile {| name := file_name; size := maxSize + 1 |}
     = Some (too_large file_name)
  /\ includes (too_large file_name) file_name = true
  /\ includes (too_large file_name)
              (show_N (maxFileSizeMB config) ++ lit "MB") = true
  /\ includes (too_large file_name) (formatBytes maxSize) = true
  /\ forall acceptedFiles rejectedFiles rendered st,
       ~ In {| name := file_name; size := maxSize + 1 |} (selectedFiles st) ->
       ~ In {| name := file_name; size := maxSize + 1 |}
            (selectedFiles (onDrop acceptedFiles rejectedFiles rendered st)).
Proof.
  assert (Hover : validateFile {| name := file_name; size := maxSize + 1 |}
                  = Some (too_large file_name)).
  { unfold Upload.validateFile. cbn [size name].
    replace (maxSize <? maxSize + 1)%N with true; [reflexivity|].
    symmetry. apply N.ltb_lt. lia. }
  split.
  - unfold Upload.validateFile. cbn [size name].
    rewrite N.ltb_irrefl.
    destruct (array_includes _ _); reflexivity.
  - split; [exact Hover|].
    destruct (too_large_names_file_and_limit file_name) as (A & B & C).
    repeat split; auto.
    intros acc rej rendered st Hnot Hin.
    destruct (onDrop_adds_valid_only _ _ _ _ _ Hin) as [H|H]; [tauto|].
    rewrite Hover in H. discriminate.
Qed.


(** *** The list of selected files *)

Local Abbreviation after := (after config formatBytes toLowerCase accept).
Local Abbreviation handle := (handle config formatBytes toLowerCase accept).
Local Abbreviation all_valid :=
  (all_valid config formatBytes toLowerCase accept).
Local Abbreviation within := (within config).
Local Abbreviation too_many := (too_many config).
Local Abbreviation maxFiles := (maxFiles config).
Local Abbreviation extension := (extension toLowerCase).

Lemma filter_index_past (A : Type) (l : list A) (m n : nat) :
  n < m -> filter_index (fun j => negb (Nat.eqb j n)) m l = l.
Proof.
  revert m. induction l as [|z l IH]; intros m H; cbn [filter_index];
    [reflexivity|].
  replace (Nat.eqb m n) with false by (symmetry; apply Nat.eqb_neq; lia).
  cbn [negb]. rewrite IH by lia. reflexivity.
Qed.

Lemma filter_index_firstn_skipn (A : Type) (l : list A) (k i : nat) :
  filter_index (fun j => negb (Nat.eqb j (k + i))) k l
  = firstn i l ++ skipn (S i) l.
Proof.
  revert k i. induction l as [|x l IH]; intros k i; cbn [filter_index].
  - destruct i; reflexivity.
  - destruct i as [|i].
    + rewrite Nat.add_0_r, Nat.eqb_refl. cbn [negb firstn skipn app].
      apply filter_index_past. lia.
    + replace (Nat.eqb k (k + S i)) with false
        by (symmetry; apply Nat.eqb_neq; lia).
      cbn [negb firstn skipn app]. f_equal.
      replace (k + S i) with (S k + i) by lia. apply IH.
Qed.

(** [removeFile] takes the file at the index given out of the list, keeps
    the others in their order and leaves the messages shown; an index past
    the end removes nothing. *)
Theorem removeFile_at (index : nat) (st : state) :
  selectedFiles (removeFile index st)
  = firstn index (selectedFiles st) ++ skipn (S index) (selectedFiles st)
  /\ shown_errors (removeFile index st) = shown_errors st
  /\ (List.length (selectedFiles st) <= index -> removeFile index st = st).
Proof.
  assert (E : selectedFiles (removeFile index st)
              = firstn index (selectedFiles st)
                ++ skipn (S index) (selectedFiles st))
    by exact (filter_index_firstn_skipn File (selectedFiles st) 0 index).
  split; [exact E|]. split; [reflexivity|].
  intros H. unfold Upload.removeFile in *. cbn [selectedFiles] in E.
  rewrite E, firstn_all2 by exact H.
  rewrite skipn_all2 by lia. rewrite app_nil_r.
  destruct st; reflexivity.
Qed.

Lemma filter_index_In (A : Type) (p : nat -> bool) (i : nat) (l : list A)
    (x : A) :
  In x (filter_index p i l) -> In x l.
Proof.
  revert i. induction l as [|y l IH]; intros i; cbn [filter_index];
    [intros []|].
  destruct (p i); [intros [<-|H]; [left; reflexivity|]|intros H];
    right; exact (IH _ H).
Qed.

Lemma filter_index_length (A : Type) (p : nat -> bool) (i : nat)
    (l : list A) :
  List.length (filter_index p i l) <= List.length l.
Proof.
  revert i. induction l as [|y l IH]; intros i; cbn [filter_index];
    [apply le_n|].
  destruct (p i); simpl; specialize (IH (S i)); lia.
Qed.

(** What every run keeps: the files selected, in the state a render saw
    and in the latest state, all pass [validateFile]; when every drop
    comes right after a render, they are at most [maxFiles], and the
    render seen is the latest state whenever a render has just come. *)
Lemma handle_keeps_valid (c : component) (e : event) :
  all_valid (selectedFiles (rendered c)) ->
  all_valid (selectedFiles (latest c)) ->
  all_valid (selectedFiles (rendered (handle c e)))
  /\ all_valid (selectedFiles (latest (handle c e))).
Proof.
  intros Hr Hl. destruct e as [a r|i| | |]; cbn [handle rendered latest].
  - split; [exact Hr|]. intros f Hf.
    destruct (onDrop_adds_valid_only a r _ _ f Hf); auto.
  - split; [exact Hr|]. unfold Upload.removeFile. cbn [selectedFiles].
    intros f Hf. apply Hl. exact (filter_index_In _ _ _ _ _ Hf).
  - split; [exact Hr | intros f []].
  - split; [exact Hr|]. unfold Upload.handleUpload.
    destruct (selectedFiles (rendered c)); cbn [snd selectedFiles];
      [exact Hl | intros x []].
  - split; exact Hl.
Qed.

Lemma handle_keeps_within (c : component) (e : event) (fresh : bool)
    (rest : list event) :
  renders_before_drops fresh (e :: rest) = true ->
  (fresh = true -> rendered c = latest c) ->
  within (selectedFiles (rendered c)) ->
  within (selectedFiles (latest c)) ->
  exists fresh',
    renders_before_drops fresh' rest = true
    /\ (fresh' = true -> rendered (handle c e) = latest (handle c e))
    /\ within (selectedFiles (rendered (handle c e)))
    /\ within (selectedFiles (latest (handle c e))).
Proof.
  unfold Upload.within. intros Hev Hf Hr Hl.
  destruct e as [a r|i| | |]; cbn [renders_before_drops] in Hev;
    cbn [handle rendered latest].
  - apply andb_true_iff in Hev. destruct Hev as [-> Hev].
    exists false. split; [exact Hev|]. split; [discriminate|].
    split; [exact Hr|]. rewrite (Hf eq_refl). unfold Upload.onDrop.
    destruct (_ <? _)%N eqn:E; cbn [selectedFiles]; [exact Hl|].
    apply N.ltb_ge in E. rewrite length_app. exact E.
  - exists false. split; [exact Hev|]. split; [discriminate|].
    split; [exact Hr|]. unfold Upload.removeFile. cbn [selectedFiles].
    pose proof (filter_index_length File (fun j => negb (Nat.eqb j i)) 0
                  (selectedFiles (latest c))). lia.
  - exists false. split; [exact Hev|]. split; [discriminate|].
    split; [exact Hr | simpl; lia].
  - exists false. split; [exact Hev|]. split; [discriminate|].
    split; [exact Hr|]. unfold Upload.handleUpload.
    destruct (selectedFiles (rendered c)); cbn [snd selectedFiles];
      [exact Hl | simpl; lia].
  - exists true. split; [exact Hev|]. split; [reflexivity|].
    split; exact Hl.
Qed.

Lemma after_keeps_valid (events : list event) :
  all_valid (selectedFiles (rendered (after events)))
  /\ all_valid (selectedFiles (latest (after events))).
Proof.
  unfold Upload.after.
  assert (G : forall c,
    all_valid (selectedFiles (rendered c)) ->
    all_valid (selectedFiles (latest c)) ->
    all_valid (selectedFiles (rendered (fold_left handle events c)))
    /\ all_valid (selectedFiles (latest (fold_left handle events c)))).
  { induction events as [|e events IH]; intros c Hr Hl; simpl; [auto|].
    destruct (handle_keeps_valid c e Hr Hl) as [Hr' Hl'].
    apply IH; assumption. }
  apply G; intros f [].
Qed.

Lemma after_keeps_within (events : list event) :
  renders_before_drops true events = true ->
  within (selectedFiles (rendered (after events)))
  /\ within (selectedFiles (latest (after events))).
Proof.
  unfold Upload.after.
  assert (G : forall fresh c,
    renders_before_drops fresh events = true ->
    (fresh = true -> rendered c = latest c) ->
    within (selectedFiles (rendered c)) ->
    within (selectedFiles (latest c)) ->
    within (selectedFiles (rendered (fold_left handle events c)))
    /\ within (selectedFiles (latest (fold_left handle events c)))).
  { induction events as [|e events IH]; intros fresh c Hev Hf Hr Hl; simpl;
      [auto|].
    destruct (handle_keeps_within c e fresh events Hev Hf Hr Hl)
      as (fresh' & Hev' & Hf' & Hr' & Hl').
    exact (IH fresh' _ Hev' Hf' Hr' Hl'). }
  intros Hev. apply (G true); auto; unfold Upload.within; simpl; lia.
Qed.

(** Whatever has happened to the component since it was mounted, in
    whatever order, [handleUpload] calls [onUpload] only with a list that
    is not empty and holds only files that pass [validateFile], none of
    them over the size limit; with no file selected in the render it
    belongs to, it does not call [onUpload].  When every drop came right
    after a render, the list has at most [maxFilesPerUpload] files.  (Two
    drops handled by the callback of one render are both checked against
    the files that render saw, and together can go over the limit.) *)
Theorem upload_hands_on_valid_files (events : list event) :
  match handed_on (after events) with
  | Some files =>
      files = selectedFiles (rendered (after events))
      /\ files <> []
      /\ (forall f, In f files ->
            validateFile f = None /\ (size f <= maxSize)%N)
      /\ (renders_before_drops true events = true ->
          (N.of_nat (List.length files) <= maxFiles)%N)
  | None => selectedFiles (rendered (after events)) = []
  end.
Proof.
  destruct (after_keeps_valid events) as [Hv _].
  pose proof (after_keeps_within events) as Hn.
  unfold handed_on, Upload.handleUpload.
  destruct (selectedFiles (rendered (after events))) as [|f0 l] eqn:E;
    cbn [fst]; [reflexivity|].
  split; [reflexivity|]. split; [discriminate|]. split.
  - intros f Hf. pose proof (Hv f Hf) as V. split; [exact V|].
    unfold Upload.validateFile in V.
    destruct (maxSize <? size f)%N eqn:L; [discriminate|].
    apply N.ltb_ge in L. exact L.
  - intros Hev. destruct (Hn Hev) as [Hr _]. exact Hr.
Qed.

Lemma shown_errors_name_a_file (acceptedFiles : list File)
    (rejectedFiles : list Rejection) (rendered : list File) (st : state)
    (m : jsstring) :
  In m (shown_errors (onDrop acceptedFiles rejectedFiles rendered st)) ->
  exists rest, m = text "File '" ++ rest.
Proof.
  unfold Upload.onDrop. destruct (_ <? _)%N; simpl; [intros []|].
  rewrite in_app_iff, !in_flat_map.
  intros [(f & _ & H)|(r & _ & H)].
  - unfold Upload.validateFile in H.
    destruct (_ <? _)%N.
    + destruct H as [<-|[]]. eexists. reflexivity.
    + destruct (negb _); [|destruct H].
      destruct H as [<-|[]]. eexists. reflexivity.
  - apply in_map_iff in H. destruct H as (e & <- & _).
    unfold rejection_message.
    destruct (str_eqb _ _); [eexists; reflexivity|].
    destruct (str_eqb _ _); eexists; reflexivity.
Qed.

(** The message that says the files are too many is never shown:
    [onDrop] returns right after pushing it on its local list.  Every
    message [onDrop] does show begins with [File] and a quote. *)
Theorem limit_message_is_never_shown (acceptedFiles : list File)
    (rejectedFiles : list Rejection) (rendered : list File) (st : state) :
  ~ In (too_many rendered)
       (shown_errors (onDrop acceptedFiles rejectedFiles rendered st))
  /\ forall m,
       In m (shown_errors (onDrop acceptedFiles rejectedFiles rendered st)) ->
       startsWith m (text "File '") = true.
Proof.
  split.
  - intros H. apply shown_errors_name_a_file in H.
    destruct H as (rest & H). discriminate H.
  - intros m H. apply shown_errors_name_a_file in H.
    destruct H as (rest & ->). apply startsWith_app.
Qed.

Lemma filter_all (A : Type) (p : A -> bool) (l : list A) :
  (forall x, In x l -> p x = true) -> filter p l = l.
Proof.
  induction l as [|x l IH]; intros H; simpl; [reflexivity|].
  rewrite (H x) by (left; reflexivity).
  rewrite IH; [reflexivity|]. intros y Hy. apply H. right. exact Hy.
Qed.

(** A drop that would take the list its render saw over
    [maxFilesPerUpload] adds none of its files, not even as many as would
    fit, and shows no message: not for the limit, and not those of the
    files the dropzone rejected in the same drop. *)
Theorem drop_over_the_limit_is_silent (acceptedFiles : list File)
    (rejectedFiles : list Rejection) (rendered : list File) (st : state) :
  (forall f, In f acceptedFiles -> validateFile f = None) ->
  (maxFiles
   < N.of_nat (List.length rendered + List.length acceptedFiles))%N ->
  onDrop acceptedFiles rejectedFiles rendered st
  = {| selectedFiles := selectedFiles st; shown_errors := [] |}.
Proof.
  intros Hv Hn. unfold Upload.onDrop.
  rewrite filter_all.
  - apply N.ltb_lt in Hn. rewrite Hn. reflexivity.
  - intros f Hf. rewrite (Hv f Hf). reflexivity.
Qed.

Lemma accepted_split (l : list File) :
  List.length (filter (fun f => match validateFile f with
                                | Some _ => false
                                | None => true
                                end) l)
  + List.length (flat_map (fun f => match validateFile f with
                                    | Some e => [e]
                                    | None => []
                                    end) l)
  = List.length l.
Proof.
  induction l as [|f l IH]; simpl; [reflexivity|].
  destruct (validateFile f); simpl; lia.
Qed.

(** A drop that fits, with the files its render saw, accounts for
    everything in it: each accepted file is either added to the end of the
    list or answered with one message, and each error of a rejected file
    is answered with one message; the files selected before stay where
    they were. *)
Theorem drop_accounts_for_every_file (acceptedFiles : list File)
    (rejectedFiles : list Rejection) (rendered : list File) (st : state) :
  (N.of_nat (List.length rendered + List.length acceptedFiles)
   <= maxFiles)%N ->
  List.length (selectedFiles (onDrop acceptedFiles rejectedFiles rendered st))
  + List.length (shown_errors (onDrop acceptedFiles rejectedFiles rendered st))
  = List.length (selectedFiles st) + List.length acceptedFiles
    + List.length (flat_map errors rejectedFiles)
  /\ firstn (List.length (selectedFiles st))
            (selectedFiles (onDrop acceptedFiles rejectedFiles rendered st))
     = selectedFiles st
  /\ forall f, In f acceptedFiles ->
       match validateFile f with
       | None =>
           In f (selectedFiles (onDrop acceptedFiles rejectedFiles rendered st))
       | Some e =>
           In e (shown_errors (onDrop acceptedFiles rejectedFiles rendered st))
       end.
Proof.
  intros Hn. pose proof (accepted_split acceptedFiles) as S.
  unfold Upload.onDrop.
  match goal with |- context [(?a <? ?b)%N] =>
    replace (a <? b)%N with false by (symmetry; apply N.ltb_ge; lia) end.
  cbn [selectedFiles shown_errors]. split; [|split].
  - rewrite !length_app.
    assert (R : List.length (flat_map (fun r => map (rejection_message config formatBytes accept (file r)) (errors r)) rejectedFiles)
                = List.length (flat_map errors rejectedFiles)).
    { clear. induction rejectedFiles as [|r l IH]; simpl; [reflexivity|].
      rewrite !length_app, length_map, IH. reflexivity. }
    rewrite R. lia.
  - rewrite firstn_app, Nat.sub_diag, firstn_all. simpl. apply app_nil_r.
  - intros f Hf. destruct (validateFile f) as [e|] eqn:V.
    + apply in_app_iff. left. apply in_flat_map. exists f.
      rewrite V. split; [exact Hf | left; reflexivity].
    + apply in_app_iff. right. apply filter_In. rewrite V. auto.
Qed.

(** Only what follows the last dot of a name counts as its extension, and
    a name without a dot counts as one whole: the file [pdf] passes where
    [brief.pdf] does. *)
Theorem extension_is_after_the_last_dot (stem ext : jsstring) (n : N) :
  ~ In 46%N ext ->
  extension (stem ++ 46%N :: ext) = lit "." ++ toLowerCase ext
  /\ extension ext = lit "." ++ toLowerCase ext
  /\ (validateFile {| name := stem ++ 46%N :: ext; size := n |} = None
      <-> validateFile {| name := ext; size := n |} = None).
Proof.
  intros H.
  assert (A : extension (stem ++ 46%N :: ext) = lit "." ++ toLowerCase ext).
  { unfold Upload.extension.
    rewrite ApiFacts.split_app_sep, (split_none 46 ext H), last_last.
    reflexivity. }
  assert (B : extension ext = lit "." ++ toLowerCase ext).
  { unfold Upload.extension. rewrite (split_none 46 ext H). reflexivity. }
  split; [exact A|]. split; [exact B|].
  unfold Upload.validateFile. cbn [name size]. rewrite A, B.
  destruct (_ <? _)%N; [split; discriminate|].
  destruct (negb _); [split; discriminate | tauto].
Qed.

End FileUpload.

(** The default configuration at its limit of 32 MB. *)
Lemma validateFile_default_examples :
  validateFile_default {| name := lit "brief.PDF"; size := 33554432 |} = None
  /\ validateFile_default {| name := lit "brief.pdf"; size := 33554433 |}
     = Some (text
          "File 'brief.pdf' is too large. Maximum size is 32MB (32 MB).Its been removed from the list automatically").
Proof. split; vm_compute; reflexivity. Qed.


Lemma drop_over_the_limit_is_silent_witness :
  onDrop two_files formatBytes_default ascii_toLowerCase
         (lit ".pdf,.doc,.docx,.txt") [notes; brief] [rejected_picture]
         [brief] one_selected
  = {| selectedFiles := [brief]; shown_errors := [] |}.
Proof.
  apply (drop_over_the_limit_is_silent two_files formatBytes_default
           ascii_toLowerCase (lit ".pdf,.doc,.docx,.txt")
           [notes; brief] [rejected_picture] [brief] one_selected).
  - intros f [<-|[<-|[]]]; vm_compute; reflexivity.
  - vm_compute. reflexivity.
Defined.

Lemma drop_accounts_for_every_file_witness :
  List.length (selectedFiles
     (onDrop two_files formatBytes_default ascii_toLowerCase
             (lit ".pdf,.doc,.docx,.txt") [picture] [rejected_picture]
             [brief] one_selected))
  + List.length (shown_errors
     (onDrop two_files formatBytes_default ascii_toLowerCase
             (lit ".pdf,.doc,.docx,.txt") [picture] [rejected_picture]
             [brief] one_selected))
  = 1 + 1 + 1.
Proof.
  apply (drop_accounts_for_every_file two_files formatBytes_default
           ascii_toLowerCase (lit ".pdf,.doc,.docx,.txt")
           [picture] [rejected_picture] [brief] one_selected).
  vm_compute. discriminate.
Defined.

Lemma extension_is_after_the_last_dot_witness :
  extension ascii_toLowerCase (lit "brief.v2" ++ 46%N :: lit "PDF")
  = lit ".pdf"
  /\ extension ascii_toLowerCase (lit "PDF") = lit ".pdf"
  /\ (validateFile_default
        {| name := lit "brief.v2" ++ 46%N :: lit "PDF"; size := 7 |} = None
      <-> validateFile_default {| name := lit "PDF"; size := 7 |} = None).
Proof.
  apply (extension_is_after_the_last_dot default_config formatBytes_default
           ascii_toLowerCase (lit ".pdf,.doc,.docx,.txt")
           (lit "brief.v2") (lit "PDF") 7%N).
  vm_compute. intuition discriminate.
Defined.

(** Sessions with the component.  With a render after each drop, the
    second drop does not fit and adds nothing; a file is removed; the
    upload hands on what the render saw.  Without a render between them,
    two drops of two files are both checked against the empty list their
    render saw, and four files are handed on where two are allowed. *)
Lemma upload_examples :
  let after := after two_files formatBytes_default ascii_toLowerCase
                     (lit ".pdf,.doc,.docx,.txt") in
  latest (after [drop [brief; picture] []; render; drop [notes; notes] []])
  = {| selectedFiles := [brief]; shown_errors := [] |}
  /\ selectedFiles (latest (after [drop [brief; picture] []; render;
                                   drop [notes] []; render; remove 0]))
     = [notes]
  /\ handed_on (after [drop [brief; picture] []; render; drop [notes] [];
                       render])
     = Some [brief; notes]
  /\ handed_on (after [drop [picture] []; render]) = None
  /\ handed_on (after [drop [brief; notes] []; drop [notes; brief] []; render])
     = Some [brief; notes; notes; brief]
  /\ maxFiles two_files = 2%N.
Proof. vm_compute. repeat split. Qed.

End UploadFacts.
